(** * A shallow embedding of the chess AI of react-native-chess

    The development follows the TypeScript class [ChessAI]: the piece values
    and piece-square tables, the static evaluator [evaluatePosition], the
    alpha-beta search [minimax] and the difficulty driven entry point
    [getBestMove].

    - The rules engine (the [Chess] class of chess.js) is not part of the
      program; it is an interface here, the class [RulesEngine].
    - JavaScript numbers are doubles, kept as the rationals ([Q]) they
      denote and extended with the two infinities that the search uses as
      sentinels.  Every table entry is a multiple of one half, so the
      arithmetic of the noise-free evaluator is exact; the noise and the
      random index are rounded as doubles are; no computation of the program
      yields NaN.
    - The two effects of the program, [Date.now()] and [Math.random()], are
      read from oracles through a small state monad that counts the reads.
    - [Array.prototype.sort] is stable (ECMAScript 2019) and is modelled by
      a stable insertion sort. *)

From Stdlib Require Import String.
From Stdlib Require Import QArith Qround Qpower ZArith List Lqa Lia Bool.
From Stdlib Require Import Permutation Orders OrdersTac Setoid Morphisms.
From Stdlib Require Import Ascii DecimalString.
Import ListNotations.

Set Implicit Arguments.

(** ** Data of chess.js used by the AI *)

Inductive Color := White | Black.

Inductive PieceSymbol := Pawn | Knight | Bishop | Rook | Queen | King.

Record Piece := mkPiece { ptype : PieceSymbol; pcolor : Color }.

(** A verbose move of chess.js; only the fields the AI reads. *)
Record Move := mkMove {
  from : String.string;
  to : String.string;
  captured : option PieceSymbol;
  promotion : option PieceSymbol
}.

Record AIMove := mkAIMove {
  ai_from : String.string;
  ai_to : String.string;
  ai_promotion : option PieceSymbol
}.

Inductive Difficulty := easy | medium | hard.

Record AISettings := mkSettings {
  depth : Z;
  difficulty : Difficulty;
  timeLimitMs : Z
}.

Definition Board := list (list (option Piece)).

Definition opposite (c : Color) : Color :=
  match c with White => Black | Black => White end.

Definition Color_eqb (c d : Color) : bool :=
  match c, d with
  | White, White | Black, Black => true
  | _, _ => false
  end.

(** The part of the [Chess] class the AI calls.  [move g m] stands for
    [new Chess(g.fen())] followed by [.move(m)]: the AI never moves on the
    game it was given. *)
Class RulesEngine (Chess : Type) := {
  moves : Chess -> list Move;
  move : Chess -> Move -> Chess;
  turn : Chess -> Color;
  isCheckmate : Chess -> bool;
  isDraw : Chess -> bool;
  isGameOver : Chess -> bool;
  board : Chess -> Board
}.

(** ** JavaScript numbers *)

Inductive number := NegInfinity | Num (x : Q) | Infinity.

Definition Qlt_bool (x y : Q) : bool := negb (Qle_bool y x).

(** [a < b], [a <= b] and [a > b] of JavaScript. *)
Definition num_lt (a c : number) : bool :=
  match a, c with
  | _, NegInfinity => false
  | NegInfinity, _ => true
  | Infinity, _ => false
  | Num _, Infinity => true
  | Num x, Num y => Qlt_bool x y
  end.

Definition num_le (a c : number) : bool := negb (num_lt c a).

Definition num_gt (a c : number) : bool := num_lt c a.

Definition Math_max (a c : number) : number := if num_lt a c then c else a.

Definition Math_min (a c : number) : number := if num_lt c a then c else a.

(** Numeric equality of two numbers ([===] on non-NaN numbers). *)
Definition num_eq (a c : number) : Prop :=
  match a, c with
  | NegInfinity, NegInfinity => True
  | Infinity, Infinity => True
  | Num x, Num y => x == y
  | _, _ => False
  end.

(** ** Piece values and piece-square tables *)

Open Scope Q_scope.

Definition PIECE_VALUES (t : PieceSymbol) : Q :=
  match t with
  | Pawn => 1
  | Knight => 3
  | Bishop => 3
  | Rook => 5
  | Queen => 9
  | King => 100
  end.

Definition PAWN_POSITION_VALUES : list (list Q) :=
  [ [0; 0; 0; 0; 0; 0; 0; 0];
    [5; 5; 5; 5; 5; 5; 5; 5];
    [1; 1; 2; 3; 3; 2; 1; 1];
    [0.5; 0.5; 1; 2.5; 2.5; 1; 0.5; 0.5];
    [0; 0; 0; 2; 2; 0; 0; 0];
    [0.5; -0.5; -1; 0; 0; -1; -0.5; 0.5];
    [0.5; 1; 1; -2; -2; 1; 1; 0.5];
    [0; 0; 0; 0; 0; 0; 0; 0] ].

Definition KNIGHT_POSITION_VALUES : list (list Q) :=
  [ [-5; -4; -3; -3; -3; -3; -4; -5];
    [-4; -2; 0; 0; 0; 0; -2; -4];
    [-3; 0; 1; 1.5; 1.5; 1; 0; -3];
    [-3; 0.5; 1.5; 2; 2; 1.5; 0.5; -3];
    [-3; 0; 1.5; 2; 2; 1.5; 0; -3];
    [-3; 0.5; 1; 1.5; 1.5; 1; 0.5; -3];
    [-4; -2; 0; 0.5; 0.5; 0; -2; -4];
    [-5; -4; -3; -3; -3; -3; -4; -5] ].

Definition BISHOP_POSITION_VALUES : list (list Q) :=
  [ [-2; -1; -1; -1; -1; -1; -1; -2];
    [-1; 0; 0; 0; 0; 0; 0; -1];
    [-1; 0; 0.5; 1; 1; 0.5; 0; -1];
    [-1; 0.5; 0.5; 1; 1; 0.5; 0.5; -1];
    [-1; 0; 1; 1; 1; 1; 0; -1];
    [-1; 1; 1; 1; 1; 1; 1; -1];
    [-1; 0.5; 0; 0; 0; 0; 0.5; -1];
    [-2; -1; -1; -1; -1; -1; -1; -2] ].

Definition ROOK_POSITION_VALUES : list (list Q) :=
  [ [0; 0; 0; 0; 0; 0; 0; 0];
    [0.5; 1; 1; 1; 1; 1; 1; 0.5];
    [-0.5; 0; 0; 0; 0; 0; 0; -0.5];
    [-0.5; 0; 0; 0; 0; 0; 0; -0.5];
    [-0.5; 0; 0; 0; 0; 0; 0; -0.5];
    [-0.5; 0; 0; 0; 0; 0; 0; -0.5];
    [-0.5; 0; 0; 0; 0; 0; 0; -0.5];
    [0; 0; 0; 0.5; 0.5; 0; 0; 0] ].

Definition QUEEN_POSITION_VALUES : list (list Q) :=
  [ [-2; -1; -1; -0.5; -0.5; -1; -1; -2];
    [-1; 0; 0; 0; 0; 0; 0; -1];
    [-1; 0; 0.5; 0.5; 0.5; 0.5; 0; -1];
    [-0.5; 0; 0.5; 0.5; 0.5; 0.5; 0; -0.5];
    [0; 0; 0.5; 0.5; 0.5; 0.5; 0; -0.5];
    [-1; 0.5; 0.5; 0.5; 0.5; 0.5; 0; -1];
    [-1; 0; 0.5; 0; 0; 0; 0; -1];
    [-2; -1; -1; -0.5; -0.5; -1; -1; -2] ].

Definition KING_POSITION_VALUES : list (list Q) :=
  [ [-3; -4; -4; -5; -5; -4; -4; -3];
    [-3; -4; -4; -5; -5; -4; -4; -3];
    [-3; -4; -4; -5; -5; -4; -4; -3];
    [-3; -4; -4; -5; -5; -4; -4; -3];
    [-2; -3; -3; -4; -4; -3; -3; -2];
    [-1; -2; -2; -2; -2; -2; -2; -1];
    [2; 2; 0; 0; 0; 0; 2; 2];
    [2; 3; 1; 0; 0; 1; 3; 2] ].

(** The [default] branch of the source is out of reach: chess.js knows no
    seventh kind of piece. *)
Definition getPositionTable (pieceType : PieceSymbol) : list (list Q) :=
  match pieceType with
  | Pawn => PAWN_POSITION_VALUES
  | Knight => KNIGHT_POSITION_VALUES
  | Bishop => BISHOP_POSITION_VALUES
  | Rook => ROOK_POSITION_VALUES
  | Queen => QUEEN_POSITION_VALUES
  | King => KING_POSITION_VALUES
  end.

(** [table[i][j]]; the AI only reads the tables inside their 8 by 8 range. *)
Definition index2 (table : list (list Q)) (i j : nat) : Q :=
  nth j (nth i table []) 0.

(** [rank] is the row of [game.board()], whose row 0 is the eighth rank. *)
Definition getPositionValue (piece : Piece) (rank file : nat) : Q :=
  let positionValues := getPositionTable (ptype piece) in
  let actualRank :=
    match pcolor piece with White => (7 - rank)%nat | Black => rank end in
  index2 positionValues actualRank file.

(** ** Effects: the clock and the random source *)

(** What the host gives the program: the value of the [k]-th call of
    [Date.now()] and of the [k]-th call of [Math.random()]. *)
Record Environment := mkEnv {
  clock : nat -> Z;
  random : nat -> Q
}.

(** How many readings of each the program has consumed. *)
Record World := mkWorld {
  clockReads : nat;
  randomDraws : nat
}.

Definition M (A : Type) : Type := World -> A * World.

Definition ret {A} (a : A) : M A := fun s => (a, s).

Definition bind {A B} (c : M A) (k : A -> M B) : M B :=
  fun s => let (a, s') := c s in k a s'.

Notation "x <- c ;; k" := (bind c (fun x => k))
  (at level 61, c at next level, right associativity).

Definition Date_now (env : Environment) : M Z :=
  fun s => (clock env (clockReads s),
            mkWorld (S (clockReads s)) (randomDraws s)).

Definition Math_random (env : Environment) : M Q :=
  fun s => (random env (randomDraws s),
            mkWorld (clockReads s) (S (randomDraws s))).

(** A call either completes or throws the [TypeError] of a property read on
    [undefined]. *)
Inductive completion (A : Type) := Normal (a : A) | TypeError.
Arguments TypeError {A}.

(** ** [Array.prototype.sort]

    The sort of the host is stable (ECMAScript 2019); it is modelled by the
    stable insertion sort.  [compareFn a c <= 0] keeps [a] before [c]. *)

Section Sort.
Variable A : Type.
Variable compareFn : A -> A -> Z.

Fixpoint sort_insert (x : A) (l : list A) : list A :=
  match l with
  | [] => [x]
  | y :: ys =>
      if (compareFn x y <=? 0)%Z then x :: y :: ys
      else y :: sort_insert x ys
  end.

Fixpoint Array_sort (l : list A) : list A :=
  match l with
  | [] => []
  | x :: xs => sort_insert x (Array_sort xs)
  end.
End Sort.

Definition truthy {A} (o : option A) : bool :=
  match o with Some _ => true | None => false end.

(** [(a, c) => (c.captured ? 1 : 0) - (a.captured ? 1 : 0)] *)
Definition capturesFirst (a c : Move) : Z :=
  ((if truthy (captured c) then 1 else 0)
   - (if truthy (captured a) then 1 else 0))%Z.

Definition orderMoves (l : list Move) : list Move :=
  Array_sort capturesFirst l.

Definition toAIMove (m : Move) : AIMove :=
  mkAIMove (from m) (to m) (promotion m).

(** ** Doubles

    A number of the program is an IEEE 754 binary64 value and is kept as
    the rational it denotes.  [double] rounds a rational to the nearest
    binary64 value, ties to even, subnormals included; the magnitudes the
    program reaches stay far below 2^1024, where a double overflows.  The
    operations of the program whose exact result need not be a double go
    through [double]: the noise of the evaluator and the index of the easy
    tier.  The sums of the noise-free evaluator are sums of multiples of one
    half and are exact. *)

(** [floor (log2 q)], for [q > 0]. *)
Definition ilog2 (q : Q) : Z :=
  let k := (Z.log2 (Qnum q) - Z.log2 (Z.pos (Qden q)))%Z in
  if Qle_bool (2 ^ k) q then k else (k - 1)%Z.

(** The nearest integer, ties to even. *)
Definition roundEven (q : Q) : Z :=
  let f := Qfloor q in
  match Qcompare (q - inject_Z f) (1 # 2) with
  | Lt => f
  | Gt => (f + 1)%Z
  | Eq => if Z.even f then f else (f + 1)%Z
  end.

(** The exponent of the unit in the last place: 53 bits of precision,
    subnormals below 2^-1022. *)
Definition ulpExp (q : Q) : Z := Z.max (ilog2 q - 52) (-1074).

Definition roundPos (q : Q) : Q :=
  inject_Z (roundEven (q / 2 ^ ulpExp q)) * 2 ^ ulpExp q.

Definition double (q : Q) : Q :=
  match Qcompare q 0 with
  | Eq => 0
  | Gt => roundPos q
  | Lt => - roundPos (- q)
  end.

(** [a + b], [a - b] and [a * b] on doubles. *)
Definition fadd (a b : Q) : Q := double (a + b).
Definition fsub (a b : Q) : Q := double (a - b).
Definition fmul (a b : Q) : Q := double (a * b).

Definition isDouble (q : Q) : Prop := double q == q.

(** The largest double below 1. *)
Definition belowOne : Q := 1 - 2 ^ (-53).

(** ** The evaluator *)

Definition squareAt (brd : Board) (rank file : nat) : option Piece :=
  nth file (nth rank brd []) None.

(** The body of the two nested [for] loops of [evaluatePosition]. *)
Definition addSquare (brd : Board) (rank : nat) (score : Q) (file : nat) : Q :=
  match squareAt brd rank file with
  | None => score
  | Some piece =>
      let pieceValue := PIECE_VALUES (ptype piece) in
      let positionValue := getPositionValue piece rank file in
      let totalValue := pieceValue + positionValue in
      match pcolor piece with
      | White => score + totalValue
      | Black => score - totalValue
      end
  end.

Definition addRank (brd : Board) (score : Q) (rank : nat) : Q :=
  fold_left (addSquare brd rank) (seq 0 8) score.

Definition boardScore (brd : Board) : Q :=
  fold_left (addRank brd) (seq 0 8) 0.

Section ChessAI.
Context {Chess : Type} {engine : RulesEngine Chess}.
Variable env : Environment.
Variable settings : AISettings.

Definition evaluatePosition (game : Chess) : M Q :=
  if isCheckmate game then
    ret (match turn game with White => -1000 | Black => 1000 end)
  else if isDraw game then ret 0
  else
    let score := boardScore (board game) in
    match difficulty settings with
    | easy =>
        r <- Math_random env ;; ret (fadd score (fmul (fsub r 0.5) 2))
    | medium =>
        r <- Math_random env ;; ret (fadd score (fmul (fsub r 0.5) 1))
    | hard => ret score
    end.

(** The loop of a maximizing node, over the moves that remain. *)
Fixpoint maxLoop (child : Chess -> bool -> number -> number -> M number)
    (game : Chess) (beta : number) (l : list Move)
    (alpha maxEval : number) : M number :=
  match l with
  | [] => ret maxEval
  | mv :: rest =>
      let newGame := move game mv in
      evaluation <- child newGame false alpha beta ;;
      let maxEval := Math_max maxEval evaluation in
      let alpha := Math_max alpha evaluation in
      if num_le beta alpha then ret maxEval
      else maxLoop child game beta rest alpha maxEval
  end.

Fixpoint minLoop (child : Chess -> bool -> number -> number -> M number)
    (game : Chess) (alpha : number) (l : list Move)
    (beta minEval : number) : M number :=
  match l with
  | [] => ret minEval
  | mv :: rest =>
      let newGame := move game mv in
      evaluation <- child newGame true alpha beta ;;
      let minEval := Math_min minEval evaluation in
      let beta := Math_min beta evaluation in
      if num_le beta alpha then ret minEval
      else minLoop child game alpha rest beta minEval
  end.

(** [Date.now()] is read first at every node, whatever the depth. *)
Fixpoint minimax (depth : nat) (deadline : Z) (game : Chess)
    (isMaximizing : bool) (alpha beta : number) : M number :=
  now <- Date_now env ;;
  match depth with
  | O => score <- evaluatePosition game ;; ret (Num score)
  | S depth' =>
      if (deadline <? now)%Z || isGameOver game then
        score <- evaluatePosition game ;; ret (Num score)
      else
        let l := orderMoves (moves game) in
        if isMaximizing then
          maxLoop (minimax depth' deadline) game beta l alpha NegInfinity
        else
          minLoop (minimax depth' deadline) game alpha l beta Infinity
  end.

(** [score] replaces the best so far only when strictly better for the
    side at the root. *)
Definition better (isWhite : bool) (score bestScore : number) : bool :=
  if isWhite then num_gt score bestScore else num_lt score bestScore.

Definition worst (isWhite : bool) : number :=
  if isWhite then NegInfinity else Infinity.

(** The one-ply loop of the medium tier. *)
Fixpoint mediumLoop (game : Chess) (isWhite : bool) (l : list Move)
    (bestScore : number) (bestMove : option Move) : M (option Move) :=
  match l with
  | [] => ret bestMove
  | mv :: rest =>
      let next := move game mv in
      score <- evaluatePosition next ;;
      if better isWhite (Num score) bestScore
      then mediumLoop game isWhite rest (Num score) (Some mv)
      else mediumLoop game isWhite rest bestScore bestMove
  end.

(** The loop over the root moves at one depth of the hard tier. *)
Fixpoint rootLoop (depth : nat) (deadline : Z) (game : Chess)
    (isRootWhite : bool) (l : list Move)
    (bestScoreAtDepth : number) (bestMoveAtDepth : option Move)
    : M (option Move) :=
  match l with
  | [] => ret bestMoveAtDepth
  | mv :: rest =>
      now <- Date_now env ;;
      if (deadline <? now)%Z then ret bestMoveAtDepth
      else
        let newGame := move game mv in
        score <- minimax (depth - 1) deadline newGame
                   (Color_eqb (turn newGame) White) NegInfinity Infinity ;;
        if better isRootWhite score bestScoreAtDepth
        then rootLoop depth deadline game isRootWhite rest score (Some mv)
        else rootLoop depth deadline game isRootWhite rest
               bestScoreAtDepth bestMoveAtDepth
  end.

(** The loop [for (depth = 1; depth <= settings.depth; depth++)], over the
    depths that remain. *)
Fixpoint deepen (deadline : Z) (game : Chess) (isRootWhite : bool)
    (orderedMoves : list Move) (depths : list nat)
    (selectedMove : option Move) : M (option Move) :=
  match depths with
  | [] => ret selectedMove
  | depth :: rest =>
      bestMoveAtDepth <-
        rootLoop depth deadline game isRootWhite orderedMoves
          (worst isRootWhite) None ;;
      let selectedMove :=
        match bestMoveAtDepth with
        | Some mv => Some mv
        | None => selectedMove
        end in
      now <- Date_now env ;;
      if (deadline <? now)%Z then ret selectedMove
      else deepen deadline game isRootWhite orderedMoves rest selectedMove
  end.

(** [pool[Math.floor(Math.random() * pool.length)]] *)
Definition pick (pool : list Move) (r : Q) : option Move :=
  let i := Qfloor (fmul r (inject_Z (Z.of_nat (length pool)))) in
  if (i <? 0)%Z then None else nth_error pool (Z.to_nat i).

Definition getBestMove (game : Chess) : M (completion (option AIMove)) :=
  let l := moves game in
  match l with
  | [] => ret (Normal None)
  | fallback :: _ =>
      match difficulty settings with
      | easy =>
          let capturing := filter (fun m => truthy (captured m)) l in
          let pool :=
            if (0 <? length capturing)%nat then capturing else l in
          r <- Math_random env ;;
          match pick pool r with
          | Some chosen => ret (Normal (Some (toAIMove chosen)))
          | None => ret TypeError
          end
      | medium =>
          let isWhite := Color_eqb (turn game) White in
          let ordered := orderMoves l in
          bestMove <- mediumLoop game isWhite ordered (worst isWhite) None ;;
          match bestMove with
          | Some mv => ret (Normal (Some (toAIMove mv)))
          | None => ret (Normal (Some (toAIMove fallback)))
          end
      | hard =>
          now <- Date_now env ;;
          let limit :=
            if (timeLimitMs settings =? 0)%Z then 300%Z
            else timeLimitMs settings in
          let deadline := (now + limit)%Z in
          let isRootWhite := Color_eqb (turn game) White in
          let orderedMoves := orderMoves l in
          selectedMove <-
            deepen deadline game isRootWhite orderedMoves
              (seq 1 (Z.to_nat (depth settings))) None ;;
          ret (Normal (option_map toAIMove selectedMove))
      end
  end.
End ChessAI.

(** ** Reference definitions, in the words of the specification *)

(** The positional lookup as the specification words it: the table is read
    at the row of the board for a White piece and at the mirrored row for a
    Black piece. *)
Definition positionalValue (piece : Piece) (rank file : nat) : Q :=
  let table := getPositionTable (ptype piece) in
  match pcolor piece with
  | White => index2 table rank file
  | Black => index2 table (7 - rank) file
  end.

Definition isCapture (m : Move) : bool := truthy (captured m).

(** Captures first, both groups in their original order. *)
Definition capturesThenQuiets (l : list Move) : list Move :=
  filter isCapture l ++ filter (fun m => negb (isCapture m)) l.

(** The colour-mirrored counterpart of a board: ranks mirrored, sides
    swapped. *)
Definition swapSide (piece : Piece) : Piece :=
  mkPiece (ptype piece) (opposite (pcolor piece)).

Definition mirrorBoard (brd : Board) : Board :=
  rev (map (map (option_map swapSide)) brd).

(** The selection after one depth: the best move of the depth if it found
    one, the earlier selection otherwise. *)
Definition keep (best selected : option Move) : option Move :=
  match best with Some mv => Some mv | None => selected end.

Section Reference.
Context {Chess : Type} {engine : RulesEngine Chess}.

(** The counterpart of a position has the mirrored board and the other
    side to move and, the rules of chess not telling the colours apart, is
    mate or drawn exactly when the position is. *)
Definition colorMirrored (g g' : Chess) : Prop :=
  turn g' = opposite (turn g)
  /\ board g' = mirrorBoard (board g)
  /\ isCheckmate g' = isCheckmate g
  /\ isDraw g' = isDraw g.

(** The evaluator without noise, as a function of the position alone. *)
Definition staticScore (game : Chess) : Q :=
  if isCheckmate game then
    match turn game with White => -1000 | Black => 1000 end
  else if isDraw game then 0
  else boardScore (board game).

(** Full minimax: every child of every node is explored, no window, no
    clock. *)
Fixpoint fullMinimax (depth : nat) (game : Chess) (isMaximizing : bool)
    : number :=
  match depth with
  | O => Num (staticScore game)
  | S depth' =>
      if isGameOver game then Num (staticScore game)
      else
        let l := capturesThenQuiets (moves game) in
        if isMaximizing then
          fold_left
            (fun acc mv => Math_max acc (fullMinimax depth' (move game mv) false))
            l NegInfinity
        else
          fold_left
            (fun acc mv => Math_min acc (fullMinimax depth' (move game mv) true))
            l Infinity
  end.

(** The first strictly better root move at one depth, under full
    minimax. *)
Fixpoint fullBest (depth : nat) (game : Chess) (isRootWhite : bool)
    (l : list Move) (bestScore : number) (bestMove : option Move)
    : option Move :=
  match l with
  | [] => bestMove
  | mv :: rest =>
      let newGame := move game mv in
      let score :=
        fullMinimax (depth - 1) newGame (Color_eqb (turn newGame) White) in
      if better isRootWhite score bestScore
      then fullBest depth game isRootWhite rest score (Some mv)
      else fullBest depth game isRootWhite rest bestScore bestMove
  end.

Definition fullBestAtDepth (depth : nat) (game : Chess) : option Move :=
  let isRootWhite := Color_eqb (turn game) White in
  fullBest depth game isRootWhite (capturesThenQuiets (moves game))
    (worst isRootWhite) None.

(** The choice of full minimax iterated over the depths 1 .. [maxDepth]:
    the deepest depth that yields a move decides. *)
Definition fullSelect (maxDepth : nat) (game : Chess) : option Move :=
  fold_left (fun selected depth => keep (fullBestAtDepth depth game) selected)
    (seq 1 maxDepth) None.

Definition matesInOne (game : Chess) (mv : Move) : Prop :=
  In mv (moves game) /\ isCheckmate (move game mv) = true.
End Reference.

(** The deadline is never reached: every reading of the clock is within
    the budget counted from the reading [getBestMove] starts with. *)
Definition limitOf (settings : AISettings) : Z :=
  if (timeLimitMs settings =? 0)%Z then 300%Z else timeLimitMs settings.

Definition noTimePressure (env : Environment) (settings : AISettings)
    (s : World) : Prop :=
  forall k, (clock env k <= clock env (clockReads s) + limitOf settings)%Z.

(** [Math.random()] gives a double in [0, 1). *)
Definition randomInRange (env : Environment) : Prop :=
  forall k,
    0 <= random env k /\ random env k < 1 /\ isDouble (random env k).

(** ** Boards of legal positions: one king a side *)

Definition isKingOf (c : Color) (sq : option Piece) : bool :=
  match sq with
  | Some (mkPiece King c') => Color_eqb c c'
  | _ => false
  end.

Definition squaresOf (brd : Board) : list (option Piece) :=
  flat_map (fun rank => map (squareAt brd rank) (seq 0 8)) (seq 0 8).

Definition countKings (c : Color) (brd : Board) : nat :=
  List.length (filter (isKingOf c) (squaresOf brd)).

Definition oneKingEach (brd : Board) : bool :=
  Nat.eqb (countKings White brd) 1 && Nat.eqb (countKings Black brd) 1.

(** What the AI relies on from the rules engine, on the positions [legal]
    that a game can reach. *)
Record EngineLaws {Chess : Type} {engine : RulesEngine Chess}
    (legal : Chess -> Prop) : Prop := {
  legal_move : forall g m, legal g -> In m (moves g) -> legal (move g m);
  turn_move : forall g m, legal g -> In m (moves g) ->
      turn (move g m) = opposite (turn g);
  gameOver_iff : forall g, legal g ->
      isGameOver g = isCheckmate g || isDraw g;
  live_moves : forall g, legal g -> isGameOver g = false -> moves g <> [];
  legal_kings : forall g, legal g -> oneKingEach (board g) = true
}.

(** ** A rules engine given by an explicit game tree

    A finite instance of the interface, used to run the AI on concrete
    positions. *)

#[local] Unset Elimination Schemes.
Inductive Tree :=
  Node (side : Color) (mate draw : bool) (brd : Board)
       (replies : list (Move * Tree)).
#[local] Set Elimination Schemes.

Definition PieceSymbol_eqb (x y : PieceSymbol) : bool :=
  match x, y with
  | Pawn, Pawn | Knight, Knight | Bishop, Bishop
  | Rook, Rook | Queen, Queen | King, King => true
  | _, _ => false
  end.

Definition promotion_eqb (x y : option PieceSymbol) : bool :=
  match x, y with
  | None, None => true
  | Some a, Some c => PieceSymbol_eqb a c
  | _, _ => false
  end.

Definition Move_eqb (m m' : Move) : bool :=
  String.eqb (from m) (from m') && String.eqb (to m) (to m')
  && promotion_eqb (captured m) (captured m')
  && promotion_eqb (promotion m) (promotion m').

Definition treeSide (t : Tree) : Color :=
  match t with Node c _ _ _ _ => c end.
Definition treeMate (t : Tree) : bool :=
  match t with Node _ x _ _ _ => x end.
Definition treeDraw (t : Tree) : bool :=
  match t with Node _ _ x _ _ => x end.
Definition treeBoard (t : Tree) : Board :=
  match t with Node _ _ _ x _ => x end.
Definition treeReplies (t : Tree) : list (Move * Tree) :=
  match t with Node _ _ _ _ x => x end.

Definition treeMove (t : Tree) (m : Move) : Tree :=
  match find (fun p => Move_eqb m (fst p)) (treeReplies t) with
  | Some p => snd p
  | None => t
  end.

#[export] Instance treeEngine : RulesEngine Tree := {|
  moves t := map fst (treeReplies t);
  move := treeMove;
  turn := treeSide;
  isCheckmate := treeMate;
  isDraw := treeDraw;
  isGameOver t := treeMate t || treeDraw t;
  board := treeBoard
|}.

(** Well-formed trees: sides alternate, a position that is not over has a
    move, and every board has one king a side. *)
Fixpoint wfTree (t : Tree) : bool :=
  match t with
  | Node c mt dr brd rs =>
      (mt || dr || negb (Nat.eqb (List.length rs) 0))
      && oneKingEach brd
      && forallb
           (fun p => Color_eqb (treeSide (snd p)) (opposite c) && wfTree (snd p))
           rs
  end.

Definition legalTree (t : Tree) : Prop := wfTree t = true.

(** Boards are written by placing pieces on the empty board. *)
Definition emptyBoard : Board := repeat (repeat None 8) 8.

Fixpoint setNth {A} (i : nat) (x : A) (l : list A) : list A :=
  match l, i with
  | [], _ => []
  | _ :: t, O => x :: t
  | h :: t, S i' => h :: setNth i' x t
  end.

Definition place (rank file : nat) (piece : Piece) (brd : Board) : Board :=
  setNth rank (setNth file (Some piece) (nth rank brd [])) brd.

(** ** Concrete positions

    White: Kg6, Qb1.  Black: Kh8, pawns a2 and c7.  White to move mates at
    once with Qb8; the capture Qxa2 instead leaves Black only c6 or c5, and
    Qa8 mates after either.  The tree lists every move of Black and, of
    White's moves, the mate in one, the capture and the mates that follow
    it.  Rows are those of [board()]: row 0 is the eighth rank, file 0 is
    the a-file. *)

Definition wK := mkPiece King White.
Definition wQ := mkPiece Queen White.
Definition bK := mkPiece King Black.
Definition bP := mkPiece Pawn Black.

Definition kingsOnly : Board := place 2 6 wK (place 0 7 bK emptyBoard).

Definition boardStart : Board :=
  place 7 1 wQ (place 6 0 bP (place 1 2 bP kingsOnly)).
Definition boardQb8 : Board :=
  place 0 1 wQ (place 6 0 bP (place 1 2 bP kingsOnly)).
Definition boardQxa2 : Board :=
  place 6 0 wQ (place 1 2 bP kingsOnly).
Definition boardC6 : Board := place 6 0 wQ (place 2 2 bP kingsOnly).
Definition boardC5 : Board := place 6 0 wQ (place 3 2 bP kingsOnly).
Definition boardC6Qa8 : Board := place 0 0 wQ (place 2 2 bP kingsOnly).
Definition boardC5Qa8 : Board := place 0 0 wQ (place 3 2 bP kingsOnly).

Definition quiet (f t : String.string) : Move := mkMove f t None None.
Definition capture (f t : String.string) (x : PieceSymbol) : Move :=
  mkMove f t (Some x) None.

Definition Qb8 : Move := quiet "b1"%string "b8"%string.
Definition Qxa2 : Move := capture "b1"%string "a2"%string Pawn.
Definition Qa8 : Move := quiet "a2"%string "a8"%string.

Definition matedByQb8 : Tree := Node Black true false boardQb8 [].
Definition afterC6 : Tree :=
  Node White false false boardC6
    [ (Qa8, Node Black true false boardC6Qa8 []) ].
Definition afterC5 : Tree :=
  Node White false false boardC5
    [ (Qa8, Node Black true false boardC5Qa8 []) ].
Definition afterQxa2 : Tree :=
  Node Black false false boardQxa2
    [ (quiet "c7"%string "c6"%string, afterC6); (quiet "c7"%string "c5"%string, afterC5) ].

Definition mateInOne : Tree :=
  Node White false false boardStart
    [ (Qb8, matedByQb8); (Qxa2, afterQxa2) ].

(** A stalemate: the queen on f7 leaves the Black king no square.  The
    position mated by Qb8 with the colours exchanged: White is mated. *)
Definition stalemate : Tree :=
  Node Black false true (place 1 5 wQ kingsOnly) [].
Definition whiteMated : Tree :=
  Node White true false (mirrorBoard boardQb8) [].

(** The settings of [createChessAI]. *)
Definition createChessAI (d : Difficulty) : AISettings :=
  match d with
  | easy => mkSettings 2 easy 400
  | medium => mkSettings 3 medium 800
  | hard => mkSettings 4 hard 1500
  end.

(** A clock that stands still, a clock that jumps two seconds after its
    first reading, and a random source that always draws one quarter. *)
Definition frozenClock : nat -> Z := fun _ => 0%Z.
Definition jumpingClock : nat -> Z :=
  fun k => match k with O => 0%Z | S _ => 2000%Z end.
Definition calmEnv : Environment := mkEnv frozenClock (fun _ => 0.25).
Definition lateEnv : Environment := mkEnv jumpingClock (fun _ => 0.25).
Definition world0 : World := mkWorld 0 0.

(** ** The board sum, square by square *)

(** What one square adds to the score. *)
Definition squareTerm (brd : Board) (rank file : nat) : Q :=
  match squareAt brd rank file with
  | None => 0
  | Some piece =>
      let totalValue :=
        PIECE_VALUES (ptype piece) + getPositionValue piece rank file in
      match pcolor piece with
      | White => totalValue
      | Black => - totalValue
      end
  end.

Fixpoint sumQ (l : list Q) : Q :=
  match l with
  | [] => 0
  | x :: xs => x + sumQ xs
  end.

Definition rankTerm (brd : Board) (rank : nat) : Q :=
  sumQ (map (squareTerm brd rank) (seq 0 8)).

(** ** Computations that leave the random source alone

    Two computations are related when, started from worlds with the same
    number of clock reads, they give the same value, read the clock equally
    often and draw no random number. *)

Definition randomFree {A} (c1 c2 : M A) : Prop :=
  forall s1 s2, clockReads s1 = clockReads s2 ->
    fst (c1 s1) = fst (c2 s2)
    /\ clockReads (snd (c1 s1)) = clockReads (snd (c2 s2))
    /\ randomDraws (snd (c1 s1)) = randomDraws s1
    /\ randomDraws (snd (c2 s2)) = randomDraws s2.

Definition tick (s : World) : World :=
  mkWorld (S (clockReads s)) (randomDraws s).

(** A loop returns the move it was entered with or one of its list. *)
Definition fromList (l : list Move) (entered r : option Move) : Prop :=
  r = entered \/ exists m, In m l /\ r = Some m.

(** ** Order on numbers, as propositions *)

Definition nlt (a c : number) : Prop := num_lt a c = true.
Definition nle (a c : number) : Prop := num_le a c = true.

(** What a search with window ([alpha], [beta]) promises about its result
    [v] when the full minimax value is [t]: exact inside the window, on the
    same side of the window outside it. *)
Definition within (alpha beta t v : number) : Prop :=
  (nle t alpha -> nle v alpha)
  /\ (nle beta t -> nle beta v)
  /\ (nlt alpha t -> nlt t beta -> num_eq v t).

(** ** Scored moves and bounds, for the mate-in-one argument *)
(** A clock that passes the deadline at its eleventh reading, when the
    search at depth 2 has scored its first root move. *)
Definition hurriedClock : nat -> Z :=
  fun k => if (k <? 10)%nat then 0%Z else 2000%Z.
Definition hurriedEnv : Environment := mkEnv hurriedClock (fun _ => 0.25).

(** The 64 squares the evaluator visits, in its order. *)
Definition cells : list (nat * nat) :=
  flat_map (fun rank => map (pair rank) (seq 0 8)) (seq 0 8).

(** What a piece adds to the score on a square. *)
Definition pieceTerm (piece : Piece) (rank file : nat) : Q :=
  let totalValue :=
    PIECE_VALUES (ptype piece) + getPositionValue piece rank file in
  match pcolor piece with
  | White => totalValue
  | Black => - totalValue
  end.

(** The share of the king's material value in a square's term. *)
Definition kingShare (sq : option Piece) : Q :=
  match sq with
  | Some (mkPiece King White) => 100
  | Some (mkPiece King Black) => -100
  | _ => 0
  end.

Definition allPieces : list Piece :=
  flat_map (fun t => [mkPiece t White; mkPiece t Black])
    [Pawn; Knight; Bishop; Rook; Queen; King].

(** Apart from the king's material, a piece weighs at most 9.5 anywhere. *)
Definition cellOk (piece : Piece) (cell : nat * nat) : bool :=
  let x := pieceTerm piece (fst cell) (snd cell) - kingShare (Some piece) in
  Qle_bool (-9.5) x && Qle_bool x 9.5.

(** A multiple of one half, and the test of it on a fraction. *)
Definition halfInteger (q : Q) : Prop :=
  exists z : Z, q == inject_Z z * (1 # 2).

Definition isHalf (q : Q) : bool :=
  ((2 * Qnum q) mod Z.pos (Qden q) =? 0)%Z.

Definition cellHalf (piece : Piece) (cell : nat * nat) : bool :=
  isHalf (pieceTerm piece (fst cell) (snd cell)).

(** [Math.random()] at its largest. *)
Definition edgeEnv : Environment := mkEnv frozenClock (fun _ => belowOne).

(** The score of a mate in favour of the side at the root. *)
Definition mateScore (isWhite : bool) : Q := if isWhite then 1000 else -1000.

(** Strictly worse than a mate for the side at the root. *)
Definition worse (isWhite : bool) (x : number) : Prop :=
  if isWhite then nlt x (Num 1000) else nlt (Num (-1000)) x.

(** The best-move loops over moves that are already scored. *)
Fixpoint scan (isWhite : bool) (l : list (Move * number))
    (bestScore : number) (bestMove : option Move) : option Move :=
  match l with
  | [] => bestMove
  | (mv, score) :: rest =>
      if better isWhite score bestScore
      then scan isWhite rest score (Some mv)
      else scan isWhite rest bestScore bestMove
  end.

Section Scores.
Context {Chess : Type} {engine : RulesEngine Chess}.

(** The moves of the medium loop with the scores the evaluator gives them,
    the world threaded from one evaluation to the next. *)
Fixpoint mediumScores (env : Environment) (settings : AISettings)
    (game : Chess) (l : list Move) (s : World) : list (Move * number) :=
  match l with
  | [] => []
  | mv :: rest =>
      let r := evaluatePosition env settings (move game mv) s in
      (mv, Num (fst r)) :: mediumScores env settings game rest (snd r)
  end.

(** The root moves with their full minimax scores at one depth. *)
Definition fullScores (depth : nat) (game : Chess) (l : list Move)
    : list (Move * number) :=
  map (fun mv =>
         (mv, fullMinimax (depth - 1) (move game mv)
                (Color_eqb (turn (move game mv)) White)))
      l.

(** A scored root move is consistent with mate scoring: a mating move
    scores the mate, any other move scores strictly worse. *)
Definition scoredOk (game : Chess) (p : Move * number) : Prop :=
  let isWhite := Color_eqb (turn game) White in
  In (fst p) (moves game)
  /\ (isCheckmate (move game (fst p)) = true ->
      num_eq (snd p) (Num (mateScore isWhite)))
  /\ (isCheckmate (move game (fst p)) = false -> worse isWhite (snd p)).
End Scores.

(** ** Computations that leave the clock alone

    The counterpart of [randomFree]: started from worlds with the same
    number of random draws, the two computations give the same value, draw
    equally often and never read the clock. *)
Definition clockFree {A} (c1 c2 : M A) : Prop :=
  forall s1 s2, randomDraws s1 = randomDraws s2 ->
    fst (c1 s1) = fst (c2 s2)
    /\ randomDraws (snd (c1 s1)) = randomDraws (snd (c2 s2))
    /\ clockReads (snd (c1 s1)) = clockReads s1
    /\ clockReads (snd (c2 s2)) = clockReads s2.

(** A finite score between the two mate scores, these included. *)
Definition mateBounded (v : number) : Prop :=
  exists x, v = Num x /\ -1000 <= x /\ x <= 1000.

(** The best score the loop over scored moves ends with. *)
Fixpoint scanScore (isWhite : bool) (l : list (Move * number))
    (bestScore : number) : number :=
  match l with
  | [] => bestScore
  | (mv, score) :: rest =>
      if better isWhite score bestScore
      then scanScore isWhite rest score
      else scanScore isWhite rest bestScore
  end.

Section Counting.
Context {Chess : Type} {engine : RulesEngine Chess}.

(** The full minimax score of a root move at one depth. *)
Definition rootScore (depth : nat) (game : Chess) (mv : Move) : number :=
  fullMinimax (depth - 1) (move game mv)
    (Color_eqb (turn (move game mv)) White).

(** The number of nodes of the tree that full minimax walks. *)
Fixpoint fullNodes (depth : nat) (game : Chess) : nat :=
  match depth with
  | O => 1
  | S depth' =>
      if isGameOver game then 1
      else S (list_sum (map (fun mv => fullNodes depth' (move game mv))
                          (capturesThenQuiets (moves game))))
  end.
End Counting.

(** ** The board component

    [ChessBoard] of the same source file: the names of the squares, the
    taps of the user and the selection they drive.  A tap lands at a point
    of the board given in rationals; the indices of files and of [board()]
    rows are integers. *)

Definition FILES : list string :=
  ["a"; "b"; "c"; "d"; "e"; "f"; "g"; "h"]%string.

(** [l[i]] for an integer [i]; [None] stands for [undefined]. *)
Definition atIndex {A} (l : list A) (i : Z) : option A :=
  if (i <? 0)%Z then None else nth_error l (Z.to_nat i).

(** The decimal text of an integer, as a template literal writes it. *)
Definition numberText (z : Z) : string :=
  NilZero.string_of_int (Z.to_int z).

Definition toSquare (fileIndex rankIndexFromTop : Z) : string :=
  let file :=
    match atIndex FILES fileIndex with
    | Some f => f
    | None => "undefined"%string
    end in
  let rank := (8 - rankIndexFromTop)%Z in
  String.append file (numberText rank).

(** [sq[i]], a string of one character, or [undefined]. *)
Definition charAt (sq : string) (i : nat) : option string :=
  match String.get i sq with
  | Some c => Some (String c EmptyString)
  | None => None
  end.

(** [l.indexOf(x)] with strict equality; -1 when absent. *)
Fixpoint indexOfFrom (l : list string) (x : option string) (i : Z) : Z :=
  match l with
  | [] => (-1)%Z
  | y :: ys =>
      match x with
      | Some x' => if String.eqb y x' then i else indexOfFrom ys x (i + 1)%Z
      | None => indexOfFrom ys x (i + 1)%Z
      end
  end.

Definition indexOf (l : list string) (x : option string) : Z :=
  indexOfFrom l x 0.

Definition isWhiteSpace (c : ascii) : bool :=
  let n := nat_of_ascii c in
  ((9 <=? n) && (n <=? 13) || (n =? 32))%nat.

(** [Number(x)] for [x] a string of one character or [undefined]: a digit
    is its value, white space is 0, anything else is NaN ([None]). *)
Definition NumberOfChar (x : option string) : option Z :=
  match x with
  | Some (String c EmptyString) =>
      let n := nat_of_ascii c in
      if ((48 <=? n) && (n <=? 57))%nat then Some (Z.of_nat (n - 48))
      else if isWhiteSpace c then Some 0%Z
      else None
  | _ => None
  end.

(** The indices the legal-move dots are drawn at. *)
Definition fileIndexOf (sq : string) : Z := indexOf FILES (charAt sq 0).

Definition rankIndexFromTopOf (sq : string) : option Z :=
  option_map (fun n => (8 - n)%Z) (NumberOfChar (charAt sq 1)).

(** [(fileIndex + rankIndexFromTop) % 2 === 1] *)
Definition isDark (fileIndex rankIndexFromTop : Z) : bool :=
  (Z.rem (fileIndex + rankIndexFromTop) 2 =? 1)%Z.

(** What the board asks of chess.js beyond [RulesEngine]: the piece on a
    square and the verbose moves from a square. *)
Class SquareEngine (Chess : Type) := {
  get : Chess -> string -> option Piece;
  movesFrom : Chess -> string -> list Move
}.

Inductive Sound := MoveSound | CaptureSound.

(** The state of the component. *)
Record Selection := mkSelection {
  selectedSquare : option string;
  legalTargets : list string
}.

(** What a tap does: the new state, the move handed to [onMove] if any,
    and the sound played if any. *)
Record TapOutcome := mkTap {
  selection : Selection;
  attempted : option (string * string);
  played : option Sound
}.

Definition noSelection : Selection := mkSelection None [].

(** [!selectedSquare]: [null] and the empty string are falsy. *)
Definition falsy (x : option string) : bool :=
  match x with
  | None => true
  | Some s => String.eqb s ""
  end.

Definition includes (l : list string) (x : string) : bool :=
  existsb (String.eqb x) l.

Section ChessBoard.
Context {Chess : Type} {engine : RulesEngine Chess}
        {squares : SquareEngine Chess}.
(** The props: the game of [fen], the size, whose turn it is and who the
    player is, and the callback of the screen. *)
Variable game : Chess.
Variable size : Q.
Variable isPlayerTurn : bool.
Variable playerColor : option Color.
Variable onMove : string -> string -> bool.

Definition squareSize : Q := size / 8.

Definition computeLegalTargets (square : string) : list string :=
  match get game square with
  | None => []
  | Some piece =>
      if negb (Color_eqb (pcolor piece) (turn game)) then []
      else if negb isPlayerTurn then []
      else
        match playerColor with
        | Some c =>
            if negb (Color_eqb (pcolor piece) c) then []
            else map to (movesFrom game square)
        | None => map to (movesFrom game square)
        end
  end.

Definition tryUserMove (from to : string) : TapOutcome :=
  let pieceAtTarget := get game to in
  let didMove := onMove from to in
  mkTap noSelection (Some (from, to))
    (if didMove then
       match pieceAtTarget with
       | Some _ => Some CaptureSound
       | None => Some MoveSound
       end
     else None).

(** Select the tapped square if a move starts there, clear the selection
    otherwise. *)
Definition selectOrClear (tappedSquare : string) : TapOutcome :=
  let targets := computeLegalTargets tappedSquare in
  if (0 <? length targets)%nat
  then mkTap (mkSelection (Some tappedSquare) targets) None None
  else mkTap noSelection None None.

Definition handleTapAt (st : Selection) (fileIndex rankIndexFromTop : Z)
    : TapOutcome :=
  if ((fileIndex <? 0) || (7 <? fileIndex)
      || (rankIndexFromTop <? 0) || (7 <? rankIndexFromTop))%Z
  then mkTap st None None
  else
    let tappedSquare := toSquare fileIndex rankIndexFromTop in
    if falsy (selectedSquare st) then selectOrClear tappedSquare
    else
      match selectedSquare st with
      | None => selectOrClear tappedSquare
      | Some selected =>
          if String.eqb tappedSquare selected
          then mkTap noSelection None None
          else if includes (legalTargets st) tappedSquare
          then tryUserMove selected tappedSquare
          else selectOrClear tappedSquare
      end.

(** [squareSize] is positive wherever the board is drawn; the division is
    the one of the rationals. *)
Definition handleTap (st : Selection) (x y : Q) : TapOutcome :=
  let fileIndex := Qfloor (x / squareSize) in
  let rankIndexFromTop := Qfloor (y / squareSize) in
  handleTapAt st fileIndex rankIndexFromTop.

(** The state the component keeps between taps on one position: a
    selected square is a real square name, and the targets shown are the
    moves of the piece on it. *)
Definition selectionOk (st : Selection) : Prop :=
  match selectedSquare st with
  | None => legalTargets st = []
  | Some sq =>
      sq <> ""%string
      /\ legalTargets st <> []
      /\ legalTargets st = computeLegalTargets sq
  end.
End ChessBoard.

(** ** The game screen

    [ChessScreen] of the same source file: the handlers that change the
    game and the flag [isAITurn], the move taken when the engine does not
    answer in time, and the reading of the engine's answer. *)

Inductive GameMode := HumanVsAI | HumanVsHuman.

Record Screen (Chess : Type) := mkScreen {
  screenGame : Chess;
  isAITurn : bool
}.

(** What [new Chess(fen).move({from, to, promotion})] comes to: the
    position after the move, a falsy result, or an exception, as the
    version of chess.js has it. *)
Inductive Attempt (Chess : Type) :=
  | Moved (next : Chess)
  | Refused
  | Thrown.
Arguments Refused {Chess}.
Arguments Thrown {Chess}.

Class MoveEntry (Chess : Type) := {
  newChess : Chess;
  tryMove : Chess -> string -> string -> string -> Attempt Chess
}.

(** The value a handler returns ([None] when it ends by an exception) and
    the state after it. *)
Record Handled (Chess : Type) := mkHandled {
  returned : option bool;
  after : Screen Chess
}.

Definition GameMode_eqb (m n : GameMode) : bool :=
  match m, n with
  | HumanVsAI, HumanVsAI | HumanVsHuman, HumanVsHuman => true
  | _, _ => false
  end.

Definition symbolText (t : PieceSymbol) : string :=
  match t with
  | Pawn => "p" | Knight => "n" | Bishop => "b"
  | Rook => "r" | Queen => "q" | King => "k"
  end%string.

Section ChessScreen.
Context {Chess : Type} {engine : RulesEngine Chess}
        {entry : MoveEntry Chess}.
Variable gameMode : GameMode.

Definition onMove (st : Screen Chess) (from to : string) : Handled Chess :=
  if GameMode_eqb gameMode HumanVsAI && isAITurn st
  then mkHandled (Some false) st
  else
    match tryMove (screenGame st) from to "q" with
    | Moved next =>
        let st' :=
          if GameMode_eqb gameMode HumanVsAI
             && Color_eqb (turn next) Black && negb (isGameOver next)
          then mkScreen next true
          else mkScreen next (isAITurn st) in
        mkHandled (Some true) st'
    | Refused => mkHandled (Some false) st
    | Thrown => mkHandled None st
    end.

(** The effect that starts the AI when the game shows Black to move. *)
Definition checkAITurn (st : Screen Chess) : Screen Chess :=
  if GameMode_eqb gameMode HumanVsAI
     && Color_eqb (turn (screenGame st)) Black
     && negb (isAITurn st) && negb (isGameOver (screenGame st))
  then mkScreen (screenGame st) true
  else st.

Definition resetGame : Screen Chess := mkScreen newChess false.

(** The move of the engine, and of the watchdog, put on the board. *)
Definition applyEngineMove (st : Screen Chess) (from to promotion : string)
    : Screen Chess :=
  match tryMove (screenGame st) from to promotion with
  | Moved next => mkScreen next false
  | Refused | Thrown => st
  end.

(** [makeAIMove] when starting the search throws. *)
Definition searchFailed (st : Screen Chess) : Screen Chess :=
  mkScreen (screenGame st) false.

(** While the AI is on, Black is to move in a game that is not over; in a
    game between two humans the AI is never on. *)
Definition screenOk (st : Screen Chess) : Prop :=
  (gameMode = HumanVsHuman -> isAITurn st = false)
  /\ (isAITurn st = true ->
      turn (screenGame st) = Black /\ isGameOver (screenGame st) = false).
End ChessScreen.

(** [captures[0] || legal[0]] of the watchdog. *)
Definition fallbackPick (legal : list Move) : option Move :=
  let captures := filter (fun m => truthy (captured m)) legal in
  match captures with
  | c :: _ => Some c
  | [] => hd_error legal
  end.

(** The move the watchdog hands to chess.js. *)
Definition fallbackMove (legal : list Move)
    : option (string * string * string) :=
  match fallbackPick legal with
  | Some pick =>
      Some (from pick, to pick,
            match promotion pick with
            | Some t => symbolText t
            | None => "q"%string
            end)
  | None => None
  end.

(** [data.split(/\s+/)] on text in ASCII: the pieces between the runs of
    white space, an empty piece before a leading run and after a trailing
    one. *)
Fixpoint splitWhiteSpace (data : string) (inGap : bool) : list string :=
  match data with
  | EmptyString => [EmptyString]
  | String c rest =>
      if isWhiteSpace c then
        if inGap then splitWhiteSpace rest true
        else EmptyString :: splitWhiteSpace rest true
      else
        match splitWhiteSpace rest false with
        | piece :: pieces => String c piece :: pieces
        | [] => [String c EmptyString]
        end
  end.

(** The reading of a line of the engine in [onMessage]: [from], [to] and
    the promotion handed to chess.js, when the line starts with
    [bestmove] and its second word has four characters or more. *)
Definition parseBestMove (data : string)
    : option (string * string * string) :=
  if String.prefix "bestmove" data then
    let parts := splitWhiteSpace data false in
    let moveStr := nth 1 parts EmptyString in
    if (4 <=? String.length moveStr)%nat then
      let from := String.substring 0 2 moveStr in
      let to := String.substring 2 2 moveStr in
      let promo :=
        if (4 <? String.length moveStr)%nat
        then String.substring 4 1 moveStr
        else "q"%string in
      Some (from, to, promo)
    else None
  else None.

(** Text in ASCII, and text without white space. *)
Fixpoint isAscii (s : string) : bool :=
  match s with
  | EmptyString => true
  | String c rest => (nat_of_ascii c <? 128)%nat && isAscii rest
  end.

Fixpoint noWhiteSpace (s : string) : bool :=
  match s with
  | EmptyString => true
  | String c rest => negb (isWhiteSpace c) && noWhiteSpace rest
  end.

(** Nothing follows the word, or white space does. *)
Definition endsWord (rest : string) : bool :=
  match rest with
  | EmptyString => true
  | String c _ => isWhiteSpace c
  end.

(** ** Sounds

    [soundUtils]: the two sounds and the flag the module keeps, and the
    calls it makes to expo-av.  A call to expo-av is fulfilled or rejected,
    as [rejects] says of the calls in the order they are made; a sound is
    named by the number of the call that created it.  Each function is run
    to its end before the next one starts, and what it logs is left
    out. *)

Inductive SoundFile := MoveSelfMp3 | CaptureMp3.

Inductive AudioCall :=
  | setAudioModeAsync
  | createAsync (file : SoundFile)
  | setPositionAsync (sound : nat)
  | playAsync (sound : nat)
  | unloadAsync (sound : nat).

Record Audio := mkAudio {
  moveSound : option nat;
  captureSound : option nat;
  audioInitialized : bool;
  trace : list AudioCall
}.

Definition noAudio : Audio := mkAudio None None false [].

(** An asynchronous computation run to its end: fulfilled with a value or
    rejected. *)
Definition Async (A : Type) : Type := Audio -> option A * Audio.

Definition fulfil {A} (a : A) : Async A := fun st => (Some a, st).

Definition await {A B} (c : Async A) (k : A -> Async B) : Async B :=
  fun st =>
    match c st with
    | (Some a, st') => k a st'
    | (None, st') => (None, st')
    end.

(** [try { ... } catch (error) { console.log(...) }] *)
Definition catch (c : Async unit) : Async unit :=
  fun st =>
    match c st with
    | (Some a, st') => (Some a, st')
    | (None, st') => (Some tt, st')
    end.

Definition setMoveSound (v : option nat) : Async unit :=
  fun st =>
    (Some tt,
     mkAudio v (captureSound st) (audioInitialized st) (trace st)).

Definition setCaptureSound (v : option nat) : Async unit :=
  fun st =>
    (Some tt, mkAudio (moveSound st) v (audioInitialized st) (trace st)).

Definition setAudioInitialized (v : bool) : Async unit :=
  fun st => (Some tt, mkAudio (moveSound st) (captureSound st) v (trace st)).

Inductive SoundOp := PlayMove | PlayCapture | Cleanup.

Section SoundUtils.
Variable rejects : nat -> bool.

(** A call to expo-av; fulfilled, it gives its own number. *)
Definition expoAv (c : AudioCall) : Async nat :=
  fun st =>
    let n := length (trace st) in
    (if rejects n then None else Some n,
     mkAudio (moveSound st) (captureSound st) (audioInitialized st)
       (trace st ++ [c])).

Definition initializeAudio : Async unit :=
  catch (fun st =>
    if negb (audioInitialized st)
    then await (expoAv setAudioModeAsync)
           (fun _ => setAudioInitialized true) st
    else fulfil tt st).

Definition initializeSounds : Async unit :=
  catch
    (await initializeAudio (fun _ =>
     await (fun st =>
              match moveSound st with
              | None =>
                  await (expoAv (createAsync MoveSelfMp3))
                    (fun sound => setMoveSound (Some sound)) st
              | Some _ => fulfil tt st
              end) (fun _ st =>
     match captureSound st with
     | None =>
         await (expoAv (createAsync CaptureMp3))
           (fun sound => setCaptureSound (Some sound)) st
     | Some _ => fulfil tt st
     end))).

Definition playMoveSound : Async unit :=
  catch
    (await initializeSounds (fun _ st =>
     match moveSound st with
     | Some sound =>
         await (expoAv (setPositionAsync sound))
           (fun _ => await (expoAv (playAsync sound))
                       (fun _ => fulfil tt)) st
     | None => fulfil tt st
     end)).

Definition playCaptureSound : Async unit :=
  catch
    (await initializeSounds (fun _ st =>
     match captureSound st with
     | Some sound =>
         await (expoAv (setPositionAsync sound))
           (fun _ => await (expoAv (playAsync sound))
                       (fun _ => fulfil tt)) st
     | None => fulfil tt st
     end)).

Definition cleanupSounds : Async unit :=
  catch
    (await (fun st =>
              match moveSound st with
              | Some sound =>
                  await (expoAv (unloadAsync sound))
                    (fun _ => setMoveSound None) st
              | None => fulfil tt st
              end) (fun _ st =>
     match captureSound st with
     | Some sound =>
         await (expoAv (unloadAsync sound))
           (fun _ => setCaptureSound None) st
     | None => fulfil tt st
     end)).

Definition runOp (op : SoundOp) (st : Audio) : Audio :=
  match op with
  | PlayMove => snd (playMoveSound st)
  | PlayCapture => snd (playCaptureSound st)
  | Cleanup => snd (cleanupSounds st)
  end.

(** The functions the app calls, one after the other, from the state the
    module is loaded in. *)
Definition runOps (ops : list SoundOp) : Audio :=
  fold_left (fun st op => runOp op st) ops noAudio.

(** A sound comes from a fulfilled [createAsync] of its file, and is gone
    when an [unloadAsync] of it is fulfilled. *)
Definition created (st : Audio) (sound : nat) (file : SoundFile) : Prop :=
  nth_error (trace st) sound = Some (createAsync file)
  /\ rejects sound = false.

Definition unloaded (st : Audio) (sound : nat) : Prop :=
  exists k,
    nth_error (trace st) k = Some (unloadAsync sound) /\ rejects k = false.

(** What holds between the calls of the app. *)
Record audioOk (st : Audio) : Prop := {
  move_live : forall s, moveSound st = Some s ->
    created st s MoveSelfMp3 /\ ~ unloaded st s;
  capture_live : forall s, captureSound st = Some s ->
    created st s CaptureMp3 /\ ~ unloaded st s;
  unload_later : forall k s,
    nth_error (trace st) k = Some (unloadAsync s) -> (s < k)%nat;
  used_live : forall j s,
    nth_error (trace st) j = Some (playAsync s)
    \/ nth_error (trace st) j = Some (setPositionAsync s) ->
    (s < j)%nat
    /\ (exists file, created st s file)
    /\ forall k, nth_error (trace st) k = Some (unloadAsync s) ->
                 rejects k = false -> (j < k)%nat
}.

(** A computation keeps [audioOk]. *)
Definition keeps {A} (c : Async A) : Prop :=
  forall st, audioOk st -> audioOk (snd (c st)).

(** A call that is not a fulfilled unload, on a sound that is live if it
    names one. *)
Definition harmless (st : Audio) (c : AudioCall) : Prop :=
  match c with
  | setAudioModeAsync | createAsync _ => True
  | setPositionAsync s | playAsync s =>
      (exists file, created st s file) /\ ~ unloaded st s
  | unloadAsync s =>
      rejects (length (trace st)) = true /\ (s < length (trace st))%nat
  end.
End SoundUtils.

Definition neverRejects : nat -> bool := fun _ => false.

(** The module after a first sound was played with no call rejected. *)
Definition loadedAudio : Audio :=
  mkAudio (Some 1%nat) (Some 2%nat) true
    [setAudioModeAsync; createAsync MoveSelfMp3; createAsync CaptureMp3].

(** ** The board and the screen on game trees

    [get] reads the board of the position; the moves from a square and the
    move asked for are looked up among the moves of the position, and a
    move that is not among them throws. *)

Definition treeGet (t : Tree) (sq : string) : option Piece :=
  match rankIndexFromTopOf sq with
  | Some r =>
      if ((0 <=? fileIndexOf sq) && (0 <=? r))%Z
      then squareAt (treeBoard t) (Z.to_nat r) (Z.to_nat (fileIndexOf sq))
      else None
  | None => None
  end.

#[export] Instance treeSquares : SquareEngine Tree := {|
  get := treeGet;
  movesFrom t sq := filter (fun m => String.eqb (from m) sq) (moves t)
|}.

Definition treeTry (t : Tree) (source target promo : string)
    : Attempt Tree :=
  match find (fun p => String.eqb (from (fst p)) source
                       && String.eqb (to (fst p)) target)
          (treeReplies t) with
  | Some p => Moved (snd p)
  | None => Thrown
  end.

(** A screen that opens on [mateInOne]. *)
#[export] Instance puzzleEntry : MoveEntry Tree := {|
  newChess := mateInOne;
  tryMove := treeTry
|}.

(** The queen on b1 selected, with its two moves shown. *)
Definition queenSelected : Selection :=
  mkSelection (Some "b1"%string) ["b8"; "a2"]%string.

Definition accept (source target : string) : bool := true.

(** ** The soft deadline, in the words of the specification

    The hard tier described depth by depth.  A round is what one depth of
    the iterative deepening did: the root moves it scored, in order, until
    it found the deadline passed, and the number of readings of the clock
    made when its loop ended.  The selection is the best move of the last
    round that found one. *)

Record Round := mkRound {
  scored : list (Move * number);
  readings : nat
}.

Definition clockReadings : M nat := fun s => (clockReads s, s).

(** The clock kept from passing the deadline. *)
Definition calmed (env : Environment) (deadline : Z) : Environment :=
  mkEnv (fun k => Z.min (clock env k) deadline) (random env).

Section Rounds.
Context {Chess : Type} {engine : RulesEngine Chess}.
Variable env : Environment.
Variable settings : AISettings.

Fixpoint rootScores (depth : nat) (deadline : Z) (game : Chess)
    (l : list Move) : M (list (Move * number)) :=
  match l with
  | [] => ret []
  | mv :: rest =>
      now <- Date_now env ;;
      if (deadline <? now)%Z then ret []
      else
        let newGame := move game mv in
        score <- minimax env settings (depth - 1) deadline newGame
                   (Color_eqb (turn newGame) White) NegInfinity Infinity ;;
        later <- rootScores depth deadline game rest ;;
        ret ((mv, score) :: later)
  end.

Fixpoint searchRounds (deadline : Z) (game : Chess)
    (orderedMoves : list Move) (depths : list nat) : M (list Round) :=
  match depths with
  | [] => ret []
  | depth :: rest =>
      found <- rootScores depth deadline game orderedMoves ;;
      n <- clockReadings ;;
      now <- Date_now env ;;
      if (deadline <? now)%Z then ret [mkRound found n]
      else
        later <- searchRounds deadline game orderedMoves rest ;;
        ret (mkRound found n :: later)
  end.
End Rounds.

(** The best move of a round: the first with a score strictly better than
    those before it; none if the round scored nothing better than the
    sentinel. *)
Definition bestOf (isWhite : bool) (round : Round) : option Move :=
  scan isWhite (scored round) (worst isWhite) None.

Definition selectionOf (isWhite : bool) (rounds : list Round)
    : option Move :=
  fold_left (fun selected round => keep (bestOf isWhite round) selected)
    rounds None.

(** Every reading of the clock from the [lo]-th up to the [hi]-th, this
    one left out, is within the deadline. *)
Definition inTime (env : Environment) (deadline : Z) (lo hi : nat) : Prop :=
  forall i, (lo <= i < hi)%nat -> (clock env i <= deadline)%Z.

(** * Properties *)

(** ** Rounding to doubles *)

#[local] Unset Implicit Arguments.

Lemma pow2_pos (k : Z) : 0 < 2 ^ k.
Proof. apply Qpower_0_lt. reflexivity. Qed.

Lemma pow2_succ (k : Z) : 2 ^ (k + 1) == 2 * 2 ^ k.
Proof. rewrite Qpower_plus by discriminate. change (2 ^ 1) with 2. ring. Qed.

Lemma pow2_pred (k : Z) : 2 ^ (k - 1) == 2 ^ k / 2.
Proof. rewrite Qpower_minus by discriminate. reflexivity. Qed.

Lemma pow2_Z (n : Z) : (0 <= n)%Z -> inject_Z (2 ^ n) == 2 ^ n.
Proof. intros H. now rewrite Zpower_Qpower. Qed.

Lemma pow2_le (n m : Z) : (n <= m)%Z -> 2 ^ n <= 2 ^ m.
Proof. intros H. apply Qpower_le_compat_l; [exact H|discriminate]. Qed.

Lemma pow2_lt_inv (n m : Z) : 2 ^ n < 2 ^ m -> (n < m)%Z.
Proof. intros H. apply (Qpower_lt_compat_l_inv 2); [exact H|reflexivity]. Qed.

Lemma log2_bounds (a : Z) :
  (0 < a)%Z -> 2 ^ Z.log2 a <= inject_Z a /\ inject_Z a < 2 * 2 ^ Z.log2 a.
Proof.
  intros Ha. destruct (Z.log2_spec a Ha) as [Hlo Hhi].
  pose proof (Z.log2_nonneg a) as Hn.
  rewrite <- pow2_Z by exact Hn. split.
  - now rewrite <- Zle_Qle.
  - rewrite Z.pow_succ_r in Hhi by exact Hn.
    change 2 with (inject_Z 2) at 1. rewrite <- inject_Z_mult.
    now rewrite <- Zlt_Qlt.
Qed.

Lemma ilog2_spec (q : Q) :
  0 < q -> 2 ^ ilog2 q <= q /\ q < 2 ^ (ilog2 q + 1).
Proof.
  intros Hq. unfold ilog2.
  destruct q as [a b]. cbn [Qnum Qden].
  assert (Ha : (0 < a)%Z).
  { unfold Qlt in Hq. cbn in Hq. lia. }
  destruct (log2_bounds a Ha) as [Ha1 Ha2].
  destruct (log2_bounds (Z.pos b) eq_refl) as [Hb1 Hb2].
  set (la := Z.log2 a) in *. set (lb := Z.log2 (Z.pos b)) in *.
  pose proof (pow2_pos la) as HA. pose proof (pow2_pos lb) as HB.
  assert (Hk : 2 ^ (la - lb) == 2 ^ la / 2 ^ lb)
    by (apply Qpower_minus; discriminate).
  assert (Hq' : (a # b) * inject_Z (Z.pos b) == inject_Z a).
  { rewrite (Qmake_Qdiv a b). field. discriminate. }
  set (q := a # b) in *. set (A := 2 ^ la) in *. set (B := 2 ^ lb) in *.
  set (x := inject_Z a) in *. set (y := inject_Z (Z.pos b)) in *.
  assert (Hc : 2 ^ (la - lb) * B == A) by (rewrite Hk; field; lra).
  set (c := 2 ^ (la - lb)) in *.
  destruct (Qle_bool c q) eqn:E.
  - apply Qle_bool_iff in E. split; [exact E|].
    rewrite pow2_succ. fold c.
    assert (H1 : q * B < (2 * c) * B) by nra.
    now apply Qmult_lt_r in H1.
  - assert (E' : q < c).
    { apply Qnot_le_lt. intros H. apply Qle_bool_iff in H. congruence. }
    replace (la - lb - 1 + 1)%Z with (la - lb)%Z by lia.
    split; [|exact E'].
    rewrite pow2_pred. fold c.
    assert (H1 : c * B <= (2 * q) * B) by nra.
    apply Qmult_le_r in H1; [|exact HB].
    apply Qle_shift_div_r; [reflexivity|]. lra.
Qed.

Lemma ilog2_unique (q : Q) (k : Z) :
  2 ^ k <= q -> q < 2 ^ (k + 1) -> ilog2 q = k.
Proof.
  intros Hlo Hhi.
  assert (Hq : 0 < q) by (pose proof (pow2_pos k); lra).
  destruct (ilog2_spec q Hq) as [Hlo' Hhi'].
  assert (H1 : (k < ilog2 q + 1)%Z) by (apply pow2_lt_inv; lra).
  assert (H2 : (ilog2 q < k + 1)%Z) by (apply pow2_lt_inv; lra).
  lia.
Qed.

Lemma ilog2_le (x y : Q) : 0 < x -> x <= y -> (ilog2 x <= ilog2 y)%Z.
Proof.
  intros Hx Hxy.
  destruct (ilog2_spec x Hx) as [Hlo _].
  destruct (ilog2_spec y) as [_ Hhi]; [lra|].
  assert (H : (ilog2 x < ilog2 y + 1)%Z) by (apply pow2_lt_inv; lra).
  lia.
Qed.

(** Rounding to an integer *)

Lemma roundEven_cases (q : Q) :
  (roundEven q = Qfloor q /\ q - inject_Z (Qfloor q) <= 1 # 2)
  \/ (roundEven q = (Qfloor q + 1)%Z /\ 1 # 2 <= q - inject_Z (Qfloor q)).
Proof.
  unfold roundEven.
  destruct (Qcompare_spec (q - inject_Z (Qfloor q)) (1 # 2)) as [E|E|E].
  - destruct (Z.even (Qfloor q)); [left|right];
      (split; [reflexivity|lra]).
  - left. split; [reflexivity|lra].
  - right. split; [reflexivity|lra].
Qed.

Lemma roundEven_error (q : Q) :
  - (1 # 2) <= inject_Z (roundEven q) - q <= 1 # 2.
Proof.
  pose proof (Qfloor_le q) as Hlo. pose proof (Qlt_floor q) as Hhi.
  rewrite inject_Z_plus in Hhi. change (inject_Z 1) with 1 in Hhi.
  destruct (roundEven_cases q) as [[-> H]|[-> H]].
  - lra.
  - rewrite inject_Z_plus. change (inject_Z 1) with 1. lra.
Qed.

Lemma roundEven_le (x y : Q) : x <= y -> (roundEven x <= roundEven y)%Z.
Proof.
  intros Hxy. pose proof (Qfloor_resp_le _ _ Hxy) as Hf.
  destruct (Z.eq_dec (Qfloor x) (Qfloor y)) as [Heq|Hne].
  - unfold roundEven. rewrite <- Heq.
    destruct (Qcompare_spec (x - inject_Z (Qfloor x)) (1 # 2)) as [Ex|Ex|Ex];
      destruct (Qcompare_spec (y - inject_Z (Qfloor x)) (1 # 2))
        as [Ey|Ey|Ey];
      try (exfalso; lra); destruct (Z.even (Qfloor x)); lia.
  - destruct (roundEven_cases x) as [[-> _]|[-> _]];
      destruct (roundEven_cases y) as [[-> _]|[-> _]]; lia.
Qed.

Lemma roundEven_Z (z : Z) : roundEven (inject_Z z) = z.
Proof.
  unfold roundEven. rewrite Qfloor_Z.
  assert (H : inject_Z z - inject_Z z == 0) by ring.
  destruct (Qcompare_spec (inject_Z z - inject_Z z) (1 # 2)) as [E|E|E];
    [|reflexivity|]; rewrite H in E; discriminate E.
Qed.

(** Rounding to a double *)

Lemma Qdiv_le (a b c : Q) : 0 < c -> a <= b -> a / c <= b / c.
Proof.
  intros Hc Hab. unfold Qdiv. apply Qmult_le_compat_r; [exact Hab|].
  apply Qinv_le_0_compat. lra.
Qed.

Lemma Qdiv_mult (a c : Q) : 0 < c -> a / c * c == a.
Proof. intros Hc. field. lra. Qed.

Lemma ulpExp_cases (q : Q) :
  (ulpExp q = (ilog2 q - 52)%Z /\ (-1074 <= ilog2 q - 52)%Z)
  \/ (ulpExp q = (-1074)%Z /\ (ilog2 q - 52 <= -1074)%Z).
Proof. unfold ulpExp. lia. Qed.

Lemma roundPos_error (q : Q) :
  - ((1 # 2) * 2 ^ ulpExp q) <= roundPos q - q <= (1 # 2) * 2 ^ ulpExp q.
Proof.
  unfold roundPos. set (e := ulpExp q).
  pose proof (pow2_pos e) as He.
  pose proof (roundEven_error (q / 2 ^ e)) as H.
  set (m := inject_Z (roundEven (q / 2 ^ e))) in *.
  assert (Hq : q == (q / 2 ^ e) * 2 ^ e) by (field; lra).
  set (t := q / 2 ^ e) in *. set (E := 2 ^ e) in *.
  assert (H1 : 0 <= (m - t + (1 # 2)) * E) by (apply Qmult_le_0_compat; lra).
  assert (H2 : 0 <= ((1 # 2) - (m - t)) * E) by (apply Qmult_le_0_compat; lra).
  clearbody m t E. split; nra.
Qed.

Lemma roundPos_nonneg (q : Q) : 0 <= q -> 0 <= roundPos q.
Proof.
  intros Hq. unfold roundPos. set (e := ulpExp q).
  pose proof (pow2_pos e) as He.
  assert (H : (0 <= roundEven (q / 2 ^ e))%Z).
  { rewrite <- (roundEven_Z 0). apply roundEven_le.
    setoid_replace (inject_Z 0) with (0 / 2 ^ e) by (field; lra).
    now apply Qdiv_le. }
  rewrite Zle_Qle in H. change (inject_Z 0) with 0 in H. nra.
Qed.

Lemma roundPos_le (x y : Q) : 0 < x -> x <= y -> roundPos x <= roundPos y.
Proof.
  intros Hx Hxy. assert (Hy : 0 < y) by lra.
  pose proof (ilog2_le x y Hx Hxy) as Hj.
  destruct (ilog2_spec x Hx) as [Hxlo Hxhi].
  destruct (ilog2_spec y Hy) as [Hylo Hyhi].
  destruct (Z.eq_dec (ulpExp x) (ulpExp y)) as [Heq|Hne].
  - unfold roundPos. rewrite Heq. set (e := ulpExp y).
    pose proof (pow2_pos e) as He.
    assert (H : (roundEven (x / 2 ^ e) <= roundEven (y / 2 ^ e))%Z).
    { apply roundEven_le. now apply Qdiv_le. }
    rewrite Zle_Qle in H. nra.
  - assert (Hey : ulpExp y = (ilog2 y - 52)%Z /\ (ulpExp x < ulpExp y)%Z).
    { unfold ulpExp in *. lia. }
    destruct Hey as [Hey Hlt].
    assert (Hjx : (ilog2 x + 1 <= ilog2 y)%Z) by (unfold ulpExp in *; lia).
    apply Qle_trans with (2 ^ ilog2 y).
    + unfold roundPos. set (e := ulpExp x) in *.
      pose proof (pow2_pos e) as He.
      assert (Hd : (0 <= ilog2 y - e)%Z) by lia.
      assert (H : (roundEven (x / 2 ^ e) <= 2 ^ (ilog2 y - e))%Z).
      { rewrite <- (roundEven_Z (2 ^ (ilog2 y - e))).
        apply roundEven_le. rewrite pow2_Z by exact Hd.
        rewrite Qpower_minus by discriminate.
        apply Qdiv_le; [exact He|].
        pose proof (pow2_le _ _ Hjx). lra. }
      rewrite Zle_Qle, pow2_Z in H by exact Hd.
      rewrite Qpower_minus in H by discriminate.
      setoid_replace (2 ^ ilog2 y) with (2 ^ ilog2 y / 2 ^ e * 2 ^ e)
        by (field; lra).
      set (m := inject_Z (roundEven (x / 2 ^ e))) in *.
      set (t := 2 ^ ilog2 y / 2 ^ e) in *. nra.
    + unfold roundPos. set (e := ulpExp y) in *.
      pose proof (pow2_pos e) as He.
      assert (H : (2 ^ 52 <= roundEven (y / 2 ^ e))%Z).
      { rewrite <- (roundEven_Z (2 ^ 52)) at 1.
        apply roundEven_le. rewrite pow2_Z by lia.
        apply Qle_shift_div_l; [exact He|].
        rewrite <- Qpower_plus by discriminate.
        replace (52 + e)%Z with (ilog2 y) by lia. exact Hylo. }
      rewrite Zle_Qle, pow2_Z in H by lia.
      setoid_replace (2 ^ ilog2 y) with (2 ^ 52 * 2 ^ e).
      * set (m := inject_Z (roundEven (y / 2 ^ e))) in *.
        set (t := 2 ^ 52) in *. nra.
      * rewrite <- Qpower_plus by discriminate.
        replace (52 + e)%Z with (ilog2 y) by lia. reflexivity.
Qed.

Lemma double_cases (q : Q) :
  (q == 0 /\ double q = 0)
  \/ (0 < q /\ double q = roundPos q)
  \/ (q < 0 /\ double q = - roundPos (- q)).
Proof.
  unfold double. destruct (Qcompare_spec q 0) as [E|E|E].
  - now left.
  - right; right. now split.
  - right; left. now split.
Qed.

Lemma double_le (x y : Q) : x <= y -> double x <= double y.
Proof.
  intros Hxy.
  destruct (double_cases x) as [[Hx ->]|[[Hx ->]|[Hx ->]]];
    destruct (double_cases y) as [[Hy ->]|[[Hy ->]|[Hy ->]]];
    try (exfalso; lra); try lra.
  - apply roundPos_nonneg. lra.
  - now apply roundPos_le.
  - pose proof (roundPos_nonneg (- x)). lra.
  - pose proof (roundPos_nonneg (- x)). pose proof (roundPos_nonneg y). lra.
  - pose proof (roundPos_le (- y) (- x)). lra.
Qed.

#[export] Instance double_comp : Proper (Qeq ==> Qeq) double.
Proof.
  intros x y H. apply Qle_antisym; apply double_le; lra.
Qed.

Lemma double_nonneg (q : Q) : 0 <= q -> 0 <= double q.
Proof. intros H. change 0 with (double 0) at 1. now apply double_le. Qed.

Lemma roundEven_comp (x y : Q) : x == y -> roundEven x = roundEven y.
Proof.
  intros H. apply Z.le_antisymm; apply roundEven_le; lra.
Qed.



Lemma double_below_1 (r : Q) : isDouble r -> 0 <= r -> r < 1 -> r <= belowOne.
Proof.
  unfold isDouble, belowOne. intros Hd H0 H1.
  change (2 ^ (-53)) with (1 # 9007199254740992).
  destruct (double_cases r) as [[Hr _]|[[Hr Hp]|[Hr _]]]; [lra| |lra].
  rewrite Hp in Hd. destruct (ilog2_spec r Hr) as [Hlo Hhi].
  assert (Hj : (ilog2 r < 0)%Z).
  { apply pow2_lt_inv. change (2 ^ 0) with 1. lra. }
  destruct (Z.eq_dec (ilog2 r) (-1)) as [Hm|Hm].
  - unfold roundPos, ulpExp in Hd. rewrite Hm in Hd.
    change (Z.max (-1 - 52) (-1074)) with (-53)%Z in Hd.
    change (2 ^ (-53)) with (1 # 9007199254740992) in Hd.
    set (m := roundEven _) in *.
    assert (Hlt : (m < 9007199254740992)%Z).
    { rewrite Zlt_Qlt. change (inject_Z 9007199254740992)
        with (9007199254740992 # 1). lra. }
    assert (Hle : (m <= 9007199254740991)%Z) by lia.
    rewrite Zle_Qle in Hle.
    change (inject_Z 9007199254740991) with (9007199254740991 # 1) in Hle.
    lra.
  - assert (Hle : 2 ^ (ilog2 r + 1) <= 2 ^ (-1)) by (apply pow2_le; lia).
    change (2 ^ (-1)) with (1 # 2) in Hle. lra.
Qed.

(** [Math.floor(Math.random() * n)] is an index below [n]. *)
Lemma fmul_random_index (r : Q) (n : Z) :
  isDouble r -> 0 <= r -> r < 1 -> (1 <= n)%Z ->
  (0 <= Qfloor (fmul r (inject_Z n)) < n)%Z.
Proof.
  intros Hd H0 H1 Hn. unfold fmul.
  pose proof (double_below_1 r Hd H0 H1) as Hr. unfold belowOne in Hr.
  change (2 ^ (-53)) with (1 # 9007199254740992) in Hr.
  assert (Hn' : 1 <= inject_Z n).
  { change 1 with (inject_Z 1). now rewrite <- Zle_Qle. }
  set (N := inject_Z n) in *. set (x := r * N).
  assert (Hx0 : 0 <= x) by (apply Qmult_le_0_compat; lra).
  assert (Hx1 : x <= N - N * (1 # 9007199254740992)) by (subst x; nra).
  split.
  - change 0%Z with (Qfloor 0). apply Qfloor_resp_le.
    now apply double_nonneg.
  - rewrite Zlt_Qlt. fold N.
    apply Qle_lt_trans with (double x); [apply Qfloor_le|].
    destruct (double_cases x) as [[Hx ->]|[[Hx ->]|[Hx _]]]; [lra| |lra].
    pose proof (roundPos_error x) as [_ Herr].
    destruct (ilog2_spec x Hx) as [Hlo _].
    destruct (ulpExp_cases x) as [[He _]|[He _]]; rewrite He in Herr.
    + rewrite Qpower_minus in Herr by discriminate.
      change (2 ^ 52) with (4503599627370496 # 1) in Herr.
      set (J := 2 ^ ilog2 x) in *.
      assert (HJ : J / (4503599627370496 # 1)
                   == J * (1 # 4503599627370496)) by (field; discriminate).
      rewrite HJ in Herr. clearbody J. nra.
    + change (2 ^ (-1074)) with (/ (2 ^ 1022) * (1 # 4503599627370496))
        in Herr.
      assert (Hbig : / 2 ^ 1022 <= 1 # 2).
      { apply Qle_shift_inv_r; [apply pow2_pos|].
        assert (H : 2 ^ 1 <= 2 ^ 1022) by (apply pow2_le; lia).
        change (2 ^ 1) with 2 in H. set (P := 2 ^ 1022) in *.
        clearbody P. lra. }
      assert (Hpos : 0 < / 2 ^ 1022) by (apply Qinv_lt_0_compat, pow2_pos).
      set (T := / 2 ^ 1022) in *. clearbody T. nra.
Qed.

Lemma double_half_integer (z : Z) :
  (Z.abs z < 2 ^ 53)%Z -> isDouble (inject_Z z * (1 # 2)).
Proof.
  assert (Hpos : forall z, (0 < z < 2 ^ 53)%Z ->
            roundPos (inject_Z z * (1 # 2)) == inject_Z z * (1 # 2)).
  { clear z. intros z [Hz0 Hz1].
    set (x := inject_Z z * (1 # 2)).
    assert (Hx : 0 < x).
    { subst x. rewrite Zlt_Qlt in Hz0. change (inject_Z 0) with 0 in Hz0.
      lra. }
    destruct (ilog2_spec x Hx) as [Hlo Hhi].
    assert (Hj1 : (ilog2 x < 52)%Z).
    { apply pow2_lt_inv. apply Qle_lt_trans with x; [exact Hlo|].
      subst x. rewrite Zlt_Qlt in Hz1.
      change (inject_Z (2 ^ 53)) with (2 * 2 ^ 52) in Hz1. lra. }
    assert (Hj0 : (-2 < ilog2 x)%Z).
    { assert (H : (-1 < ilog2 x + 1)%Z); [|lia].
      apply pow2_lt_inv. apply Qle_lt_trans with x; [|exact Hhi].
      subst x. change (2 ^ (-1)) with (1 # 2).
      assert (H1 : (1 <= z)%Z) by lia. rewrite Zle_Qle in H1.
      change (inject_Z 1) with 1 in H1. lra. }
    unfold roundPos.
    assert (He : ulpExp x = (ilog2 x - 52)%Z) by (unfold ulpExp; lia).
    rewrite He. set (e := (ilog2 x - 52)%Z).
    assert (Hk : (0 <= - e - 1)%Z) by (subst e; lia).
    pose proof (pow2_pos e) as Hepos.
    assert (Hscaled : x / 2 ^ e == inject_Z (z * 2 ^ (- e - 1))).
    { rewrite inject_Z_mult, pow2_Z by exact Hk.
      replace (- e - 1)%Z with (- e + - (1))%Z by lia.
      rewrite Qpower_plus, Qpower_opp by discriminate.
      subst x. change (2 ^ (- (1))) with (1 # 2). field. lra. }
    rewrite (roundEven_comp _ _ Hscaled), roundEven_Z, <- Hscaled.
    field. lra. }
  intros Hz. unfold isDouble.
  destruct (Z.lt_trichotomy z 0) as [Hneg|[->|Hp]].
  - set (x := inject_Z z * (1 # 2)).
    assert (Hx : x < 0).
    { subst x. rewrite Zlt_Qlt in Hneg. change (inject_Z 0) with 0 in Hneg.
      lra. }
    destruct (double_cases x) as [[H _]|[[H _]|[_ ->]]]; [lra|lra|].
    assert (Heq : - x == inject_Z (- z) * (1 # 2))
      by (subst x; rewrite inject_Z_opp; ring).
    assert (Hr : roundPos (- x) == - x).
    { transitivity (roundPos (inject_Z (- z) * (1 # 2))).
      - assert (H1 : 0 < - x) by lra.
        apply Qle_antisym; apply roundPos_le; lra.
      - rewrite Hpos by lia. lra. }
    lra.
  - reflexivity.
  - destruct (double_cases (inject_Z z * (1 # 2)))
      as [[H _]|[[_ ->]|[H _]]].
    + rewrite Zlt_Qlt in Hp. change (inject_Z 0) with 0 in Hp. lra.
    + apply Hpos. lia.
    + rewrite Zlt_Qlt in Hp. change (inject_Z 0) with 0 in Hp. lra.
Qed.

Lemma double_range (lo hi x : Q) :
  isDouble lo -> isDouble hi -> lo <= x <= hi -> lo <= double x <= hi.
Proof.
  unfold isDouble. intros Hlo Hhi [H1 H2].
  pose proof (double_le lo x H1). pose proof (double_le x hi H2). lra.
Qed.

(** The noise of the easy tier, [(r - 0.5) * 2], and of the medium tier,
    [(r - 0.5) * 1]. *)
Lemma noise_easy (r : Q) :
  0 <= r -> r < 1 -> -1 <= fmul (fsub r 0.5) 2 <= 1.
Proof.
  intros H0 H1. unfold fmul, fsub.
  assert (H : -0.5 <= double (r - 0.5) <= 0.5).
  { apply double_range; [reflexivity|reflexivity|lra]. }
  apply double_range; [reflexivity|reflexivity|lra].
Qed.

Lemma noise_medium (r : Q) :
  0 <= r -> r < 1 -> -0.5 <= fmul (fsub r 0.5) 1 <= 0.5.
Proof.
  intros H0 H1. unfold fmul, fsub.
  assert (H : -0.5 <= double (r - 0.5) <= 0.5).
  { apply double_range; [reflexivity|reflexivity|lra]. }
  apply double_range; [reflexivity|reflexivity|lra].
Qed.

#[local] Set Implicit Arguments.

(** ** The move orderer *)

Lemma sort_insert_capture (x : Move) (l : list Move) :
  isCapture x = true -> sort_insert capturesFirst x l = x :: l.
Proof.
  intros Hx. destruct l as [|y ys]; simpl; [reflexivity|].
  unfold capturesFirst. unfold isCapture in Hx. rewrite Hx.
  destruct (truthy (captured y)); reflexivity.
Qed.

Lemma sort_insert_quiet (x : Move) (caps quiets : list Move) :
  isCapture x = false ->
  Forall (fun m => isCapture m = true) caps ->
  Forall (fun m => isCapture m = false) quiets ->
  sort_insert capturesFirst x (caps ++ quiets) = caps ++ x :: quiets.
Proof.
  intros Hx Hc Hq. induction Hc as [|y ys Hy _ IH]; simpl.
  - destruct Hq as [|z zs Hz _]; simpl; [reflexivity|].
    unfold capturesFirst. unfold isCapture in Hx, Hz. rewrite Hx, Hz.
    reflexivity.
  - unfold capturesFirst at 1. unfold isCapture in Hx, Hy. rewrite Hx, Hy.
    simpl. now rewrite IH.
Qed.

Lemma orderMoves_partition (l : list Move) :
  orderMoves l = capturesThenQuiets l.
Proof.
  unfold orderMoves, capturesThenQuiets.
  induction l as [|x l IH]; simpl; [reflexivity|].
  rewrite IH. destruct (isCapture x) eqn:Hx; simpl.
  - now apply sort_insert_capture.
  - apply sort_insert_quiet; [exact Hx| |].
    + apply Forall_forall. intros m Hm. now apply filter_In in Hm.
    + apply Forall_forall. intros m Hm. apply filter_In in Hm.
      now apply negb_true_iff.
Qed.

Lemma partition_Permutation (l : list Move) :
  Permutation l (capturesThenQuiets l).
Proof.
  unfold capturesThenQuiets. induction l as [|x l IH]; simpl; [constructor|].
  destruct (isCapture x); simpl.
  - now constructor.
  - now apply Permutation_cons_app.
Qed.

(** C8: the orderer returns a permutation of the move list that is the
    captures followed by the non-captures, each group in the order it had in
    the input. *)
Theorem orderMoves_captures_first_stable (l : list Move) :
  Permutation l (orderMoves l)
  /\ exists caps quiets,
       orderMoves l = caps ++ quiets
       /\ Forall (fun m => isCapture m = true) caps
       /\ Forall (fun m => isCapture m = false) quiets
       /\ caps = filter isCapture l
       /\ quiets = filter (fun m => negb (isCapture m)) l.
Proof.
  rewrite orderMoves_partition. split; [apply partition_Permutation|].
  exists (filter isCapture l), (filter (fun m => negb (isCapture m)) l).
  repeat split.
  - apply Forall_forall. intros m Hm. now apply filter_In in Hm.
  - apply Forall_forall. intros m Hm. apply filter_In in Hm.
    now apply negb_true_iff.
Qed.

(** ** The piece-square lookup *)

Lemma getPositionValue_rows (piece : Piece) (rank file : nat) :
  getPositionValue piece rank file =
  index2 (getPositionTable (ptype piece))
    (match pcolor piece with White => 7 - rank | Black => rank end)%nat file.
Proof. reflexivity. Qed.

(** C2 (the code departs from the claim): the lookup mirrors the row of the
    board for White pieces and reads it as it is for Black pieces, the
    opposite of the lookup the specification describes.  A White pawn on e2,
    row 6 and file 4 of the board, reads 5, the entry of a pawn one step from
    promotion, where the specified lookup reads -2. *)
Theorem getPositionValue_mirrors_white :
  (forall t rank file,
      getPositionValue (mkPiece t White) rank file
      = index2 (getPositionTable t) (7 - rank) file
      /\ getPositionValue (mkPiece t Black) rank file
         = index2 (getPositionTable t) rank file)
  /\ getPositionValue (mkPiece Pawn White) 6 4 = 5
  /\ positionalValue (mkPiece Pawn White) 6 4 = -2
  /\ ~ getPositionValue (mkPiece Pawn White) 6 4
       == positionalValue (mkPiece Pawn White) 6 4.
Proof.
  split; [intros t rank file; split; reflexivity|].
  repeat split; try reflexivity.
  intros H. vm_compute in H. discriminate H.
Qed.

(** ** Terminal positions *)

Section Terminal.
Context {Chess : Type} {engine : RulesEngine Chess}.
Variable env : Environment.
Variable settings : AISettings.

(** C3: a checkmate position evaluates to exactly -1000 when White is to
    move and to exactly +1000 when Black is to move. *)
Theorem evaluatePosition_checkmate (game : Chess) (s : World) :
  isCheckmate game = true ->
  (turn game = White -> fst (evaluatePosition env settings game s) = -1000)
  /\ (turn game = Black -> fst (evaluatePosition env settings game s) = 1000).
Proof.
  intros Hmate. unfold evaluatePosition. rewrite Hmate.
  split; intros Ht; rewrite Ht; reflexivity.
Qed.

(** C10: on a terminal position every tier returns the terminal score
    itself, and the world is left as it was: no random number is drawn. *)
Theorem evaluatePosition_terminal_no_noise (game : Chess) (s : World) :
  (isCheckmate game = true ->
     evaluatePosition env settings game s
     = (match turn game with White => -1000 | Black => 1000 end, s))
  /\ (isCheckmate game = false -> isDraw game = true ->
     evaluatePosition env settings game s = (0, s)).
Proof.
  unfold evaluatePosition. split.
  - intros ->. reflexivity.
  - intros -> ->. reflexivity.
Qed.
End Terminal.

(** C3 at the position mated by Qb8 (Black to move) and at a position
    where it is White who is to move and mated. *)
Lemma evaluatePosition_checkmate_witness :
  fst (evaluatePosition calmEnv (createChessAI medium) matedByQb8 world0) = 1000
  /\ fst (evaluatePosition calmEnv (createChessAI easy) whiteMated world0)
     = -1000.
Proof.
  split.
  - apply (evaluatePosition_checkmate calmEnv (createChessAI medium)
             matedByQb8 world0); reflexivity.
  - apply (evaluatePosition_checkmate calmEnv (createChessAI easy)
             whiteMated world0); reflexivity.
Defined.

(** C10 at a mate and at a stalemate, on the two tiers that add noise. *)
Lemma evaluatePosition_terminal_no_noise_witness :
  evaluatePosition calmEnv (createChessAI easy) matedByQb8 world0
  = (1000, world0)
  /\ evaluatePosition calmEnv (createChessAI medium) stalemate world0
     = (0, world0).
Proof.
  split.
  - exact (proj1 (evaluatePosition_terminal_no_noise calmEnv
                    (createChessAI easy) matedByQb8 world0) eq_refl).
  - exact (proj2 (evaluatePosition_terminal_no_noise calmEnv
                    (createChessAI medium) stalemate world0) eq_refl eq_refl).
Defined.

(** ** The board sum *)

Lemma addSquare_term (brd : Board) (rank file : nat) (score : Q) :
  addSquare brd rank score file == score + squareTerm brd rank file.
Proof.
  unfold addSquare, squareTerm.
  destruct (squareAt brd rank file) as [piece|]; [|lra].
  destruct (pcolor piece); simpl; lra.
Qed.

Lemma addRank_files (brd : Board) (rank : nat) (l : list nat) (score : Q) :
  fold_left (addSquare brd rank) l score
  == score + sumQ (map (squareTerm brd rank) l).
Proof.
  revert score. induction l as [|f l IH]; intros score; simpl; [lra|].
  rewrite IH, addSquare_term. lra.
Qed.

Lemma boardScore_ranks (brd : Board) (l : list nat) (score : Q) :
  fold_left (addRank brd) l score == score + sumQ (map (rankTerm brd) l).
Proof.
  revert score. induction l as [|r l IH]; intros score; simpl; [lra|].
  rewrite IH. unfold addRank. rewrite addRank_files.
  unfold rankTerm. lra.
Qed.

Lemma boardScore_sum (brd : Board) :
  boardScore brd == sumQ (map (rankTerm brd) (seq 0 8)).
Proof. unfold boardScore. rewrite boardScore_ranks. lra. Qed.

Lemma sumQ_opp (f g : nat -> Q) (l : list nat) :
  (forall x, In x l -> f x == - g x) ->
  sumQ (map f l) == - sumQ (map g l).
Proof.
  induction l as [|x l IH]; intros Hfg; simpl; [lra|].
  rewrite IH, (Hfg x) by (intros; try apply Hfg; simpl; auto). lra.
Qed.

(** ** Mirror symmetry of the evaluator *)

Lemma squareAt_mirror (brd : Board) (rank file : nat) :
  length brd = 8%nat -> (rank < 8)%nat ->
  squareAt (mirrorBoard brd) rank file
  = option_map swapSide (squareAt brd (7 - rank) file).
Proof.
  intros Hlen Hr. unfold squareAt, mirrorBoard.
  rewrite rev_nth by (rewrite length_map; lia).
  rewrite length_map, Hlen.
  replace (8 - S rank)%nat with (7 - rank)%nat by lia.
  change (@nil (option Piece)) with (map (option_map swapSide) []) at 1.
  rewrite map_nth.
  change (@None Piece) with (option_map swapSide None) at 1.
  now rewrite map_nth.
Qed.

Lemma squareTerm_mirror (brd : Board) (rank file : nat) :
  length brd = 8%nat -> (rank < 8)%nat ->
  squareTerm (mirrorBoard brd) rank file == - squareTerm brd (7 - rank) file.
Proof.
  intros Hlen Hr. unfold squareTerm. rewrite squareAt_mirror by assumption.
  destruct (squareAt brd (7 - rank) file) as [[t c]|];
    cbn [option_map]; [|lra].
  unfold getPositionValue, swapSide.
  destruct c; cbn [pcolor ptype opposite];
    replace (7 - (7 - rank))%nat with rank by lia; lra.
Qed.

Lemma rankTerm_mirror (brd : Board) (rank : nat) :
  length brd = 8%nat -> (rank < 8)%nat ->
  rankTerm (mirrorBoard brd) rank == - rankTerm brd (7 - rank).
Proof.
  intros Hlen Hr. unfold rankTerm. apply sumQ_opp.
  intros file _. now apply squareTerm_mirror.
Qed.

Lemma boardScore_mirror (brd : Board) :
  length brd = 8%nat -> boardScore (mirrorBoard brd) == - boardScore brd.
Proof.
  intros Hlen. rewrite !boardScore_sum. simpl.
  rewrite !rankTerm_mirror by (assumption || lia). simpl. lra.
Qed.

Section Symmetry.
Context {Chess : Type} {engine : RulesEngine Chess}.
Variable env : Environment.
Variable settings : AISettings.

Lemma evaluatePosition_hard (game : Chess) (s : World) :
  difficulty settings = hard ->
  evaluatePosition env settings game s = (staticScore game, s).
Proof.
  intros Hd. unfold evaluatePosition, staticScore. rewrite Hd.
  destruct (isCheckmate game); [reflexivity|].
  destruct (isDraw game); reflexivity.
Qed.

(** C4: at the hard tier the score of the colour-mirrored counterpart of
    a position is the negation of the score of the position. *)
Theorem evaluatePosition_mirror (g g' : Chess) (s s' : World) :
  difficulty settings = hard ->
  length (board g) = 8%nat ->
  colorMirrored g g' ->
  fst (evaluatePosition env settings g' s')
  == - fst (evaluatePosition env settings g s).
Proof.
  intros Hd Hlen (Ht & Hb & Hm & Hdr).
  rewrite !evaluatePosition_hard by assumption. simpl.
  unfold staticScore. rewrite Hm, Hdr, Ht, Hb.
  destruct (isCheckmate g).
  - destruct (turn g); simpl; lra.
  - destruct (isDraw g); [lra|]. now apply boardScore_mirror.
Qed.
End Symmetry.

(** C4 at the starting position of [mateInOne] and its mirror image, Black
    to move with the colours exchanged. *)
Lemma evaluatePosition_mirror_witness :
  fst (evaluatePosition calmEnv (createChessAI hard)
         (Node Black false false (mirrorBoard boardStart) []) world0)
  == - fst (evaluatePosition calmEnv (createChessAI hard) mateInOne world0).
Proof.
  apply evaluatePosition_mirror.
  - reflexivity.
  - reflexivity.
  - repeat split.
Defined.

(** ** Determinism of the hard tier *)

Lemma randomFree_ret {A} (a : A) : randomFree (ret a) (ret a).
Proof. intros s1 s2 H. simpl. auto. Qed.

Lemma randomFree_bind {A B} (c1 c2 : M A) (k1 k2 : A -> M B) :
  randomFree c1 c2 ->
  (forall a, randomFree (k1 a) (k2 a)) ->
  randomFree (bind c1 k1) (bind c2 k2).
Proof.
  intros Hc Hk s1 s2 Hs. unfold bind.
  destruct (Hc s1 s2 Hs) as (Hv & Hclk & Hr1 & Hr2).
  destruct (c1 s1) as [a1 t1], (c2 s2) as [a2 t2]. simpl in *. subst a2.
  destruct (Hk a1 t1 t2 Hclk) as (Hv' & Hclk' & Hr1' & Hr2').
  repeat split; congruence.
Qed.

Lemma randomFree_now (e1 e2 : Environment) :
  (forall k, clock e1 k = clock e2 k) ->
  randomFree (Date_now e1) (Date_now e2).
Proof.
  intros Hclk s1 s2 Hs. unfold Date_now. simpl.
  rewrite Hs, Hclk. auto.
Qed.

Section Determinism.
Context {Chess : Type} {engine : RulesEngine Chess}.
Variables e1 e2 : Environment.
Variable settings : AISettings.
Hypothesis sameClock : forall k, clock e1 k = clock e2 k.
Hypothesis isHard : difficulty settings = hard.

Lemma randomFree_evaluate (game : Chess) :
  randomFree (evaluatePosition e1 settings game)
             (evaluatePosition e2 settings game).
Proof.
  intros s1 s2 Hs. rewrite !evaluatePosition_hard by assumption.
  simpl. auto.
Qed.

Lemma randomFree_leaf (game : Chess) :
  randomFree (score <- evaluatePosition e1 settings game ;; ret (Num score))
             (score <- evaluatePosition e2 settings game ;; ret (Num score)).
Proof.
  apply randomFree_bind; [apply randomFree_evaluate|].
  intros a. apply randomFree_ret.
Qed.

Lemma randomFree_maxLoop
    (child1 child2 : Chess -> bool -> number -> number -> M number)
    (game : Chess) (beta : number) (l : list Move) :
  (forall g x a c, randomFree (child1 g x a c) (child2 g x a c)) ->
  forall alpha maxEval,
    randomFree (maxLoop child1 game beta l alpha maxEval)
               (maxLoop child2 game beta l alpha maxEval).
Proof.
  intros Hch. induction l as [|mv rest IH]; intros alpha maxEval; simpl.
  - apply randomFree_ret.
  - apply randomFree_bind; [apply Hch|]. intros ev.
    destruct (num_le beta (Math_max alpha ev)); [apply randomFree_ret|].
    apply IH.
Qed.

Lemma randomFree_minLoop
    (child1 child2 : Chess -> bool -> number -> number -> M number)
    (game : Chess) (alpha : number) (l : list Move) :
  (forall g x a c, randomFree (child1 g x a c) (child2 g x a c)) ->
  forall beta minEval,
    randomFree (minLoop child1 game alpha l beta minEval)
               (minLoop child2 game alpha l beta minEval).
Proof.
  intros Hch. induction l as [|mv rest IH]; intros beta minEval; simpl.
  - apply randomFree_ret.
  - apply randomFree_bind; [apply Hch|]. intros ev.
    destruct (num_le (Math_min beta ev) alpha); [apply randomFree_ret|].
    apply IH.
Qed.

Lemma randomFree_minimax (depth : nat) (deadline : Z) :
  forall game isMaximizing alpha beta,
    randomFree (minimax e1 settings depth deadline game isMaximizing alpha beta)
               (minimax e2 settings depth deadline game isMaximizing alpha beta).
Proof.
  induction depth as [|d IH]; intros game isMax alpha beta; simpl.
  - apply randomFree_bind; [now apply randomFree_now|].
    intros now. apply randomFree_leaf.
  - apply randomFree_bind; [now apply randomFree_now|].
    intros now.
    destruct ((deadline <? now)%Z || isGameOver game);
      [apply randomFree_leaf|].
    destruct isMax.
    + now apply randomFree_maxLoop.
    + now apply randomFree_minLoop.
Qed.

Lemma randomFree_rootLoop (depth : nat) (deadline : Z) (game : Chess)
    (isRootWhite : bool) (l : list Move) :
  forall bestScore bestMove,
    randomFree
      (rootLoop e1 settings depth deadline game isRootWhite l bestScore bestMove)
      (rootLoop e2 settings depth deadline game isRootWhite l bestScore bestMove).
Proof.
  induction l as [|mv rest IH]; intros bestScore bestMove; simpl.
  - apply randomFree_ret.
  - apply randomFree_bind; [now apply randomFree_now|].
    intros now. destruct (deadline <? now)%Z; [apply randomFree_ret|].
    apply randomFree_bind; [apply randomFree_minimax|].
    intros score. destruct (better isRootWhite score bestScore); apply IH.
Qed.

Lemma randomFree_deepen (deadline : Z) (game : Chess) (isRootWhite : bool)
    (ordered : list Move) (depths : list nat) :
  forall selected,
    randomFree
      (deepen e1 settings deadline game isRootWhite ordered depths selected)
      (deepen e2 settings deadline game isRootWhite ordered depths selected).
Proof.
  induction depths as [|d rest IH]; intros selected; simpl.
  - apply randomFree_ret.
  - apply randomFree_bind; [apply randomFree_rootLoop|].
    intros best. apply randomFree_bind; [now apply randomFree_now|].
    intros now. destruct (deadline <? now)%Z; [apply randomFree_ret|].
    apply IH.
Qed.

(** C9: at the hard tier, under one clock, the move returned does not
    depend on the random source or on how much of it was used before, and
    the call draws no random number. *)
Theorem getBestMove_hard_deterministic (game : Chess) (s1 s2 : World) :
  clockReads s1 = clockReads s2 ->
  fst (getBestMove e1 settings game s1) = fst (getBestMove e2 settings game s2)
  /\ randomDraws (snd (getBestMove e1 settings game s1)) = randomDraws s1
  /\ randomDraws (snd (getBestMove e2 settings game s2)) = randomDraws s2.
Proof.
  intros Hs.
  assert (H : randomFree (getBestMove e1 settings game)
                         (getBestMove e2 settings game)).
  { unfold getBestMove. destruct (moves game) as [|m0 l];
      [apply randomFree_ret|].
    rewrite isHard.
    apply randomFree_bind; [now apply randomFree_now|]. intros now.
    apply randomFree_bind; [apply randomFree_deepen|]. intros sel.
    apply randomFree_ret. }
  destruct (H s1 s2 Hs) as (Hv & _ & Hr1 & Hr2). auto.
Qed.
End Determinism.

(** C9 on [mateInOne]: two random sources and two histories of draws, one
    clock. *)
Lemma getBestMove_hard_deterministic_witness :
  fst (getBestMove calmEnv (createChessAI hard) mateInOne (mkWorld 0 0))
  = fst (getBestMove (mkEnv frozenClock (fun k => inject_Z (Z.of_nat k) / 7))
           (createChessAI hard) mateInOne (mkWorld 0 5))
  /\ randomDraws
       (snd (getBestMove calmEnv (createChessAI hard) mateInOne (mkWorld 0 0)))
     = 0%nat
  /\ randomDraws
       (snd (getBestMove (mkEnv frozenClock (fun k => inject_Z (Z.of_nat k) / 7))
               (createChessAI hard) mateInOne (mkWorld 0 5)))
     = 5%nat.
Proof.
  apply getBestMove_hard_deterministic.
  - intros k. reflexivity.
  - reflexivity.
  - reflexivity.
Defined.

(** ** Running the loops one step *)

Lemma bind_run {A B} (c : M A) (k : A -> M B) (s : World) :
  bind c k s = k (fst (c s)) (snd (c s)).
Proof. unfold bind. now destruct (c s). Qed.

Lemma Date_now_run (env : Environment) (s : World) :
  Date_now env s = (clock env (clockReads s), tick s).
Proof. reflexivity. Qed.

Section Steps.
Context {Chess : Type} {engine : RulesEngine Chess}.
Variable env : Environment.
Variable settings : AISettings.

Lemma leaf_run (game : Chess) (s : World) :
  (score <- evaluatePosition env settings game ;; ret (Num score)) s
  = (Num (fst (evaluatePosition env settings game s)),
     snd (evaluatePosition env settings game s)).
Proof. now rewrite bind_run. Qed.

Lemma minimax_O (deadline : Z) (game : Chess) (isMaximizing : bool)
    (alpha beta : number) (s : World) :
  minimax env settings 0 deadline game isMaximizing alpha beta s
  = (Num (fst (evaluatePosition env settings game (tick s))),
     snd (evaluatePosition env settings game (tick s))).
Proof. simpl. now rewrite bind_run, Date_now_run, leaf_run. Qed.

Lemma minimax_S (depth : nat) (deadline : Z) (game : Chess)
    (isMaximizing : bool) (alpha beta : number) (s : World) :
  minimax env settings (S depth) deadline game isMaximizing alpha beta s
  = if (deadline <? clock env (clockReads s))%Z || isGameOver game then
      (Num (fst (evaluatePosition env settings game (tick s))),
       snd (evaluatePosition env settings game (tick s)))
    else if isMaximizing then
      maxLoop (minimax env settings depth deadline) game beta
        (orderMoves (moves game)) alpha NegInfinity (tick s)
    else
      minLoop (minimax env settings depth deadline) game alpha
        (orderMoves (moves game)) beta Infinity (tick s).
Proof.
  simpl. rewrite bind_run, Date_now_run. cbn [fst snd].
  destruct ((deadline <? clock env (clockReads s))%Z || isGameOver game);
    [now rewrite leaf_run|now destruct isMaximizing].
Qed.

Lemma maxLoop_cons (child : Chess -> bool -> number -> number -> M number)
    (game : Chess) (beta : number) (mv : Move) (rest : list Move)
    (alpha maxEval : number) (s : World) :
  maxLoop child game beta (mv :: rest) alpha maxEval s
  = let r := child (move game mv) false alpha beta s in
    if num_le beta (Math_max alpha (fst r))
    then (Math_max maxEval (fst r), snd r)
    else maxLoop child game beta rest (Math_max alpha (fst r))
           (Math_max maxEval (fst r)) (snd r).
Proof.
  simpl. rewrite bind_run.
  now destruct (num_le beta (Math_max alpha _)).
Qed.

Lemma minLoop_cons (child : Chess -> bool -> number -> number -> M number)
    (game : Chess) (alpha : number) (mv : Move) (rest : list Move)
    (beta minEval : number) (s : World) :
  minLoop child game alpha (mv :: rest) beta minEval s
  = let r := child (move game mv) true alpha beta s in
    if num_le (Math_min beta (fst r)) alpha
    then (Math_min minEval (fst r), snd r)
    else minLoop child game alpha rest (Math_min beta (fst r))
           (Math_min minEval (fst r)) (snd r).
Proof.
  simpl. rewrite bind_run.
  now destruct (num_le (Math_min beta _) alpha).
Qed.

Lemma mediumLoop_cons (game : Chess) (isWhite : bool) (mv : Move)
    (rest : list Move) (bestScore : number) (bestMove : option Move)
    (s : World) :
  mediumLoop env settings game isWhite (mv :: rest) bestScore bestMove s
  = let r := evaluatePosition env settings (move game mv) s in
    if better isWhite (Num (fst r)) bestScore
    then mediumLoop env settings game isWhite rest (Num (fst r)) (Some mv)
           (snd r)
    else mediumLoop env settings game isWhite rest bestScore bestMove
           (snd r).
Proof.
  simpl. rewrite bind_run.
  now destruct (better isWhite _ bestScore).
Qed.

Lemma rootLoop_cons (depth : nat) (deadline : Z) (game : Chess)
    (isWhite : bool) (mv : Move) (rest : list Move) (bestScore : number)
    (bestMove : option Move) (s : World) :
  rootLoop env settings depth deadline game isWhite (mv :: rest)
    bestScore bestMove s
  = if (deadline <? clock env (clockReads s))%Z then (bestMove, tick s)
    else
      let r := minimax env settings (depth - 1) deadline (move game mv)
                 (Color_eqb (turn (move game mv)) White)
                 NegInfinity Infinity (tick s) in
      if better isWhite (fst r) bestScore
      then rootLoop env settings depth deadline game isWhite rest (fst r)
             (Some mv) (snd r)
      else rootLoop env settings depth deadline game isWhite rest
             bestScore bestMove (snd r).
Proof.
  cbn [rootLoop]. rewrite bind_run, Date_now_run. cbn [fst snd].
  destruct (deadline <? clock env (clockReads s))%Z; [reflexivity|].
  rewrite bind_run. cbv zeta.
  now destruct (better isWhite _ bestScore).
Qed.

Lemma deepen_cons (deadline : Z) (game : Chess) (isWhite : bool)
    (ordered : list Move) (depth : nat) (rest : list nat)
    (selected : option Move) (s : World) :
  deepen env settings deadline game isWhite ordered (depth :: rest)
    selected s
  = let r := rootLoop env settings depth deadline game isWhite ordered
               (worst isWhite) None s in
    if (deadline <? clock env (clockReads (snd r)))%Z
    then (keep (fst r) selected, tick (snd r))
    else deepen env settings deadline game isWhite ordered rest
           (keep (fst r) selected) (tick (snd r)).
Proof.
  cbn [deepen]. rewrite bind_run, bind_run, Date_now_run. cbn [fst snd].
  cbv zeta. unfold keep.
  now destruct (deadline <? clock env _)%Z.
Qed.

Lemma getBestMove_hard_run (game : Chess) (s : World) :
  difficulty settings = hard ->
  getBestMove env settings game s
  = match moves game with
    | [] => (Normal None, s)
    | _ :: _ =>
        let r := deepen env settings
                   (clock env (clockReads s) + limitOf settings)
                   game (Color_eqb (turn game) White)
                   (orderMoves (moves game))
                   (seq 1 (Z.to_nat (depth settings))) None (tick s) in
        (Normal (option_map toAIMove (fst r)), snd r)
    end.
Proof.
  intros Hd. unfold getBestMove. rewrite Hd.
  destruct (moves game) as [|m0 l]; [reflexivity|].
  rewrite bind_run, Date_now_run. cbn [fst snd].
  now rewrite bind_run.
Qed.
End Steps.

(** ** Legality of the move returned *)

Lemma orderMoves_In (l : list Move) (m : Move) :
  In m (orderMoves l) <-> In m l.
Proof.
  rewrite orderMoves_partition. split; intros H.
  - eapply Permutation_in; [|exact H].
    apply Permutation_sym, partition_Permutation.
  - eapply Permutation_in; [|exact H]. apply partition_Permutation.
Qed.

Lemma pick_In (pool : list Move) (r : Q) :
  0 <= r -> r < 1 -> isDouble r -> pool <> [] ->
  exists m, pick pool r = Some m /\ In m pool.
Proof.
  intros H0 H1 Hd Hne. unfold pick.
  set (n := Z.of_nat (length pool)).
  assert (Hn : (1 <= n)%Z).
  { subst n. destruct pool; [contradiction|]. simpl length. lia. }
  destruct (fmul_random_index r n Hd H0 H1 Hn) as [Hi0 Hi1].
  set (i := Qfloor (fmul r (inject_Z n))) in *.
  destruct (Z.ltb_spec i 0) as [Hneg|_]; [lia|].
  destruct (nth_error pool (Z.to_nat i)) as [m|] eqn:Hnth.
  - exists m. split; [reflexivity|]. eapply nth_error_In; eassumption.
  - apply nth_error_None in Hnth. subst n. lia.
Qed.

Section Legality.
Context {Chess : Type} {engine : RulesEngine Chess}.
Variable env : Environment.
Variable settings : AISettings.

Lemma fromList_cons_found (mv : Move) (rest : list Move)
    (entered r : option Move) :
  fromList rest (Some mv) r -> fromList (mv :: rest) entered r.
Proof.
  intros [H|(m & Hm & H)]; right.
  - exists mv. split; [now left|exact H].
  - exists m. split; [now right|exact H].
Qed.

Lemma fromList_cons_kept (mv : Move) (rest : list Move)
    (entered r : option Move) :
  fromList rest entered r -> fromList (mv :: rest) entered r.
Proof.
  intros [H|(m & Hm & H)]; [now left|right].
  exists m. split; [now right|exact H].
Qed.

Lemma mediumLoop_from (game : Chess) (isWhite : bool) (l : list Move) :
  forall bestScore bestMove s,
    fromList l bestMove
      (fst (mediumLoop env settings game isWhite l bestScore bestMove s)).
Proof.
  induction l as [|mv rest IH]; intros bestScore bestMove s.
  - now left.
  - rewrite mediumLoop_cons. cbv zeta.
    destruct (better isWhite _ bestScore).
    + apply fromList_cons_found, IH.
    + apply fromList_cons_kept, IH.
Qed.

Lemma rootLoop_from (depth : nat) (deadline : Z) (game : Chess)
    (isWhite : bool) (l : list Move) :
  forall bestScore bestMove s,
    fromList l bestMove
      (fst (rootLoop env settings depth deadline game isWhite l
              bestScore bestMove s)).
Proof.
  induction l as [|mv rest IH]; intros bestScore bestMove s.
  - now left.
  - rewrite rootLoop_cons. cbv zeta.
    destruct (deadline <? clock env (clockReads s))%Z; [now left|].
    destruct (better isWhite _ bestScore).
    + apply fromList_cons_found, IH.
    + apply fromList_cons_kept, IH.
Qed.

Lemma deepen_from (deadline : Z) (game : Chess) (isWhite : bool)
    (ordered : list Move) (depths : list nat) :
  forall selected s,
    fromList ordered selected
      (fst (deepen env settings deadline game isWhite ordered depths
              selected s)).
Proof.
  induction depths as [|d rest IH]; intros selected s.
  - now left.
  - rewrite deepen_cons. cbv zeta.
    pose proof (rootLoop_from d deadline game isWhite ordered
                  (worst isWhite) None s) as Hroot.
    destruct (rootLoop env settings d deadline game isWhite ordered
                (worst isWhite) None s) as [best s1].
    cbn [fst snd] in *.
    assert (Hkeep : fromList ordered selected (keep best selected)).
    { destruct Hroot as [->|(m & Hm & ->)]; [now left|].
      right. now exists m. }
    destruct (deadline <? clock env (clockReads s1))%Z; [exact Hkeep|].
    destruct (IH (keep best selected) (tick s1)) as [H|H].
    + now rewrite H.
    + now right.
Qed.

Lemma better_than_worst (isWhite : bool) (x : Q) :
  better isWhite (Num x) (worst isWhite) = true.
Proof. destruct isWhite; reflexivity. Qed.

(** The first root move at depth 1 is found whenever the clock lets the
    loop reach it. *)
Lemma rootLoop_first (deadline : Z) (game : Chess) (isWhite : bool)
    (mv : Move) (rest : list Move) (s : World) :
  (clock env (clockReads s) <= deadline)%Z ->
  exists m, In m (mv :: rest)
    /\ fst (rootLoop env settings 1 deadline game isWhite (mv :: rest)
              (worst isWhite) None s) = Some m.
Proof.
  intros Hclk. rewrite rootLoop_cons. cbv zeta.
  destruct (Z.ltb_spec deadline (clock env (clockReads s))) as [Hlt|_];
    [lia|].
  change (1 - 1)%nat with 0%nat. rewrite minimax_O. cbn [fst snd].
  rewrite better_than_worst.
  match goal with
  | |- context [rootLoop _ _ _ _ _ _ rest ?bs ?bm ?w] =>
      destruct (rootLoop_from 1 deadline game isWhite rest bs bm w)
        as [H|(m & Hm & H)]
  end.
  - exists mv. split; [now left|exact H].
  - exists m. split; [now right|exact H].
Qed.

Lemma getBestMove_easy_legal (game : Chess) (s : World) :
  difficulty settings = easy -> randomInRange env -> moves game <> [] ->
  exists m, In m (moves game)
    /\ fst (getBestMove env settings game s) = Normal (Some (toAIMove m)).
Proof.
  intros Hd Hrange Hne. unfold getBestMove. rewrite Hd.
  destruct (moves game) as [|m0 l] eqn:Hmoves; [contradiction|].
  rewrite bind_run. cbn [Math_random fst snd].
  set (pool := if (0 <? length _)%nat then _ else _).
  destruct (Hrange (randomDraws s)) as (H0 & H1 & Hdbl).
  assert (Hpool : pool <> [] /\ forall m, In m pool -> In m (m0 :: l)).
  { subst pool.
    destruct (0 <? length (filter _ (m0 :: l)))%nat eqn:E.
    - split.
      + intros Hnil. rewrite Hnil in E. discriminate E.
      + intros m Hm. now apply filter_In in Hm.
    - split; [discriminate|auto]. }
  destruct Hpool as [Hpne Hsub].
  destruct (pick_In H0 H1 Hdbl Hpne) as (m & Hpick & Hin).
  rewrite Hpick. exists m. split; [now apply Hsub|reflexivity].
Qed.

Lemma getBestMove_medium_legal (game : Chess) (s : World) :
  difficulty settings = medium -> moves game <> [] ->
  exists m, In m (moves game)
    /\ fst (getBestMove env settings game s) = Normal (Some (toAIMove m)).
Proof.
  intros Hd Hne. unfold getBestMove. rewrite Hd.
  destruct (moves game) as [|m0 l] eqn:Hmoves; [contradiction|].
  rewrite bind_run.
  pose proof (mediumLoop_from game (Color_eqb (turn game) White)
                (orderMoves (m0 :: l))
                (worst (Color_eqb (turn game) White)) None s) as H.
  destruct (mediumLoop _ _ _ _ _ _ _ s) as [[mv|] s1];
    cbn [fst snd] in *.
  - destruct H as [H|(m & Hm & H)]; [discriminate|].
    inversion H; subst m. exists mv.
    split; [now apply orderMoves_In|reflexivity].
  - exists m0. split; [now left|reflexivity].
Qed.

Lemma selected_legal (l : list Move) (r : option Move) :
  fromList (orderMoves l) None r -> r <> None ->
  exists m, In m l
    /\ Normal (option_map toAIMove r) = Normal (Some (toAIMove m)).
Proof.
  intros [->|(m & Hm & ->)] Hr; [contradiction|].
  exists m. split; [now apply orderMoves_In|reflexivity].
Qed.

Lemma getBestMove_hard_none_or_legal (game : Chess) (s : World) :
  difficulty settings = hard ->
  fst (getBestMove env settings game s) = Normal None
  \/ exists m, In m (moves game)
       /\ fst (getBestMove env settings game s)
          = Normal (Some (toAIMove m)).
Proof.
  intros Hd. rewrite getBestMove_hard_run by assumption.
  destruct (moves game) as [|m0 l] eqn:Hmoves; [now left|].
  cbv zeta. cbn [fst].
  match goal with
  | |- context [deepen _ _ ?dl _ ?w ?o ?ds ?sel ?st] =>
      pose proof (deepen_from dl game w o ds sel st) as H;
      destruct (fst (deepen env settings dl game w o ds sel st))
        as [mv|] eqn:E
  end.
  - right. apply selected_legal; [exact H|discriminate].
  - now left.
Qed.

Lemma getBestMove_hard_legal (game : Chess) (s : World) :
  difficulty settings = hard -> moves game <> [] ->
  (1 <= depth settings)%Z ->
  (clock env (S (clockReads s))
   <= clock env (clockReads s) + limitOf settings)%Z ->
  exists m, In m (moves game)
    /\ fst (getBestMove env settings game s) = Normal (Some (toAIMove m)).
Proof.
  intros Hd Hne Hdepth Hclk. rewrite getBestMove_hard_run by assumption.
  destruct (moves game) as [|m0 l] eqn:Hmoves; [contradiction|].
  cbv zeta. cbn [fst].
  set (deadline := (clock env (clockReads s) + _)%Z).
  set (isW := Color_eqb (turn game) White).
  destruct (Z.to_nat (depth settings)) as [|n] eqn:Hn; [lia|].
  cbn [seq]. rewrite deepen_cons. cbv zeta.
  destruct (orderMoves (m0 :: l)) as [|o os] eqn:Hord.
  { assert (Hin : In m0 (orderMoves (m0 :: l)))
      by (apply orderMoves_In; now left).
    rewrite Hord in Hin. contradiction. }
  destruct (rootLoop_first (deadline := deadline) game isW o os (tick s))
    as (m1 & Hm1 & Hfirst); [exact Hclk|].
  rewrite Hfirst. cbn [keep].
  assert (Hlegal : In m1 (m0 :: l))
    by (apply orderMoves_In; now rewrite Hord).
  destruct (deadline <? clock env _)%Z; cbn [fst option_map].
  { exists m1. split; [exact Hlegal|reflexivity]. }
  match goal with
  | |- context [deepen _ _ _ _ _ ?o' ?ds ?sel ?w] =>
      destruct (deepen_from deadline game isW o' ds sel w)
        as [H|(m & Hm & H)]; rewrite H
  end.
  { exists m1. split; [exact Hlegal|reflexivity]. }
  exists m. split; [|reflexivity].
  apply orderMoves_In. now rewrite Hord.
Qed.

(** C1, as the code has it: with no legal move every tier returns none;
    with a legal move the easy tier (given draws in [0, 1)) and the medium
    tier return a legal move; the hard tier returns none or a legal move,
    and a legal move whenever its depth is at least 1 and the deadline has
    not passed when the first root move is reached. *)
Theorem getBestMove_legal (game : Chess) (s : World) :
  let result := fst (getBestMove env settings game s) in
  let legal :=
    exists m, In m (moves game) /\ result = Normal (Some (toAIMove m)) in
  (moves game = [] -> result = Normal None)
  /\ (moves game <> [] ->
      (difficulty settings = easy -> randomInRange env -> legal)
      /\ (difficulty settings = medium -> legal)
      /\ (difficulty settings = hard ->
          (result = Normal None \/ legal)
          /\ ((1 <= depth settings)%Z ->
              (clock env (S (clockReads s))
               <= clock env (clockReads s) + limitOf settings)%Z ->
              legal))).
Proof.
  cbv zeta. split.
  - unfold getBestMove. intros ->. reflexivity.
  - intros Hne. split; [|split].
    + intros Hd Hrange. now apply getBestMove_easy_legal.
    + intros Hd. now apply getBestMove_medium_legal.
    + intros Hd. split.
      * now apply getBestMove_hard_none_or_legal.
      * intros Hdepth Hclk. now apply getBestMove_hard_legal.
Qed.
End Legality.

Lemma calmEnv_randomInRange : randomInRange calmEnv.
Proof.
  intros k. cbn. split; [lra|]. split; [lra|]. vm_compute. reflexivity.
Qed.

(** C1 (amended) on [mateInOne] at the three tiers, and on a position with
    no legal move. *)
Lemma getBestMove_legal_witness :
  (exists m, In m (moves mateInOne)
     /\ fst (getBestMove calmEnv (createChessAI easy) mateInOne world0)
        = Normal (Some (toAIMove m)))
  /\ (exists m, In m (moves mateInOne)
     /\ fst (getBestMove calmEnv (createChessAI medium) mateInOne world0)
        = Normal (Some (toAIMove m)))
  /\ (exists m, In m (moves mateInOne)
     /\ fst (getBestMove calmEnv (createChessAI hard) mateInOne world0)
        = Normal (Some (toAIMove m)))
  /\ fst (getBestMove calmEnv (createChessAI hard) stalemate world0)
     = Normal None.
Proof.
  assert (Hne : moves mateInOne <> []) by discriminate.
  split; [|split; [|split]].
  - destruct (proj2 (getBestMove_legal calmEnv (createChessAI easy)
                       mateInOne world0) Hne) as (Heasy & _ & _).
    apply Heasy; [reflexivity|exact calmEnv_randomInRange].
  - destruct (proj2 (getBestMove_legal calmEnv (createChessAI medium)
                       mateInOne world0) Hne) as (_ & Hmedium & _).
    apply Hmedium. reflexivity.
  - destruct (proj2 (getBestMove_legal calmEnv (createChessAI hard)
                       mateInOne world0) Hne) as (_ & _ & Hhard).
    apply (proj2 (Hhard eq_refl)); apply Z.leb_le; reflexivity.
  - apply (proj1 (getBestMove_legal calmEnv (createChessAI hard)
                    stalemate world0)). reflexivity.
Defined.

(** C1 as stated fails: at the hard tier of [createChessAI], when the clock
    has moved two seconds between the start of the call and the first root
    move, a position with legal moves gets no move. *)
Lemma getBestMove_hard_late_counterexample :
  moves mateInOne <> []
  /\ fst (getBestMove lateEnv (createChessAI hard) mateInOne world0)
     = Normal None
  /\ ~ (exists m, In m (moves mateInOne)
          /\ fst (getBestMove lateEnv (createChessAI hard) mateInOne world0)
             = Normal (Some (toAIMove m))).
Proof.
  split; [discriminate|]. split; [reflexivity|].
  intros (m & _ & H). vm_compute in H. discriminate H.
Qed.

(** ** The order of numbers *)

Lemma Qlt_bool_iff (x y : Q) : Qlt_bool x y = true <-> x < y.
Proof.
  unfold Qlt_bool. rewrite negb_true_iff.
  destruct (Qle_bool y x) eqn:E.
  - apply Qle_bool_iff in E. split; [discriminate|lra].
  - split; [intros _|reflexivity].
    apply Qnot_le_lt. intros H. apply Qle_bool_iff in H. congruence.
Qed.

Lemma nlt_iff (a c : number) :
  nlt a c <->
  match a, c with
  | _, NegInfinity => False
  | NegInfinity, _ => True
  | Infinity, _ => False
  | Num _, Infinity => True
  | Num x, Num y => x < y
  end.
Proof.
  unfold nlt. destruct a, c; simpl; try rewrite Qlt_bool_iff;
    intuition discriminate.
Qed.

Lemma nle_iff (a c : number) :
  nle a c <->
  match a, c with
  | NegInfinity, _ => True
  | _, Infinity => True
  | Num x, Num y => x <= y
  | _, _ => False
  end.
Proof.
  unfold nle, num_le. rewrite negb_true_iff.
  destruct a as [|x|], c as [|y|]; simpl; try (intuition discriminate).
  destruct (Qlt_bool y x) eqn:E.
  - apply Qlt_bool_iff in E. split; [discriminate|lra].
  - split; [intros _|reflexivity].
    apply Qnot_lt_le. intros H. apply Qlt_bool_iff in H. congruence.
Qed.

(** Numbers are totally ordered; the instance feeds the order tactic of the
    standard library. *)
Module NumberOrder.
Definition t := number.
Definition eq := num_eq.
Definition lt := nlt.
Definition le := nle.

#[global] Instance eq_equiv : Equivalence eq.
Proof.
  split.
  - intros []; simpl; auto. reflexivity.
  - intros [] []; simpl; auto. intros; now symmetry.
  - intros [] [] []; simpl; auto; try tauto. intros; etransitivity; eauto.
Qed.

#[global] Instance lt_strorder : StrictOrder lt.
Proof.
  split.
  - intros a H. apply nlt_iff in H. destruct a; auto. lra.
  - intros a c d H1 H2. apply nlt_iff in H1, H2. apply nlt_iff.
    destruct a, c, d; auto; try tauto. lra.
Qed.

#[global] Instance lt_compat : Proper (eq ==> eq ==> iff) lt.
Proof.
  intros a a' Ha c c' Hc. unfold lt. rewrite !nlt_iff.
  destruct a, a', c, c'; simpl in *; try tauto. split; lra.
Qed.

Lemma le_lteq (x y : t) : le x y <-> lt x y \/ eq x y.
Proof.
  unfold le, lt. rewrite nle_iff, nlt_iff.
  destruct x as [|x|], y as [|y|]; simpl; try tauto. split; [|lra].
  intros H. destruct (Qlt_le_dec x y); [now left|right; lra].
Qed.

Lemma lt_total (x y : t) : lt x y \/ eq x y \/ lt y x.
Proof.
  unfold lt. rewrite !nlt_iff.
  destruct x as [|x|], y as [|y|]; simpl; try tauto.
  destruct (Q_dec x y) as [[H|H]|H]; auto.
Qed.
End NumberOrder.

Module NumberTac := MakeOrderTac NumberOrder NumberOrder.

Ltac num_order :=
  change num_eq with NumberOrder.eq in *;
  change nlt with NumberOrder.lt in *;
  change nle with NumberOrder.le in *;
  NumberTac.order.

Lemma num_lt_false (a c : number) : num_lt a c = false <-> nle c a.
Proof. unfold nle, num_le. now rewrite negb_true_iff. Qed.

Lemma NegInfinity_least (a : number) : nle NegInfinity a.
Proof. apply nle_iff. exact I. Qed.

Lemma Infinity_greatest (a : number) : nle a Infinity.
Proof. apply nle_iff. now destruct a. Qed.

(** Decide one comparison, keeping the outcome as a proposition. *)
Ltac num_split a c :=
  let E := fresh "E" in
  destruct (num_lt a c) eqn:E;
  [change (nlt a c) in E | apply num_lt_false in E].

(** Decide every comparison that a [Math.max], a [Math.min] or a test of
    the program makes. *)
Ltac num_cases :=
  unfold better, num_gt, num_le, Math_max, Math_min in *;
  repeat match goal with
    | |- context [num_lt ?a ?c] => num_split a c
    | H : context [num_lt ?a ?c] |- _ => num_split a c
    end;
  cbn [negb] in *.

(** Use the implications whose premise follows from the order facts at
    hand, drop the others. *)
Ltac num_use :=
  repeat match goal with
    | H : ?P -> _ |- _ =>
        first [ specialize (H ltac:(num_order)) | clear H ]
    end.

Lemma better_compat (isWhite : bool) (a a' c c' : number) :
  num_eq a a' -> num_eq c c' -> better isWhite a c = better isWhite a' c'.
Proof.
  intros Ha Hc. destruct isWhite; num_cases; try reflexivity;
    exfalso; num_order.
Qed.

(** ** Alpha-beta against full minimax *)

Lemma fold_max_acc (f : Move -> number) (l : list Move) (acc : number) :
  num_eq (fold_left (fun a mv => Math_max a (f mv)) l acc)
         (Math_max acc (fold_left (fun a mv => Math_max a (f mv)) l NegInfinity)).
Proof.
  revert acc. induction l as [|mv rest IH]; intros acc; cbn [fold_left].
  - pose proof (NegInfinity_least acc). num_cases; num_order.
  - pose proof (IH (Math_max acc (f mv))) as H1.
    pose proof (IH (Math_max NegInfinity (f mv))) as H2.
    pose proof (NegInfinity_least (f mv)) as H3.
    set (x := f mv) in *.
    set (r := fold_left _ rest NegInfinity) in *.
    set (p := fold_left _ rest (Math_max acc x)) in *.
    set (q := fold_left _ rest (Math_max NegInfinity x)) in *.
    clearbody x r p q. clear IH.
    num_cases; num_order.
Qed.

Lemma fold_min_acc (f : Move -> number) (l : list Move) (acc : number) :
  num_eq (fold_left (fun a mv => Math_min a (f mv)) l acc)
         (Math_min acc (fold_left (fun a mv => Math_min a (f mv)) l Infinity)).
Proof.
  revert acc. induction l as [|mv rest IH]; intros acc; cbn [fold_left].
  - pose proof (Infinity_greatest acc). num_cases; num_order.
  - pose proof (IH (Math_min acc (f mv))) as H1.
    pose proof (IH (Math_min Infinity (f mv))) as H2.
    pose proof (Infinity_greatest (f mv)) as H3.
    set (x := f mv) in *.
    set (r := fold_left _ rest Infinity) in *.
    set (p := fold_left _ rest (Math_min acc x)) in *.
    set (q := fold_left _ rest (Math_min Infinity x)) in *.
    clearbody x r p q. clear IH.
    num_cases; num_order.
Qed.

Section Window.
Context {Chess : Type} {engine : RulesEngine Chess}.
Variable child : Chess -> bool -> number -> number -> M number.
Variable full : Chess -> bool -> number.
Variable game : Chess.
Hypothesis child_within :
  forall g isMax alpha beta s, nlt alpha beta ->
    within alpha beta (full g isMax) (fst (child g isMax alpha beta s)).

Lemma maxLoop_within (beta : number) (l : list Move) :
  forall alpha maxEval s,
    nlt alpha beta -> nle maxEval alpha ->
    let v := fst (maxLoop child game beta l alpha maxEval s) in
    let t := fold_left (fun a mv => Math_max a (full (move game mv) false)) l
               NegInfinity in
    within alpha beta t v /\ nle maxEval v.
Proof.
  induction l as [|mv rest IH]; intros alpha maxEval s Hab Hma; cbv zeta.
  - cbn [maxLoop fold_left ret fst]. unfold within.
    pose proof (NegInfinity_least alpha).
    repeat split; intros; num_order.
  - rewrite maxLoop_cons. cbv zeta. cbn [fold_left].
    pose proof (fold_max_acc (fun mv => full (move game mv) false) rest
                  (Math_max NegInfinity (full (move game mv) false))) as Hfold.
    cbv beta in Hfold.
    pose proof (child_within (move game mv) false s Hab) as Hc.
    set (ev := fst (child (move game mv) false alpha beta s)) in *.
    set (s1 := snd (child (move game mv) false alpha beta s)) in *.
    pose proof (NegInfinity_least (full (move game mv) false)) as Hneg.
    set (t1 := full (move game mv) false) in *.
    set (trest := fold_left _ rest NegInfinity) in *.
    set (t := fold_left _ rest (Math_max NegInfinity t1)) in *.
    destruct Hc as (HcA & HcB & HcC).
    destruct (num_le beta (Math_max alpha ev)) eqn:Hprune.
    + cbn [fst]. clearbody ev t1 trest t. clear IH. unfold within.
      num_split alpha t1; num_split t1 beta; num_use;
        num_cases; try discriminate; repeat split; intros; num_order.
    + assert (Hab' : nlt (Math_max alpha ev) beta).
      { clearbody ev. num_cases; try discriminate; num_order. }
      assert (Hma' : nle (Math_max maxEval ev) (Math_max alpha ev)).
      { clearbody ev. num_cases; num_order. }
      destruct (IH (Math_max alpha ev) (Math_max maxEval ev) s1 Hab' Hma')
        as ((HA & HB & HC) & HD).
      fold trest in HA, HB, HC.
      set (v := fst (maxLoop child game beta rest _ _ s1)) in *.
      clearbody ev t1 trest t v. clear IH Hprune. unfold within.
      num_split alpha t1; num_split t1 beta;
        num_split (Math_max alpha ev) trest; num_split trest beta; num_use;
        num_cases; try discriminate; repeat split; intros; num_order.
Qed.

Lemma minLoop_within (alpha : number) (l : list Move) :
  forall beta minEval s,
    nlt alpha beta -> nle beta minEval ->
    let v := fst (minLoop child game alpha l beta minEval s) in
    let t := fold_left (fun a mv => Math_min a (full (move game mv) true)) l
               Infinity in
    within alpha beta t v /\ nle v minEval.
Proof.
  induction l as [|mv rest IH]; intros beta minEval s Hab Hma; cbv zeta.
  - cbn [minLoop fold_left ret fst]. unfold within.
    pose proof (Infinity_greatest beta).
    repeat split; intros; num_order.
  - rewrite minLoop_cons. cbv zeta. cbn [fold_left].
    pose proof (fold_min_acc (fun mv => full (move game mv) true) rest
                  (Math_min Infinity (full (move game mv) true))) as Hfold.
    cbv beta in Hfold.
    pose proof (child_within (move game mv) true s Hab) as Hc.
    set (ev := fst (child (move game mv) true alpha beta s)) in *.
    set (s1 := snd (child (move game mv) true alpha beta s)) in *.
    pose proof (Infinity_greatest (full (move game mv) true)) as Hpos.
    set (t1 := full (move game mv) true) in *.
    set (trest := fold_left _ rest Infinity) in *.
    set (t := fold_left _ rest (Math_min Infinity t1)) in *.
    destruct Hc as (HcA & HcB & HcC).
    destruct (num_le (Math_min beta ev) alpha) eqn:Hprune.
    + cbn [fst]. clearbody ev t1 trest t. clear IH. unfold within.
      num_split alpha t1; num_split t1 beta; num_use;
        num_cases; try discriminate; repeat split; intros; num_order.
    + assert (Hab' : nlt alpha (Math_min beta ev)).
      { clearbody ev. num_cases; try discriminate; num_order. }
      assert (Hma' : nle (Math_min beta ev) (Math_min minEval ev)).
      { clearbody ev. num_cases; num_order. }
      destruct (IH (Math_min beta ev) (Math_min minEval ev) s1 Hab' Hma')
        as ((HA & HB & HC) & HD).
      fold trest in HA, HB, HC.
      set (v := fst (minLoop child game alpha rest _ _ s1)) in *.
      clearbody ev t1 trest t v. clear IH Hprune. unfold within.
      num_split alpha t1; num_split t1 beta;
        num_split alpha trest; num_split trest (Math_min beta ev); num_use;
        num_cases; try discriminate; repeat split; intros; num_order.
Qed.
End Window.

(** The deadline is never reached and no noise is added. *)
Section Equivalence.
Context {Chess : Type} {engine : RulesEngine Chess}.
Variable env : Environment.
Variable settings : AISettings.
Variable deadline : Z.
Hypothesis isHard : difficulty settings = hard.
Hypothesis inTime : forall k, (clock env k <= deadline)%Z.

Lemma deadline_not_passed (s : World) :
  (deadline <? clock env (clockReads s))%Z = false.
Proof. apply Z.ltb_ge, inTime. Qed.

Lemma within_exact (alpha beta t : number) : within alpha beta t t.
Proof. unfold within. repeat split; intros; num_order. Qed.

Lemma minimax_within (depth : nat) :
  forall game isMax alpha beta s,
    nlt alpha beta ->
    within alpha beta (fullMinimax depth game isMax)
      (fst (minimax env settings depth deadline game isMax alpha beta s)).
Proof.
  induction depth as [|d IH]; intros game isMax alpha beta s Hab.
  - rewrite minimax_O, evaluatePosition_hard by assumption.
    apply within_exact.
  - rewrite minimax_S, deadline_not_passed. cbn [orb fullMinimax].
    destruct (isGameOver game).
    + rewrite evaluatePosition_hard by assumption. apply within_exact.
    + rewrite orderMoves_partition. destruct isMax.
      * apply (maxLoop_within (minimax env settings d deadline)
                 (fullMinimax d) game IH); [exact Hab|].
        apply NegInfinity_least.
      * apply (minLoop_within (minimax env settings d deadline)
                 (fullMinimax d) game IH); [exact Hab|].
        apply Infinity_greatest.
Qed.

Lemma minimax_full (depth : nat) (game : Chess) (isMax : bool) (s : World) :
  num_eq (fst (minimax env settings depth deadline game isMax
                 NegInfinity Infinity s))
         (fullMinimax depth game isMax).
Proof.
  assert (Hab : nlt NegInfinity Infinity) by reflexivity.
  destruct (minimax_within depth game isMax s Hab) as (HA & HB & HC).
  set (v := fst _) in *. set (t := fullMinimax depth game isMax) in *.
  pose proof (NegInfinity_least v). pose proof (Infinity_greatest v).
  pose proof (NegInfinity_least t). pose proof (Infinity_greatest t).
  clearbody v t.
  num_split NegInfinity t; num_split t Infinity; num_use; num_order.
Qed.

Lemma rootLoop_full (depth : nat) (game : Chess) (isWhite : bool)
    (l : list Move) :
  forall bestScore bestScore' bestMove s,
    num_eq bestScore bestScore' ->
    fst (rootLoop env settings depth deadline game isWhite l
           bestScore bestMove s)
    = fullBest depth game isWhite l bestScore' bestMove.
Proof.
  induction l as [|mv rest IH]; intros bestScore bestScore' bestMove s Hbs.
  - reflexivity.
  - rewrite rootLoop_cons, deadline_not_passed. cbv zeta. cbn [fullBest].
    pose proof (minimax_full (depth - 1) (move game mv)
                  (Color_eqb (turn (move game mv)) White) (tick s)) as Hsc.
    rewrite (better_compat isWhite _ _ _ _ Hsc Hbs).
    destruct (better isWhite _ bestScore'); now apply IH.
Qed.

Lemma deepen_full (game : Chess) (depths : list nat) :
  forall selected s,
    fst (deepen env settings deadline game (Color_eqb (turn game) White)
           (orderMoves (moves game)) depths selected s)
    = fold_left
        (fun sel depth => keep (fullBestAtDepth depth game) sel)
        depths selected.
Proof.
  induction depths as [|d rest IH]; intros selected s.
  - reflexivity.
  - rewrite deepen_cons. cbv zeta. rewrite deadline_not_passed.
    rewrite IH. cbn [fold_left]. f_equal. f_equal.
    unfold fullBestAtDepth. rewrite <- orderMoves_partition.
    apply rootLoop_full. destruct (Color_eqb (turn game) White); exact I.
Qed.
End Equivalence.

Lemma fullSelect_S {Chess : Type} {engine : RulesEngine Chess}
    (n : nat) (game : Chess) :
  fullSelect (S n) game
  = keep (fullBestAtDepth (S n) game) (fullSelect n game).
Proof.
  unfold fullSelect. rewrite seq_S, fold_left_app. reflexivity.
Qed.

Lemma fullBestAtDepth_no_moves {Chess : Type} {engine : RulesEngine Chess}
    (d : nat) (game : Chess) :
  moves game = [] -> fullBestAtDepth d game = None.
Proof. intros H. unfold fullBestAtDepth. now rewrite H. Qed.

Lemma fullSelect_no_moves {Chess : Type} {engine : RulesEngine Chess}
    (n : nat) (game : Chess) :
  moves game = [] -> fullSelect n game = None.
Proof.
  intros H. induction n as [|n IH]; [reflexivity|].
  rewrite fullSelect_S, IH, fullBestAtDepth_no_moves by assumption.
  reflexivity.
Qed.

Section AlphaBeta.
Context {Chess : Type} {engine : RulesEngine Chess}.
Variable env : Environment.
Variable settings : AISettings.

Lemma getBestMove_hard_full (game : Chess) (s : World) :
  difficulty settings = hard ->
  noTimePressure env settings s ->
  fst (getBestMove env settings game s)
  = Normal (option_map toAIMove
              (fullSelect (Z.to_nat (depth settings)) game)).
Proof.
  intros Hd Hfree. rewrite getBestMove_hard_run by assumption.
  destruct (moves game) as [|m0 l] eqn:Hmoves.
  - now rewrite fullSelect_no_moves.
  - cbv zeta. cbn [fst]. rewrite <- Hmoves.
    now rewrite (deepen_full env settings Hd Hfree).
Qed.

(** C5: at the hard tier, when the deadline is never reached, the move
    chosen by the pruned iterative-deepening search is the move that full
    minimax chooses over the same tree, with captures first and the first
    strictly better move kept; in particular it is the choice of full
    minimax at the configured depth whenever that depth yields a move. *)
Theorem alpha_beta_equivalence (game : Chess) (s : World) :
  difficulty settings = hard ->
  noTimePressure env settings s ->
  let chosen := fst (getBestMove env settings game s) in
  chosen
  = Normal (option_map toAIMove
              (fullSelect (Z.to_nat (depth settings)) game))
  /\ (forall mv,
        (1 <= depth settings)%Z ->
        fullBestAtDepth (Z.to_nat (depth settings)) game = Some mv ->
        chosen = Normal (Some (toAIMove mv))).
Proof.
  intros Hd Hfree. cbv zeta.
  pose proof (getBestMove_hard_full game Hd Hfree) as Heq.
  split; [exact Heq|].
  intros mv Hdepth Hbest. rewrite Heq.
  destruct (Z.to_nat (depth settings)) as [|n] eqn:Hn; [lia|].
  now rewrite fullSelect_S, Hbest.
Qed.
End AlphaBeta.

Lemma calmEnv_noTimePressure :
  noTimePressure calmEnv (createChessAI hard) world0.
Proof. intros k. apply Z.leb_le. reflexivity. Qed.

(** C5 on [mateInOne] with the settings of [createChessAI]. *)
Lemma alpha_beta_equivalence_witness :
  fst (getBestMove calmEnv (createChessAI hard) mateInOne world0)
  = Normal (option_map toAIMove (fullSelect 4 mateInOne))
  /\ fst (getBestMove calmEnv (createChessAI hard) mateInOne world0)
     = Normal (Some (toAIMove Qxa2)).
Proof.
  destruct (@alpha_beta_equivalence Tree treeEngine calmEnv
              (createChessAI hard) mateInOne world0 eq_refl
              calmEnv_noTimePressure) as [Hsel Hfixed].
  split; [exact Hsel|].
  apply Hfixed; [apply Z.leb_le|]; reflexivity.
Defined.


(** ** Mate in one at the hard tier

    C7 as stated fails at the hard tier.  With the settings of
    [createChessAI] and the deadline never reached, the capture Qxa2 is
    tried first and scores the mate it forces two moves later; the mate in
    one, Qb8, scores the same and is not strictly better, so Qxa2 is
    returned.  With depth 2, a deadline that passes after the first root
    move of depth 2 leaves Qxa2 as the best move of that depth. *)
Lemma mate_in_one_missed_counterexample :
  legalTree mateInOne
  /\ matesInOne mateInOne Qb8
  /\ isCheckmate (move mateInOne Qxa2) = false
  /\ noTimePressure calmEnv (createChessAI hard) world0
  /\ fst (getBestMove calmEnv (createChessAI hard) mateInOne world0)
     = Normal (Some (toAIMove Qxa2))
  /\ fst (getBestMove hurriedEnv (mkSettings 2 hard 1500) mateInOne world0)
     = Normal (Some (toAIMove Qxa2))
  /\ ~ (exists mv, matesInOne mateInOne mv
          /\ fst (getBestMove calmEnv (createChessAI hard) mateInOne world0)
             = Normal (Some (toAIMove mv)))
  /\ ~ (exists mv, matesInOne mateInOne mv
          /\ fst (getBestMove hurriedEnv (mkSettings 2 hard 1500) mateInOne
                    world0)
             = Normal (Some (toAIMove mv))).
Proof.
  split; [reflexivity|].
  split; [split; [left; reflexivity|reflexivity]|].
  split; [reflexivity|].
  split; [intros k; apply Z.leb_le; reflexivity|].
  split; [vm_compute; reflexivity|].
  split; [vm_compute; reflexivity|].
  split; intros (mv & (Hin & Hmate) & Hres);
    destruct Hin as [<-|[<-|[]]];
    try discriminate Hmate; vm_compute in Hres; discriminate Hres.
Qed.

(** ** Bounds on the board sum *)

Lemma squareTerm_piece (brd : Board) (rank file : nat) :
  squareTerm brd rank file
  = match squareAt brd rank file with
    | None => 0
    | Some piece => pieceTerm piece rank file
    end.
Proof. reflexivity. Qed.

Lemma cells_ok :
  forallb (fun piece => forallb (cellOk piece) cells) allPieces = true.
Proof. vm_compute. reflexivity. Qed.

Lemma allPieces_complete (piece : Piece) : In piece allPieces.
Proof. destruct piece as [[] []]; simpl; tauto. Qed.

Lemma squareTerm_bound (brd : Board) (cell : nat * nat) :
  In cell cells ->
  let x := squareTerm brd (fst cell) (snd cell)
           - kingShare (squareAt brd (fst cell) (snd cell)) in
  -9.5 <= x /\ x <= 9.5.
Proof.
  intros Hin. cbv zeta. rewrite squareTerm_piece.
  destruct (squareAt brd (fst cell) (snd cell)) as [piece|].
  - pose proof cells_ok as Hok. rewrite forallb_forall in Hok.
    specialize (Hok piece (allPieces_complete piece)).
    rewrite forallb_forall in Hok. specialize (Hok cell Hin).
    unfold cellOk in Hok. apply andb_true_iff in Hok.
    destruct Hok as [Hlo Hhi]. apply Qle_bool_iff in Hlo, Hhi. now split.
  - cbn [kingShare]. split; lra.
Qed.

Lemma boardScore_cells (brd : Board) :
  boardScore brd
  == sumQ (map (fun cell => squareTerm brd (fst cell) (snd cell)) cells).
Proof.
  rewrite boardScore_sum. unfold rankTerm. cbn -[squareTerm]. ring.
Qed.

Lemma squaresOf_cells (brd : Board) :
  squaresOf brd = map (fun cell => squareAt brd (fst cell) (snd cell)) cells.
Proof. reflexivity. Qed.

Lemma sumQ_bounds {A} (g : A -> Q) (lo hi : Q) (l : list A) :
  (forall x, In x l -> lo <= g x /\ g x <= hi) ->
  lo * inject_Z (Z.of_nat (length l)) <= sumQ (map g l)
  /\ sumQ (map g l) <= hi * inject_Z (Z.of_nat (length l)).
Proof.
  induction l as [|x l IH]; intros Hg.
  - cbn [length map sumQ]. change (inject_Z (Z.of_nat 0)) with 0.
    split; lra.
  - cbn [length map sumQ]. rewrite Nat2Z.inj_succ, <- Z.add_1_r.
    rewrite inject_Z_plus.
    destruct (Hg x (or_introl eq_refl)) as [Hlo Hhi].
    destruct IH as [IHlo IHhi]; [intros y Hy; apply Hg; now right|].
    change (inject_Z 1) with 1. split; lra.
Qed.

Lemma kingShare_count (l : list (option Piece)) :
  sumQ (map kingShare l)
  == 100 * inject_Z (Z.of_nat (length (filter (isKingOf White) l)))
     - 100 * inject_Z (Z.of_nat (length (filter (isKingOf Black) l))).
Proof.
  induction l as [|sq l IH]; [simpl; lra|].
  cbn [map sumQ filter]. rewrite IH.
  destruct sq as [[[] []]|]; cbn [isKingOf Color_eqb kingShare length];
    rewrite ?Nat2Z.inj_succ, <- ?Z.add_1_r, ?inject_Z_plus;
    change (inject_Z 1) with 1; lra.
Qed.

Lemma sumQ_split {A} (g h : A -> Q) (l : list A) :
  sumQ (map g l) == sumQ (map (fun x => g x - h x) l) + sumQ (map h l).
Proof. induction l as [|x l IH]; simpl; [lra|]. rewrite IH. lra. Qed.

Lemma boardScore_bound (brd : Board) :
  oneKingEach brd = true ->
  -608 <= boardScore brd /\ boardScore brd <= 608.
Proof.
  intros Hk. unfold oneKingEach, countKings in Hk.
  apply andb_true_iff in Hk. destruct Hk as [Hw Hb].
  apply Nat.eqb_eq in Hw, Hb.
  rewrite boardScore_cells.
  rewrite (sumQ_split (fun cell => squareTerm brd (fst cell) (snd cell))
             (fun cell => kingShare (squareAt brd (fst cell) (snd cell)))).
  pose proof (kingShare_count (squaresOf brd)) as Hcount.
  rewrite Hw, Hb, squaresOf_cells, map_map in Hcount.
  rewrite Hcount.
  destruct (@sumQ_bounds _
              (fun cell => squareTerm brd (fst cell) (snd cell)
                           - kingShare (squareAt brd (fst cell) (snd cell)))
              (-9.5) 9.5 cells (squareTerm_bound brd)) as [Hlo Hhi].
  change (inject_Z (Z.of_nat (length cells))) with 64 in Hlo, Hhi.
  change (inject_Z (Z.of_nat 1)) with 1. split; lra.
Qed.

(** ** Mate in one *)

Lemma worse_worst (isWhite : bool) : worse isWhite (worst isWhite).
Proof. destruct isWhite; reflexivity. Qed.

Lemma worse_bounded (isWhite : bool) (x : Q) :
  -609 <= x -> x <= 609 -> worse isWhite (Num x).
Proof.
  intros Hlo Hhi. destruct isWhite; unfold worse; apply nlt_iff; lra.
Qed.

Lemma better_after_mate (isWhite : bool) (x bestScore : number) :
  num_eq x (Num (mateScore isWhite)) \/ worse isWhite x ->
  num_eq bestScore (Num (mateScore isWhite)) ->
  better isWhite x bestScore = false.
Proof.
  intros Hx Hbs. destruct isWhite; unfold worse, mateScore in *;
    set (m := Num _) in *; clearbody m;
    num_cases; try reflexivity; exfalso; destruct Hx; num_order.
Qed.

Lemma better_mate (isWhite : bool) (x bestScore : number) :
  num_eq x (Num (mateScore isWhite)) ->
  worse isWhite bestScore ->
  better isWhite x bestScore = true.
Proof.
  intros Hx Hbs. destruct isWhite; unfold worse, mateScore in *;
    set (m := Num _) in *; clearbody m;
    num_cases; try reflexivity; exfalso; num_order.
Qed.

Lemma fold_min_below (f : Move -> number) (l : list Move) (acc : number) :
  nle (fold_left (fun a mv => Math_min a (f mv)) l acc) acc
  /\ forall x, In x l ->
       nle (fold_left (fun a mv => Math_min a (f mv)) l acc) (f x).
Proof.
  revert acc. induction l as [|mv rest IH]; intros acc; cbn [fold_left].
  - split; [num_order|intros x []].
  - destruct (IH (Math_min acc (f mv))) as [Hacc Hin].
    set (r := fold_left _ rest _) in *. split.
    + set (y := f mv) in *. clearbody r y. clear Hin. num_cases; num_order.
    + intros x [<-|Hx]; [|now apply Hin].
      set (y := f mv) in *. clearbody r y. clear Hin. num_cases; num_order.
Qed.

Lemma fold_max_above (f : Move -> number) (l : list Move) (acc : number) :
  nle acc (fold_left (fun a mv => Math_max a (f mv)) l acc)
  /\ forall x, In x l ->
       nle (f x) (fold_left (fun a mv => Math_max a (f mv)) l acc).
Proof.
  revert acc. induction l as [|mv rest IH]; intros acc; cbn [fold_left].
  - split; [num_order|intros x []].
  - destruct (IH (Math_max acc (f mv))) as [Hacc Hin].
    set (r := fold_left _ rest _) in *. split.
    + set (y := f mv) in *. clearbody r y. clear Hin. num_cases; num_order.
    + intros x [<-|Hx]; [|now apply Hin].
      set (y := f mv) in *. clearbody r y. clear Hin. num_cases; num_order.
Qed.

Section MateInOne.
Context {Chess : Type} {engine : RulesEngine Chess}.
Variable legal : Chess -> Prop.
Hypothesis laws : EngineLaws legal.
Variable game : Chess.
Hypothesis legal_game : legal game.

Lemma staticScore_bound (g : Chess) :
  legal g -> isCheckmate g = false ->
  -608 <= staticScore g /\ staticScore g <= 608.
Proof.
  intros Hg Hmate. unfold staticScore. rewrite Hmate.
  destruct (isDraw g); [split; lra|].
  apply boardScore_bound. now apply (legal_kings laws).
Qed.

Lemma staticScore_side (g : Chess) :
  legal g ->
  (turn g = White -> staticScore g <= 608)
  /\ (turn g = Black -> -608 <= staticScore g).
Proof.
  intros Hg. destruct (isCheckmate g) eqn:Hmate.
  - unfold staticScore. rewrite Hmate.
    split; intros ->; lra.
  - destruct (staticScore_bound Hg Hmate). now split.
Qed.

Lemma staticScore_mate (mv : Move) :
  In mv (moves game) -> isCheckmate (move game mv) = true ->
  staticScore (move game mv)
  = mateScore (Color_eqb (turn game) White).
Proof.
  intros Hin Hmate. unfold staticScore. rewrite Hmate.
  rewrite (turn_move laws) by assumption.
  now destruct (turn game).
Qed.

Lemma scan_settled (l : list (Move * number)) :
  Forall (scoredOk game) l ->
  forall bestScore bestMove,
    num_eq bestScore (Num (mateScore (Color_eqb (turn game) White))) ->
    scan (Color_eqb (turn game) White) l bestScore bestMove = bestMove.
Proof.
  induction 1 as [|[mv x] rest (Hin & Hm & Hw) _ IH];
    intros bestScore bestMove Hbs; cbn [scan]; [reflexivity|].
  cbn [fst snd] in *.
  rewrite better_after_mate; [now apply IH| |exact Hbs].
  destruct (isCheckmate (move game mv)); [left|right]; auto.
Qed.

Lemma scan_finds (l : list (Move * number)) :
  Forall (scoredOk game) l ->
  forall bestScore bestMove,
    worse (Color_eqb (turn game) White) bestScore ->
    Exists (fun p => isCheckmate (move game (fst p)) = true) l ->
    exists mv, scan (Color_eqb (turn game) White) l bestScore bestMove
               = Some mv
      /\ matesInOne game mv.
Proof.
  induction 1 as [|[mv x] rest (Hin & Hm & Hw) Hrest IH];
    intros bestScore bestMove Hbs Hex; [inversion Hex|].
  cbn [scan fst snd] in *.
  destruct (isCheckmate (move game mv)) eqn:Hmate.
  - rewrite better_mate by auto.
    rewrite scan_settled by auto.
    exists mv. split; [reflexivity|now split].
  - assert (Hex' : Exists (fun p => isCheckmate (move game (fst p)) = true)
                     rest).
    { inversion Hex as [? ? Hhd|? ? Htl]; subst; [|exact Htl].
      cbn [fst] in Hhd. congruence. }
    destruct (better _ x bestScore); apply IH; auto.
Qed.

Lemma scored_exists (l : list Move) (score : Move -> number) (mv : Move) :
  In mv l -> isCheckmate (move game mv) = true ->
  Exists (fun p => isCheckmate (move game (fst p)) = true)
    (map (fun m => (m, score m)) l).
Proof.
  intros Hin Hmate. apply Exists_exists.
  exists (mv, score mv). split; [|exact Hmate].
  apply in_map_iff. now exists mv.
Qed.
End MateInOne.

Section MateSearch.
Context {Chess : Type} {engine : RulesEngine Chess}.
Variable env : Environment.
Variable settings : AISettings.
Variable legal : Chess -> Prop.
Hypothesis laws : EngineLaws legal.
Variable game : Chess.
Hypothesis legal_game : legal game.

Lemma mediumLoop_scan (isWhite : bool) (l : list Move) :
  forall bestScore bestMove s,
    fst (mediumLoop env settings game isWhite l bestScore bestMove s)
    = scan isWhite (mediumScores env settings game l s) bestScore bestMove.
Proof.
  induction l as [|mv rest IH]; intros bestScore bestMove s.
  - reflexivity.
  - rewrite mediumLoop_cons. cbn [mediumScores scan]. cbv zeta.
    destruct (better isWhite _ bestScore); apply IH.
Qed.

Lemma fullBest_scan (depth : nat) (isWhite : bool) (l : list Move) :
  forall bestScore bestMove,
    fullBest depth game isWhite l bestScore bestMove
    = scan isWhite (fullScores depth game l) bestScore bestMove.
Proof.
  induction l as [|mv rest IH]; intros bestScore bestMove.
  - reflexivity.
  - cbn [fullBest fullScores map scan].
    destruct (better isWhite _ bestScore); apply IH.
Qed.

Lemma evaluatePosition_bound (g : Chess) (s : World) :
  legal g -> randomInRange env -> isCheckmate g = false ->
  -609 <= fst (evaluatePosition env settings g s)
  /\ fst (evaluatePosition env settings g s) <= 609.
Proof.
  intros Hg Hrange Hmate. unfold evaluatePosition. rewrite Hmate.
  destruct (isDraw g); [cbn; split; lra|].
  destruct (boardScore_bound _ (legal_kings laws g Hg)) as [Hlo Hhi].
  destruct (Hrange (randomDraws s)) as (H0 & H1 & _).
  pose proof (noise_easy _ H0 H1) as Heasy.
  pose proof (noise_medium _ H0 H1) as Hmedium.
  destruct (difficulty settings); rewrite ?bind_run; cbn [Math_random ret fst];
    [| |split; lra]; apply double_range; try reflexivity; lra.
Qed.

Lemma evaluatePosition_mate (mv : Move) (s : World) :
  In mv (moves game) -> isCheckmate (move game mv) = true ->
  fst (evaluatePosition env settings (move game mv) s)
  = mateScore (Color_eqb (turn game) White).
Proof.
  intros Hin Hmate. unfold evaluatePosition. rewrite Hmate.
  rewrite (turn_move laws) by assumption.
  now destruct (turn game).
Qed.

Lemma mediumScores_ok (l : list Move) :
  randomInRange env ->
  (forall mv, In mv l -> In mv (moves game)) ->
  forall s, Forall (scoredOk game) (mediumScores env settings game l s).
Proof.
  intros Hrange. induction l as [|mv rest IH]; intros Hsub s;
    cbn [mediumScores]; constructor.
  - assert (Hin : In mv (moves game)) by (apply Hsub; now left).
    split; [exact Hin|]. cbn [fst snd]. split; intros Hmate.
    + rewrite evaluatePosition_mate by assumption.
      apply (@Equivalence_Reflexive _ _ NumberOrder.eq_equiv).
    + destruct (evaluatePosition_bound (g := move game mv) s) as [Hlo Hhi];
        [now apply (legal_move laws)|assumption..|].
      now apply worse_bounded.
  - apply IH. intros m Hm. apply Hsub. now right.
Qed.

Lemma mediumScores_exists (l : list Move) (mv : Move) :
  In mv l -> isCheckmate (move game mv) = true ->
  forall s,
    Exists (fun p => isCheckmate (move game (fst p)) = true)
      (mediumScores env settings game l s).
Proof.
  intros Hin Hmate. induction l as [|m rest IH]; intros s; [contradiction|].
  cbn [mediumScores]. destruct Hin as [->|Hin].
  - now left.
  - right. now apply IH.
Qed.

(** A root move that does not mate: full minimax one ply below it stays
    strictly short of the mate score. *)
Lemma reply_worse (mv : Move) :
  In mv (moves game) -> isCheckmate (move game mv) = false ->
  worse (Color_eqb (turn game) White)
    (fullMinimax 1 (move game mv) (Color_eqb (turn (move game mv)) White)).
Proof.
  intros Hin Hmate.
  assert (Hchild : legal (move game mv)) by now apply (legal_move laws).
  pose proof (turn_move laws game mv legal_game Hin) as Hturn.
  cbn [fullMinimax]. destruct (isGameOver (move game mv)) eqn:Hover.
  - destruct (staticScore_bound laws (move game mv) Hchild Hmate).
    apply worse_bounded; lra.
  - destruct (capturesThenQuiets (moves (move game mv))) as [|r rs] eqn:Hl.
    { exfalso. apply (live_moves laws (move game mv) Hchild Hover).
      destruct (moves (move game mv)) as [|m0 l0]; [reflexivity|].
      assert (Hin0 : In m0 (capturesThenQuiets (m0 :: l0))).
      { eapply Permutation_in; [apply partition_Permutation|now left]. }
      rewrite Hl in Hin0. contradiction. }
    assert (Hr : In r (moves (move game mv))).
    { eapply Permutation_in;
        [apply Permutation_sym, partition_Permutation|].
      rewrite Hl. now left. }
    assert (Hgrand : legal (move (move game mv) r))
      by now apply (legal_move laws).
    pose proof (turn_move laws (move game mv) r Hchild Hr) as Hturn2.
    rewrite Hturn in Hturn2 |- *.
    destruct (staticScore_side laws (move (move game mv) r) Hgrand)
      as [Hwhite Hblack].
    destruct (turn game); cbn [opposite Color_eqb] in *.
    + destruct (fold_min_below
                  (fun m => fullMinimax 0 (move (move game mv) m) true)
                  (r :: rs) Infinity) as [_ Hbelow].
      specialize (Hbelow r (or_introl eq_refl)).
      cbn [fullMinimax] in Hbelow |- *.
      set (v := fold_left _ (r :: rs) Infinity) in *. clearbody v.
      unfold worse.
      assert (Hx : nlt (Num (staticScore (move (move game mv) r))) (Num 1000)).
      { apply nlt_iff. specialize (Hwhite Hturn2). lra. }
      num_order.
    + destruct (fold_max_above
                  (fun m => fullMinimax 0 (move (move game mv) m) false)
                  (r :: rs) NegInfinity) as [_ Habove].
      specialize (Habove r (or_introl eq_refl)).
      cbn [fullMinimax] in Habove |- *.
      set (v := fold_left _ (r :: rs) NegInfinity) in *. clearbody v.
      unfold worse.
      assert (Hx : nlt (Num (-1000)) (Num (staticScore (move (move game mv) r)))).
      { apply nlt_iff. specialize (Hblack Hturn2). lra. }
      num_order.
Qed.

Lemma fullScores_ok (depth : nat) (l : list Move) :
  depth = 1%nat \/ depth = 2%nat ->
  (forall mv, In mv l -> In mv (moves game)) ->
  Forall (scoredOk game) (fullScores depth game l).
Proof.
  intros Hdepth Hsub. apply Forall_forall. intros [mv x] Hp.
  apply in_map_iff in Hp. destruct Hp as (m & Heq & Hm).
  inversion Heq; subst m x; clear Heq.
  assert (Hin : In mv (moves game)) by now apply Hsub.
  assert (Hchild : legal (move game mv)) by now apply (legal_move laws).
  split; [exact Hin|]. cbn [fst snd]. split; intros Hmate.
  - assert (Hleaf : fullMinimax (depth - 1) (move game mv)
                      (Color_eqb (turn (move game mv)) White)
                    = Num (staticScore (move game mv))).
    { destruct Hdepth as [->| ->]; cbn [Nat.sub fullMinimax];
        [reflexivity|].
      rewrite (gameOver_iff laws) by assumption. now rewrite Hmate. }
    rewrite Hleaf, (staticScore_mate laws game legal_game) by assumption.
    apply (@Equivalence_Reflexive _ _ NumberOrder.eq_equiv).
  - destruct Hdepth as [->| ->]; cbn [Nat.sub].
    + cbn [fullMinimax].
      destruct (staticScore_bound laws (move game mv) Hchild Hmate).
      apply worse_bounded; lra.
    + now apply reply_worse.
Qed.

Lemma fullBestAtDepth_mate (depth : nat) (mv0 : Move) :
  depth = 1%nat \/ depth = 2%nat ->
  matesInOne game mv0 ->
  exists mv, fullBestAtDepth depth game = Some mv /\ matesInOne game mv.
Proof.
  intros Hdepth [Hin Hmate]. unfold fullBestAtDepth.
  rewrite fullBest_scan.
  assert (Hsub : forall mv, In mv (capturesThenQuiets (moves game)) ->
                            In mv (moves game)).
  { intros mv Hmv. eapply Permutation_in;
      [apply Permutation_sym, partition_Permutation|exact Hmv]. }
  apply scan_finds.
  - now apply fullScores_ok.
  - apply worse_worst.
  - apply scored_exists with (mv := mv0); [|exact Hmate].
    eapply Permutation_in; [apply partition_Permutation|exact Hin].
Qed.
End MateSearch.

Section Found.
Context {Chess : Type} {engine : RulesEngine Chess}.
Variable env : Environment.
Variable settings : AISettings.

(** C7, as the code has it: when the side to move has a mate in one, the
    medium tier returns a mating move, and so does the hard tier with
    depth 1 or 2 when the deadline is never reached. *)
Theorem mate_in_one_found (legal : Chess -> Prop) (game : Chess)
    (mv0 : Move) (s : World) :
  EngineLaws legal -> legal game -> matesInOne game mv0 ->
  (difficulty settings = medium -> randomInRange env ->
   exists mv, matesInOne game mv
     /\ fst (getBestMove env settings game s) = Normal (Some (toAIMove mv)))
  /\ (difficulty settings = hard ->
      (depth settings = 1 \/ depth settings = 2)%Z ->
      noTimePressure env settings s ->
      exists mv, matesInOne game mv
        /\ fst (getBestMove env settings game s)
           = Normal (Some (toAIMove mv))).
Proof.
  intros laws Hlegal Hmate0. split.
  - intros Hd Hrange. destruct Hmate0 as [Hin0 Hmate0].
    unfold getBestMove. rewrite Hd.
    destruct (moves game) as [|m0 l] eqn:Hmoves; [contradiction|].
    rewrite <- Hmoves in *. rewrite bind_run, mediumLoop_scan.
    assert (H : exists mv,
               scan (Color_eqb (turn game) White)
                 (mediumScores env settings game (orderMoves (moves game)) s)
                 (worst (Color_eqb (turn game) White)) None = Some mv
               /\ matesInOne game mv).
    { apply scan_finds.
      - eapply mediumScores_ok; eauto.
        intros mv Hmv. now apply orderMoves_In.
      - apply worse_worst.
      - eapply mediumScores_exists; eauto. now apply orderMoves_In. }
    destruct H as (mv & Hscan & Hmv).
    rewrite Hscan. exists mv. split; [exact Hmv|reflexivity].
  - intros Hd Hdepth Hfree. rewrite getBestMove_hard_full by assumption.
    assert (Hn : Z.to_nat (depth settings) = 1%nat
                 \/ Z.to_nat (depth settings) = 2%nat)
      by (destruct Hdepth as [->| ->]; [left|right]; reflexivity).
    destruct (@fullBestAtDepth_mate _ _ legal laws game Hlegal _ mv0 Hn Hmate0)
      as (mv & Hbest & Hmv).
    exists mv. split; [exact Hmv|].
    destruct Hn as [Hn|Hn]; rewrite Hn in *;
      now rewrite fullSelect_S, Hbest.
Qed.
End Found.

(** ** The game-tree engine obeys the laws *)

Lemma PieceSymbol_eqb_refl (x : PieceSymbol) : PieceSymbol_eqb x x = true.
Proof. now destruct x. Qed.

Lemma Move_eqb_refl (m : Move) : Move_eqb m m = true.
Proof.
  unfold Move_eqb. rewrite !String.eqb_refl.
  destruct (captured m), (promotion m); simpl;
    now rewrite ?PieceSymbol_eqb_refl.
Qed.

Lemma wfTree_node (t : Tree) :
  wfTree t = true ->
  (treeMate t || treeDraw t || negb (Nat.eqb (length (treeReplies t)) 0)
   = true)
  /\ oneKingEach (treeBoard t) = true
  /\ forall p, In p (treeReplies t) ->
       treeSide (snd p) = opposite (treeSide t) /\ wfTree (snd p) = true.
Proof.
  destruct t as [c mt dr brd rs]. cbn [wfTree treeMate treeDraw treeReplies
                                       treeBoard treeSide].
  rewrite !andb_true_iff, forallb_forall. intros [[Hlive Hk] Hrs].
  repeat split; auto.
  - specialize (Hrs p H). apply andb_true_iff in Hrs.
    destruct Hrs as [Hside _]. destruct (treeSide (snd p)), c;
      simpl in *; congruence.
  - specialize (Hrs p H). now apply andb_true_iff in Hrs.
Qed.

Lemma treeMove_reply (t : Tree) (m : Move) :
  In m (moves t) ->
  exists p, In p (treeReplies t) /\ treeMove t m = snd p.
Proof.
  intros Hin. cbn [moves treeEngine] in Hin. apply in_map_iff in Hin.
  destruct Hin as (p & Hfst & Hp). unfold treeMove.
  destruct (find (fun q => Move_eqb m (fst q)) (treeReplies t)) as [q|] eqn:Hf.
  - exists q. split; [|reflexivity]. now apply find_some in Hf.
  - exfalso. pose proof (find_none _ _ Hf p Hp) as Hne. cbv beta in Hne.
    rewrite Hfst, Move_eqb_refl in Hne. discriminate Hne.
Qed.

Lemma treeEngine_laws : EngineLaws legalTree.
Proof.
  split.
  - intros g m Hg Hin. destruct (treeMove_reply g m Hin) as (p & Hp & Heq).
    cbn [move treeEngine]. rewrite Heq.
    now apply (wfTree_node g Hg).
  - intros g m Hg Hin. destruct (treeMove_reply g m Hin) as (p & Hp & Heq).
    cbn [move turn treeEngine]. rewrite Heq.
    now apply (wfTree_node g Hg).
  - reflexivity.
  - intros g Hg Hover Hnil. destruct (wfTree_node g Hg) as (Hlive & _ & _).
    cbn [isGameOver moves treeEngine] in *.
    rewrite Hover in Hlive. cbn [orb] in Hlive.
    destruct (treeReplies g); [discriminate Hlive|discriminate Hnil].
  - intros g Hg. now apply (wfTree_node g Hg).
Qed.

(** C7 (amended) on [mateInOne]: the medium tier of [createChessAI] and
    the hard tier at depth 2. *)
Lemma mate_in_one_found_witness :
  (exists mv, matesInOne mateInOne mv
     /\ fst (getBestMove calmEnv (createChessAI medium) mateInOne world0)
        = Normal (Some (toAIMove mv)))
  /\ (exists mv, matesInOne mateInOne mv
     /\ fst (getBestMove calmEnv (mkSettings 2 hard 1500) mateInOne world0)
        = Normal (Some (toAIMove mv))).
Proof.
  assert (Hmate : matesInOne mateInOne Qb8).
  { split; [left; reflexivity|reflexivity]. }
  split.
  - apply (proj1 (@mate_in_one_found Tree treeEngine calmEnv
                    (createChessAI medium) legalTree mateInOne Qb8 world0
                    treeEngine_laws eq_refl Hmate));
      [reflexivity|exact calmEnv_randomInRange].
  - apply (proj2 (@mate_in_one_found Tree treeEngine calmEnv
                    (mkSettings 2 hard 1500) legalTree mateInOne Qb8 world0
                    treeEngine_laws eq_refl Hmate));
      [reflexivity|right; reflexivity|].
    intros k. apply Z.leb_le. reflexivity.
Defined.

(** * Further properties of the AI *)

(** ** The easy tier *)

Lemma pick_capture (l : list Move) (r : Q) (mv : Move) :
  pick (filter (fun m => truthy (captured m)) l) r = Some mv ->
  In mv l /\ isCapture mv = true.
Proof.
  unfold pick. destruct (_ <? 0)%Z; [discriminate|].
  intros H. apply nth_error_In in H. now apply filter_In in H.
Qed.

Section EasyTier.
Context {Chess : Type} {engine : RulesEngine Chess}.
Variable env : Environment.
Variable settings : AISettings.

(** X1: at the easy tier, when some legal move captures, the move returned
    is a capturing legal move; the call draws one random number and never
    reads the clock. *)
Theorem getBestMove_easy_captures (game : Chess) (s : World) (mv0 : Move) :
  difficulty settings = easy ->
  randomInRange env ->
  In mv0 (moves game) -> isCapture mv0 = true ->
  exists mv,
    In mv (moves game) /\ isCapture mv = true
    /\ getBestMove env settings game s
       = (Normal (Some (toAIMove mv)),
          mkWorld (clockReads s) (S (randomDraws s))).
Proof.
  intros Hd Hrange Hin Hcap. unfold getBestMove. rewrite Hd.
  destruct (moves game) as [|m0 l] eqn:Hmoves; [contradiction|].
  rewrite bind_run. cbn [Math_random fst snd].
  assert (Hmem : In mv0 (filter (fun m => truthy (captured m)) (m0 :: l)))
    by (apply filter_In; split; assumption).
  destruct (filter (fun m => truthy (captured m)) (m0 :: l))
    as [|c cs] eqn:Hf; [contradiction|].
  cbn [length Nat.ltb Nat.leb].
  destruct (Hrange (randomDraws s)) as (H0 & H1 & Hdbl).
  destruct (@pick_In (c :: cs) (random env (randomDraws s)) H0 H1 Hdbl)
    as (mv & Hpick & _); [discriminate|].
  rewrite Hpick. rewrite <- Hf in Hpick.
  destruct (pick_capture _ _ Hpick) as [Hmv Hc].
  exists mv. repeat split; assumption.
Qed.
End EasyTier.

(** X1 on [mateInOne], where Qxa2 is the one capture. *)
Lemma getBestMove_easy_captures_witness :
  exists mv,
    In mv (moves mateInOne) /\ isCapture mv = true
    /\ getBestMove calmEnv (createChessAI easy) mateInOne world0
       = (Normal (Some (toAIMove mv)), mkWorld 0 1).
Proof.
  apply (@getBestMove_easy_captures Tree treeEngine calmEnv
           (createChessAI easy) mateInOne world0 Qxa2).
  - reflexivity.
  - exact calmEnv_randomInRange.
  - right; left; reflexivity.
  - reflexivity.
Defined.

(** ** The noise of the evaluator *)

Lemma isHalf_spec (q : Q) : isHalf q = true -> halfInteger q.
Proof.
  unfold isHalf. intros H. apply Z.eqb_eq in H.
  apply Z.mod_divide in H; [|discriminate].
  destruct H as [k Hk]. exists k.
  destruct q as [a d]. cbn [Qnum Qden] in Hk.
  unfold Qeq. cbn. lia.
Qed.

Lemma halfInteger_plus (x y : Q) :
  halfInteger x -> halfInteger y -> halfInteger (x + y).
Proof.
  intros [a Ha] [c Hc]. exists (a + c)%Z.
  rewrite inject_Z_plus, Ha, Hc. ring.
Qed.

Lemma sumQ_half {A} (g : A -> Q) (l : list A) :
  (forall x, In x l -> halfInteger (g x)) -> halfInteger (sumQ (map g l)).
Proof.
  induction l as [|x l IH]; intros Hg; cbn [map sumQ].
  - exists 0%Z. reflexivity.
  - apply halfInteger_plus; [apply Hg; now left|].
    apply IH. intros y Hy. apply Hg. now right.
Qed.

Lemma cells_half :
  forallb (fun piece => forallb (cellHalf piece) cells) allPieces = true.
Proof. vm_compute. reflexivity. Qed.

Lemma boardScore_half (brd : Board) : halfInteger (boardScore brd).
Proof.
  assert (H : halfInteger
                (sumQ (map (fun cell => squareTerm brd (fst cell) (snd cell))
                         cells))).
  { apply sumQ_half. intros cell Hin. rewrite squareTerm_piece.
    destruct (squareAt brd (fst cell) (snd cell)) as [piece|].
    - pose proof cells_half as Hok. rewrite forallb_forall in Hok.
      specialize (Hok piece (allPieces_complete piece)).
      rewrite forallb_forall in Hok. now apply isHalf_spec, Hok.
    - exists 0%Z. reflexivity. }
  destruct H as [z Hz]. exists z. now rewrite boardScore_cells.
Qed.

(** The board sum of any board, kings or no kings. *)
Lemma boardScore_wide (brd : Board) :
  -7008 <= boardScore brd /\ boardScore brd <= 7008.
Proof.
  rewrite boardScore_cells.
  destruct (@sumQ_bounds _
              (fun cell => squareTerm brd (fst cell) (snd cell))
              (-109.5) 109.5 cells) as [Hlo Hhi].
  { intros cell Hin. pose proof (squareTerm_bound brd Hin) as Hb.
    cbv zeta in Hb.
    destruct (squareAt brd (fst cell) (snd cell)) as [[[] []]|];
      cbn [kingShare] in Hb; lra. }
  change (inject_Z (Z.of_nat (length cells))) with 64 in Hlo, Hhi.
  split; lra.
Qed.

(** The board sum moved by a half or by one is a double. *)
Lemma boardScore_shift (brd : Board) (c : Q) :
  isHalf c = true -> -1 <= c <= 1 -> isDouble (boardScore brd + c).
Proof.
  intros Hc Hrange. apply isHalf_spec in Hc.
  destruct (halfInteger_plus (boardScore_half brd) Hc) as [z Hz].
  destruct (boardScore_wide brd) as [Hlo Hhi].
  unfold isDouble. rewrite Hz. apply double_half_integer.
  assert (Hq : -14018 <= inject_Z z /\ inject_Z z <= 14018) by lra.
  destruct Hq as [Hq1 Hq2].
  change (-14018) with (inject_Z (-14018)) in Hq1.
  change 14018 with (inject_Z 14018) in Hq2.
  rewrite <- Zle_Qle in Hq1, Hq2.
  change (2 ^ 53)%Z with 9007199254740992%Z. lia.
Qed.


Section Noise.
Context {Chess : Type} {engine : RulesEngine Chess}.
Variable env : Environment.
Variable settings : AISettings.

(** X2: on a position that is neither mate nor drawn, the easy tier
    returns the board sum plus a noise from -1 to 1, the medium tier the
    board sum plus a noise from -0.5 to 0.5, each for one random draw; the
    hard tier returns the board sum and draws nothing.  The sum of the
    board and the noise is rounded as a double is, so the upper ends are
    reached. *)
Theorem evaluatePosition_noise (game : Chess) (s : World) :
  randomInRange env ->
  isCheckmate game = false -> isDraw game = false ->
  let x := fst (evaluatePosition env settings game s) in
  let s' := snd (evaluatePosition env settings game s) in
  let noise := x - boardScore (board game) in
  match difficulty settings with
  | easy =>
      -1 <= noise /\ noise <= 1
      /\ s' = mkWorld (clockReads s) (S (randomDraws s))
  | medium =>
      -0.5 <= noise /\ noise <= 0.5
      /\ s' = mkWorld (clockReads s) (S (randomDraws s))
  | hard => x = boardScore (board game) /\ s' = s
  end.
Proof.
  intros Hrange Hmate Hdraw. cbv zeta. unfold evaluatePosition.
  rewrite Hmate, Hdraw.
  destruct (Hrange (randomDraws s)) as (H0 & H1 & _).
  pose proof (noise_easy _ H0 H1) as Heasy.
  pose proof (noise_medium _ H0 H1) as Hmedium.
  set (score := boardScore (board game)) in *.
  destruct (difficulty settings); rewrite ?bind_run;
    cbn [Math_random ret fst snd]; [| |now split].
  - set (r := random env (randomDraws s)) in *.
    assert (H : score + -1 <= fadd score (fmul (fsub r 0.5) 2) <= score + 1).
    { apply double_range; [| |lra]; apply boardScore_shift;
        (reflexivity || lra). }
    repeat split; lra.
  - set (r := random env (randomDraws s)) in *.
    assert (H : score + -0.5 <= fadd score (fmul (fsub r 0.5) 1)
                <= score + 0.5).
    { apply double_range; [| |lra]; apply boardScore_shift;
        (reflexivity || lra). }
    repeat split; lra.
Qed.

(** X3: on a board with one king a side, the score of a position that is
    not mate lies strictly between the two mate scores at every tier, noise
    included. *)
Theorem evaluatePosition_short_of_mate (game : Chess) (s : World) :
  randomInRange env ->
  oneKingEach (board game) = true ->
  isCheckmate game = false ->
  -1000 < fst (evaluatePosition env settings game s)
  /\ fst (evaluatePosition env settings game s) < 1000.
Proof.
  intros Hrange Hk Hmate. unfold evaluatePosition. rewrite Hmate.
  destruct (isDraw game); [cbn; split; lra|].
  destruct (boardScore_bound _ Hk) as [Hlo Hhi].
  destruct (Hrange (randomDraws s)) as (H0 & H1 & _).
  pose proof (noise_easy _ H0 H1) as Heasy.
  pose proof (noise_medium _ H0 H1) as Hmedium.
  destruct (difficulty settings); rewrite ?bind_run;
    cbn [Math_random ret fst]; [| |split; lra].
  - assert (H : -609 <= fadd (boardScore (board game))
                          (fmul (fsub (random env (randomDraws s)) 0.5) 2)
                <= 609)
      by (apply double_range; try reflexivity; lra).
    split; lra.
  - assert (H : -609 <= fadd (boardScore (board game))
                          (fmul (fsub (random env (randomDraws s)) 0.5) 1)
                <= 609)
      by (apply double_range; try reflexivity; lra).
    split; lra.
Qed.
End Noise.

Lemma edgeEnv_randomInRange : randomInRange edgeEnv.
Proof.
  intros k. cbn. split; [|split]; [discriminate|reflexivity|].
  vm_compute. reflexivity.
Qed.

(** X2 on the start of [mateInOne] at the easy tier, when [Math.random()]
    gives the largest double below 1: the noise is 1. *)
Lemma evaluatePosition_noise_witness :
  let x :=
    fst (evaluatePosition edgeEnv (createChessAI easy) mateInOne world0) in
  (-1 <= x - boardScore boardStart /\ x - boardScore boardStart <= 1
   /\ snd (evaluatePosition edgeEnv (createChessAI easy) mateInOne world0)
      = mkWorld 0 1)
  /\ x - boardScore boardStart == 1.
Proof.
  split; [|vm_compute; reflexivity].
  apply (@evaluatePosition_noise Tree treeEngine edgeEnv
           (createChessAI easy) mateInOne world0 edgeEnv_randomInRange
           eq_refl eq_refl).
Defined.

(** X3 on the start of [mateInOne] at the medium tier. *)
Lemma evaluatePosition_short_of_mate_witness :
  -1000 < fst (evaluatePosition calmEnv (createChessAI medium) mateInOne world0)
  /\ fst (evaluatePosition calmEnv (createChessAI medium) mateInOne world0)
     < 1000.
Proof.
  apply (@evaluatePosition_short_of_mate Tree treeEngine calmEnv
           (createChessAI medium) mateInOne world0 calmEnv_randomInRange
           eq_refl eq_refl).
Defined.

(** ** The tiers without search *)

Lemma clockFree_ret {A} (a : A) : clockFree (ret a) (ret a).
Proof. intros s1 s2 H. simpl. auto. Qed.

Lemma clockFree_bind {A B} (c1 c2 : M A) (k1 k2 : A -> M B) :
  clockFree c1 c2 ->
  (forall a, clockFree (k1 a) (k2 a)) ->
  clockFree (bind c1 k1) (bind c2 k2).
Proof.
  intros Hc Hk s1 s2 Hs. unfold bind.
  destruct (Hc s1 s2 Hs) as (Hv & Hrnd & Hc1 & Hc2).
  destruct (c1 s1) as [a1 t1], (c2 s2) as [a2 t2]. simpl in *. subst a2.
  destruct (Hk a1 t1 t2 Hrnd) as (Hv' & Hrnd' & Hc1' & Hc2').
  repeat split; congruence.
Qed.

Lemma clockFree_random (e1 e2 : Environment) :
  (forall k, random e1 k = random e2 k) ->
  clockFree (Math_random e1) (Math_random e2).
Proof.
  intros Hrnd s1 s2 Hs. unfold Math_random. simpl.
  rewrite Hs, Hrnd. auto.
Qed.

Section LowTiers.
Context {Chess : Type} {engine : RulesEngine Chess}.
Variables e1 e2 : Environment.
Variables settings1 settings2 : AISettings.
Hypothesis sameRandom : forall k, random e1 k = random e2 k.
Hypothesis sameTier : difficulty settings1 = difficulty settings2.

Lemma clockFree_evaluate (game : Chess) :
  clockFree (evaluatePosition e1 settings1 game)
            (evaluatePosition e2 settings2 game).
Proof.
  unfold evaluatePosition. rewrite <- sameTier.
  destruct (isCheckmate game); [apply clockFree_ret|].
  destruct (isDraw game); [apply clockFree_ret|].
  clear sameTier. destruct (difficulty settings1).
  - apply clockFree_bind; [now apply clockFree_random|].
    intros r. apply clockFree_ret.
  - apply clockFree_bind; [now apply clockFree_random|].
    intros r. apply clockFree_ret.
  - apply clockFree_ret.
Qed.

Lemma clockFree_mediumLoop (game : Chess) (isWhite : bool) (l : list Move) :
  forall bestScore bestMove,
    clockFree (mediumLoop e1 settings1 game isWhite l bestScore bestMove)
              (mediumLoop e2 settings2 game isWhite l bestScore bestMove).
Proof.
  induction l as [|mv rest IH]; intros bestScore bestMove; simpl.
  - apply clockFree_ret.
  - apply clockFree_bind; [apply clockFree_evaluate|].
    intros score. destruct (better isWhite (Num score) bestScore); apply IH.
Qed.

(** X4: the easy and the medium tier never read the clock, and the move
    they return depends neither on the clock nor on [depth] and
    [timeLimitMs]: two calls that differ only in these return the same
    move. *)
Theorem low_tiers_ignore_budget (game : Chess) (s1 s2 : World) :
  difficulty settings1 <> hard ->
  randomDraws s1 = randomDraws s2 ->
  fst (getBestMove e1 settings1 game s1)
  = fst (getBestMove e2 settings2 game s2)
  /\ clockReads (snd (getBestMove e1 settings1 game s1)) = clockReads s1
  /\ clockReads (snd (getBestMove e2 settings2 game s2)) = clockReads s2.
Proof.
  intros Hlow Hs.
  assert (H : clockFree (getBestMove e1 settings1 game)
                        (getBestMove e2 settings2 game)).
  { pose proof clockFree_mediumLoop as Hloop.
    unfold getBestMove. rewrite <- sameTier.
    destruct (moves game) as [|m0 l]; [apply clockFree_ret|].
    destruct (difficulty settings1); [| |contradiction].
    - apply clockFree_bind; [now apply clockFree_random|].
      intros r. destruct (pick _ r); apply clockFree_ret.
    - apply clockFree_bind; [apply Hloop|].
      intros [mv|]; apply clockFree_ret. }
  destruct (H s1 s2 Hs) as (Hv & _ & Hc1 & Hc2). auto.
Qed.
End LowTiers.

(** X4 on [mateInOne] at the medium tier: the settings of [createChessAI]
    under a clock that stands still, and depth 9 with one millisecond under
    a clock that jumps. *)
Lemma low_tiers_ignore_budget_witness :
  fst (getBestMove calmEnv (createChessAI medium) mateInOne (mkWorld 0 0))
  = fst (getBestMove lateEnv (mkSettings 9 medium 1) mateInOne (mkWorld 7 0))
  /\ clockReads
       (snd (getBestMove calmEnv (createChessAI medium) mateInOne
               (mkWorld 0 0))) = 0%nat
  /\ clockReads
       (snd (getBestMove lateEnv (mkSettings 9 medium 1) mateInOne
               (mkWorld 7 0))) = 7%nat.
Proof.
  apply low_tiers_ignore_budget.
  - intros k. reflexivity.
  - reflexivity.
  - discriminate.
  - reflexivity.
Defined.

(** ** The range of the search *)

Lemma mateBounded_max (acc ev : number) :
  acc = NegInfinity \/ mateBounded acc -> mateBounded ev ->
  mateBounded (Math_max acc ev).
Proof.
  intros [->|Ha] Hev.
  - destruct Hev as (x & -> & Hx). now exists x.
  - unfold Math_max. now destruct (num_lt acc ev).
Qed.

Lemma mateBounded_min (acc ev : number) :
  acc = Infinity \/ mateBounded acc -> mateBounded ev ->
  mateBounded (Math_min acc ev).
Proof.
  intros [->|Ha] Hev.
  - destruct Hev as (x & -> & Hx). now exists x.
  - unfold Math_min. now destruct (num_lt ev acc).
Qed.

Section LoopRange.
Context {Chess : Type} {engine : RulesEngine Chess}.
Variable child : Chess -> bool -> number -> number -> M number.
Variable game : Chess.

Lemma maxLoop_bounded (beta : number) (l : list Move) :
  (forall mv isMax a c s, In mv l ->
     mateBounded (fst (child (move game mv) isMax a c s))) ->
  forall alpha maxEval s,
    maxEval = NegInfinity \/ mateBounded maxEval ->
    l <> [] \/ mateBounded maxEval ->
    mateBounded (fst (maxLoop child game beta l alpha maxEval s)).
Proof.
  induction l as [|mv rest IH]; intros Hch alpha maxEval s Hseed Hne.
  - destruct Hne as [Hne|Hb]; [contradiction|exact Hb].
  - rewrite maxLoop_cons. cbv zeta.
    assert (Hstep : mateBounded
                      (Math_max maxEval
                         (fst (child (move game mv) false alpha beta s)))).
    { apply mateBounded_max; [exact Hseed|]. apply Hch. now left. }
    destruct (num_le beta _); [exact Hstep|].
    apply IH; auto. intros; apply Hch; now right.
Qed.

Lemma minLoop_bounded (alpha : number) (l : list Move) :
  (forall mv isMax a c s, In mv l ->
     mateBounded (fst (child (move game mv) isMax a c s))) ->
  forall beta minEval s,
    minEval = Infinity \/ mateBounded minEval ->
    l <> [] \/ mateBounded minEval ->
    mateBounded (fst (minLoop child game alpha l beta minEval s)).
Proof.
  induction l as [|mv rest IH]; intros Hch beta minEval s Hseed Hne.
  - destruct Hne as [Hne|Hb]; [contradiction|exact Hb].
  - rewrite minLoop_cons. cbv zeta.
    assert (Hstep : mateBounded
                      (Math_min minEval
                         (fst (child (move game mv) true alpha beta s)))).
    { apply mateBounded_min; [exact Hseed|]. apply Hch. now left. }
    destruct (num_le _ alpha); [exact Hstep|].
    apply IH; auto. intros; apply Hch; now right.
Qed.
End LoopRange.

Section SearchRange.
Context {Chess : Type} {engine : RulesEngine Chess}.
Variable env : Environment.
Variable settings : AISettings.
Variable legal : Chess -> Prop.
Hypothesis laws : EngineLaws legal.
Hypothesis inRange : randomInRange env.

Lemma evaluatePosition_range (g : Chess) (s : World) :
  legal g ->
  mateBounded (Num (fst (evaluatePosition env settings g s))).
Proof.
  intros Hg. eexists. split; [reflexivity|].
  destruct (isCheckmate g) eqn:Hmate.
  - unfold evaluatePosition. rewrite Hmate.
    destruct (turn g); cbn; split; lra.
  - destruct (evaluatePosition_bound settings laws g s Hg inRange Hmate).
    split; lra.
Qed.

Lemma orderMoves_nonempty (g : Chess) :
  legal g -> isGameOver g = false -> orderMoves (moves g) <> [].
Proof.
  intros Hg Hover Hnil. apply (live_moves laws g Hg Hover).
  destruct (moves g) as [|m0 l]; [reflexivity|].
  assert (Hin : In m0 (orderMoves (m0 :: l)))
    by (apply orderMoves_In; now left).
  rewrite Hnil in Hin. contradiction.
Qed.

Lemma minimax_in_range (depth : nat) (deadline : Z) (game : Chess)
    (isMaximizing : bool) (alpha beta : number) (s : World) :
  legal game ->
  mateBounded
    (fst (minimax env settings depth deadline game isMaximizing alpha beta s)).
Proof.
  revert game isMaximizing alpha beta s.
  induction depth as [|d IH]; intros game isMax alpha beta s Hg.
  - rewrite minimax_O. now apply evaluatePosition_range.
  - rewrite minimax_S.
    destruct (deadline <? clock env (clockReads s))%Z;
      [now apply evaluatePosition_range|].
    cbn [orb]. destruct (isGameOver game) eqn:Hover;
      [now apply evaluatePosition_range|].
    assert (Hch : forall mv isMax' a c s', In mv (orderMoves (moves game)) ->
              mateBounded
                (fst (minimax env settings d deadline (move game mv)
                        isMax' a c s'))).
    { intros mv isMax' a c s' Hin. apply IH.
      apply (legal_move laws); [exact Hg|]. now apply orderMoves_In. }
    destruct isMax.
    + apply maxLoop_bounded; auto. left. now apply orderMoves_nonempty.
    + apply minLoop_bounded; auto. left. now apply orderMoves_nonempty.
Qed.

(** X5: on a legal position the search never returns an infinity: at any
    depth, with any window, under any clock and at any tier, the value of
    [minimax] is a finite score between -1000 and 1000. *)
Theorem minimax_bounded (depth : nat) (deadline : Z) (game : Chess)
    (isMaximizing : bool) (alpha beta : number) (s : World) :
  legal game ->
  exists x,
    fst (minimax env settings depth deadline game isMaximizing alpha beta s)
    = Num x
    /\ -1000 <= x <= 1000.
Proof. intros Hg. now apply minimax_in_range. Qed.
End SearchRange.

(** X5 on [mateInOne]: three plies, a window that is not the full one, the
    clock that jumps, the easy tier. *)
Lemma minimax_bounded_witness :
  mateBounded
    (fst (minimax lateEnv (createChessAI easy) 3 1500 mateInOne true
            (Num (-3)) (Num 7) world0)).
Proof.
  apply (@minimax_bounded Tree treeEngine lateEnv (createChessAI easy)
           legalTree treeEngine_laws).
  - intros k. cbn. split; [lra|]. split; [lra|]. vm_compute. reflexivity.
  - reflexivity.
Defined.

(** ** The move returned is a best move *)

Lemma better_irrefl (isWhite : bool) (x : number) :
  better isWhite x x = false.
Proof. destruct isWhite; num_cases; try reflexivity; exfalso; num_order. Qed.

Lemma better_pass (isWhite : bool) (x bestScore final : number) :
  better isWhite x bestScore = true ->
  better isWhite x final = false ->
  better isWhite bestScore final = false.
Proof.
  intros H1 H2. destruct isWhite; num_cases; try reflexivity;
    try discriminate; exfalso; num_order.
Qed.

Lemma better_keep (isWhite : bool) (x bestScore final : number) :
  better isWhite x bestScore = false ->
  better isWhite bestScore final = false ->
  better isWhite x final = false.
Proof.
  intros H1 H2. destruct isWhite; num_cases; try reflexivity;
    try discriminate; exfalso; num_order.
Qed.

Lemma scan_best (isWhite : bool) (l : list (Move * number)) :
  forall bestScore bestMove,
    better isWhite bestScore (scanScore isWhite l bestScore) = false
    /\ (forall p, In p l ->
          better isWhite (snd p) (scanScore isWhite l bestScore) = false)
    /\ ((scan isWhite l bestScore bestMove = bestMove
         /\ scanScore isWhite l bestScore = bestScore)
        \/ exists mv, scan isWhite l bestScore bestMove = Some mv
             /\ In (mv, scanScore isWhite l bestScore) l).
Proof.
  induction l as [|[m x] rest IH]; intros bestScore bestMove;
    cbn [scan scanScore].
  - split; [apply better_irrefl|]. split; [intros p []|now left].
  - destruct (better isWhite x bestScore) eqn:Hb.
    + destruct (IH x (Some m)) as (Hx & Hrest & Hres).
      split; [eapply better_pass; eassumption|]. split.
      * intros p [<-|Hp]; [exact Hx|now apply Hrest].
      * right. destruct Hres as [[Hs Hf]|(mv & Hs & Hin)].
        -- exists m. split; [exact Hs|]. rewrite Hf. now left.
        -- exists mv. split; [exact Hs|now right].
    + destruct (IH bestScore bestMove) as (Hbs & Hrest & Hres).
      split; [exact Hbs|]. split.
      * intros p [<-|Hp]; [|now apply Hrest].
        eapply better_keep; eassumption.
      * destruct Hres as [Hsame|(mv & Hs & Hin)]; [now left|right].
        exists mv. split; [exact Hs|now right].
Qed.

(** With a finite score in the list, the loop entered with the worst score
    and no move finds a move whose score no other beats. *)
Lemma scan_optimal (isWhite : bool) (l : list (Move * number))
    (p0 : Move * number) (x0 : Q) :
  In p0 l -> snd p0 = Num x0 ->
  exists mv,
    scan isWhite l (worst isWhite) None = Some mv
    /\ In (mv, scanScore isWhite l (worst isWhite)) l
    /\ forall p, In p l ->
         better isWhite (snd p) (scanScore isWhite l (worst isWhite)) = false.
Proof.
  intros Hin Hnum.
  destruct (scan_best isWhite l (worst isWhite) None) as (_ & Hall & Hres).
  destruct Hres as [[_ Hf]|(mv & Hs & Hmv)].
  - exfalso. specialize (Hall p0 Hin). rewrite Hf, Hnum in Hall.
    rewrite better_than_worst in Hall. discriminate Hall.
  - exists mv. auto.
Qed.

Section MediumBest.
Context {Chess : Type} {engine : RulesEngine Chess}.
Variable env : Environment.
Variable settings : AISettings.

Lemma mediumScores_In (game : Chess) (l : list Move) :
  forall s p, In p (mediumScores env settings game l s) ->
    In (fst p) l /\ exists x, snd p = Num x.
Proof.
  induction l as [|mv rest IH]; intros s p Hp; [contradiction|].
  cbn [mediumScores] in Hp. destruct Hp as [<-|Hp].
  - split; [now left|]. now eexists.
  - destruct (IH _ _ Hp) as [Hin Hx]. split; [now right|exact Hx].
Qed.

(** X6: at the medium tier, on a position with a legal move, the move
    returned is a legal move whose evaluation, noise included, no evaluation
    drawn for another move beats; the fallback to the first move is never
    taken. *)
Theorem getBestMove_medium_best (game : Chess) (s : World) :
  difficulty settings = medium -> moves game <> [] ->
  let isWhite := Color_eqb (turn game) White in
  let scores :=
    mediumScores env settings game (orderMoves (moves game)) s in
  exists mv x,
    In mv (moves game) /\ In (mv, x) scores
    /\ scan isWhite scores (worst isWhite) None = Some mv
    /\ (forall p, In p scores -> better isWhite (snd p) x = false)
    /\ fst (getBestMove env settings game s) = Normal (Some (toAIMove mv)).
Proof.
  intros Hd Hne. cbv zeta. unfold getBestMove. rewrite Hd.
  destruct (moves game) as [|m0 l] eqn:Hmoves; [contradiction|].
  rewrite <- Hmoves in *. rewrite bind_run, mediumLoop_scan.
  set (scores := mediumScores env settings game (orderMoves (moves game)) s).
  assert (Hfirst : exists p0 x0, In p0 scores /\ snd p0 = Num x0).
  { subst scores. destruct (orderMoves (moves game)) as [|o os] eqn:Ho.
    - exfalso. assert (Hin : In m0 (orderMoves (moves game)))
        by (apply orderMoves_In; rewrite Hmoves; now left).
      rewrite Ho in Hin. contradiction.
    - cbn [mediumScores]. eexists. eexists. split; [now left|reflexivity]. }
  destruct Hfirst as (p0 & x0 & Hp0 & Hx0).
  destruct (scan_optimal (Color_eqb (turn game) White) scores p0 Hp0 Hx0)
    as (mv & Hscan & Hin & Hall).
  exists mv. eexists. rewrite Hscan.
  split;
    [|split; [exact Hin|split; [reflexivity|split; [exact Hall|reflexivity]]]].
  apply (mediumScores_In game _ s) in Hin. apply orderMoves_In. apply Hin.
Qed.
End MediumBest.

(** X6 on [mateInOne]. *)
Lemma getBestMove_medium_best_witness :
  exists mv x,
    In mv (moves mateInOne)
    /\ In (mv, x)
         (mediumScores calmEnv (createChessAI medium) mateInOne
            (orderMoves (moves mateInOne)) world0)
    /\ scan true
         (mediumScores calmEnv (createChessAI medium) mateInOne
            (orderMoves (moves mateInOne)) world0) NegInfinity None
       = Some mv
    /\ (forall p,
          In p (mediumScores calmEnv (createChessAI medium) mateInOne
                  (orderMoves (moves mateInOne)) world0) ->
          better true (snd p) x = false)
    /\ fst (getBestMove calmEnv (createChessAI medium) mateInOne world0)
       = Normal (Some (toAIMove mv)).
Proof.
  apply (@getBestMove_medium_best Tree treeEngine calmEnv
           (createChessAI medium) mateInOne world0).
  - reflexivity.
  - discriminate.
Defined.

Section HardBest.
Context {Chess : Type} {engine : RulesEngine Chess}.
Variable legal : Chess -> Prop.
Hypothesis laws : EngineLaws legal.

Lemma fullMinimax_bounded (depth : nat) (game : Chess) (isMax : bool) :
  legal game -> mateBounded (fullMinimax depth game isMax).
Proof.
  intros Hg.
  set (env0 := mkEnv (fun _ => 0%Z) (fun _ => 0)).
  set (hard0 := mkSettings 1 hard 1).
  assert (Hrange : randomInRange env0).
  { intros k. cbn. split; [lra|]. split; [lra|]. reflexivity. }
  assert (Htime : forall k, (clock env0 k <= 0)%Z) by (intros k; cbn; lia).
  pose proof (@minimax_full _ _ env0 hard0 0%Z eq_refl Htime depth game isMax
                world0) as Heq.
  destruct (@minimax_in_range _ _ env0 hard0 legal laws Hrange depth 0%Z game
              isMax NegInfinity Infinity world0 Hg) as (x & Hx & Hlo & Hhi).
  rewrite Hx in Heq. destruct (fullMinimax depth game isMax) as [|y|];
    cbn in Heq; try contradiction.
  exists y. split; [reflexivity|]. split; lra.
Qed.

Lemma fullScores_rootScore (depth : nat) (game : Chess) (l : list Move) :
  fullScores depth game l = map (fun mv => (mv, rootScore depth game mv)) l.
Proof. reflexivity. Qed.

Lemma capturesThenQuiets_In (l : list Move) (m : Move) :
  In m (capturesThenQuiets l) <-> In m l.
Proof. rewrite <- orderMoves_partition. apply orderMoves_In. Qed.

Lemma fullBestAtDepth_best (depth : nat) (game : Chess) (m0 : Move) :
  legal game -> In m0 (moves game) ->
  exists mv,
    fullBestAtDepth depth game = Some mv /\ In mv (moves game)
    /\ forall m, In m (moves game) ->
         better (Color_eqb (turn game) White) (rootScore depth game m)
           (rootScore depth game mv) = false.
Proof.
  intros Hg Hin0. unfold fullBestAtDepth. rewrite fullBest_scan.
  rewrite fullScores_rootScore.
  set (l := capturesThenQuiets (moves game)).
  set (isW := Color_eqb (turn game) White).
  destruct (fullMinimax_bounded (depth - 1)
              (Color_eqb (turn (move game m0)) White)
              (legal_move laws game m0 Hg Hin0)) as (x0 & Hx0 & _).
  destruct (scan_optimal isW
              (map (fun mv => (mv, rootScore depth game mv)) l)
              (m0, rootScore depth game m0) (x0 := x0))
    as (mv & Hscan & Hin & Hall).
  { apply in_map_iff. exists m0. split; [reflexivity|].
    now apply capturesThenQuiets_In. }
  { exact Hx0. }
  apply in_map_iff in Hin. destruct Hin as (m' & Heq & Hm').
  inversion Heq as [[Hm Hscore]]. subst m'.
  exists mv. split; [exact Hscan|].
  split; [now apply capturesThenQuiets_In|].
  intros m Hm. rewrite Hscore.
  apply (Hall (m, rootScore depth game m)).
  apply in_map_iff. exists m. split; [reflexivity|].
  now apply capturesThenQuiets_In.
Qed.

(** X7: at the hard tier, on a legal position with a legal move, with depth
    at least 1 and the deadline never reached, the move returned is the
    choice of full minimax at the configured depth, the deepest one, and no
    legal move has a strictly better minimax score at that depth. *)
Theorem getBestMove_hard_best (env : Environment) (settings : AISettings)
    (game : Chess) (s : World) :
  legal game -> moves game <> [] ->
  difficulty settings = hard -> (1 <= depth settings)%Z ->
  noTimePressure env settings s ->
  let maxDepth := Z.to_nat (depth settings) in
  exists mv,
    In mv (moves game)
    /\ fullBestAtDepth maxDepth game = Some mv
    /\ (forall m, In m (moves game) ->
          better (Color_eqb (turn game) White) (rootScore maxDepth game m)
            (rootScore maxDepth game mv) = false)
    /\ fst (getBestMove env settings game s) = Normal (Some (toAIMove mv)).
Proof.
  intros Hg Hne Hd Hdepth Hfree. cbv zeta.
  destruct (moves game) as [|m0 l] eqn:Hmoves; [contradiction|].
  rewrite <- Hmoves in *.
  destruct (@fullBestAtDepth_best (Z.to_nat (depth settings)) game m0 Hg)
    as (mv & Hbest & Hin & Hall); [rewrite Hmoves; now left|].
  exists mv. repeat split; try assumption.
  rewrite (getBestMove_hard_full game Hd Hfree).
  destruct (Z.to_nat (depth settings)) as [|n] eqn:Hn; [lia|].
  now rewrite fullSelect_S, Hbest.
Qed.
End HardBest.

(** X7 on [mateInOne] with the settings of [createChessAI]. *)
Lemma getBestMove_hard_best_witness :
  exists mv,
    In mv (moves mateInOne)
    /\ fullBestAtDepth 4 mateInOne = Some mv
    /\ (forall m, In m (moves mateInOne) ->
          better true (rootScore 4 mateInOne m) (rootScore 4 mateInOne mv)
          = false)
    /\ fst (getBestMove calmEnv (createChessAI hard) mateInOne world0)
       = Normal (Some (toAIMove mv)).
Proof.
  apply (@getBestMove_hard_best Tree treeEngine legalTree treeEngine_laws
           calmEnv (createChessAI hard) mateInOne world0).
  - reflexivity.
  - discriminate.
  - reflexivity.
  - apply Z.leb_le. reflexivity.
  - exact calmEnv_noTimePressure.
Defined.

(** ** The work of the pruned search *)

Section LoopWork.
Context {Chess : Type} {engine : RulesEngine Chess}.
Variable child : Chess -> bool -> number -> number -> M number.
Variable nodes : Chess -> nat.
Variable game : Chess.
Hypothesis child_work :
  forall g isMax a c s,
    (clockReads s < clockReads (snd (child g isMax a c s))
     /\ clockReads (snd (child g isMax a c s)) <= clockReads s + nodes g)%nat.

Lemma maxLoop_work (beta : number) (l : list Move) :
  forall alpha maxEval s,
    (clockReads s
     <= clockReads (snd (maxLoop child game beta l alpha maxEval s))
     /\ clockReads (snd (maxLoop child game beta l alpha maxEval s))
        <= clockReads s
           + list_sum (map (fun mv => nodes (move game mv)) l))%nat.
Proof.
  induction l as [|mv rest IH]; intros alpha maxEval s.
  - cbn. lia.
  - rewrite maxLoop_cons. cbv zeta. cbn [map].
    change (list_sum (?a :: ?l)) with (a + list_sum l)%nat.
    destruct (child_work (move game mv) false alpha beta s) as [Hlo Hhi].
    destruct (num_le beta _); cbn [snd]; [lia|].
    match goal with
    | |- context [maxLoop _ _ _ _ ?a ?m ?w] =>
        destruct (IH a m w) as [IHlo IHhi]
    end. lia.
Qed.

Lemma minLoop_work (alpha : number) (l : list Move) :
  forall beta minEval s,
    (clockReads s
     <= clockReads (snd (minLoop child game alpha l beta minEval s))
     /\ clockReads (snd (minLoop child game alpha l beta minEval s))
        <= clockReads s
           + list_sum (map (fun mv => nodes (move game mv)) l))%nat.
Proof.
  induction l as [|mv rest IH]; intros beta minEval s.
  - cbn. lia.
  - rewrite minLoop_cons. cbv zeta. cbn [map].
    change (list_sum (?a :: ?l)) with (a + list_sum l)%nat.
    destruct (child_work (move game mv) true alpha beta s) as [Hlo Hhi].
    destruct (num_le _ alpha); cbn [snd]; [lia|].
    match goal with
    | |- context [minLoop _ _ _ _ ?b ?m ?w] =>
        destruct (IH b m w) as [IHlo IHhi]
    end. lia.
Qed.
End LoopWork.

Section SearchWork.
Context {Chess : Type} {engine : RulesEngine Chess}.
Variable env : Environment.
Variable settings : AISettings.

Lemma evaluatePosition_clock (game : Chess) (s : World) :
  clockReads (snd (evaluatePosition env settings game s)) = clockReads s.
Proof.
  unfold evaluatePosition. destruct (isCheckmate game); [reflexivity|].
  destruct (isDraw game); [reflexivity|].
  destruct (difficulty settings); rewrite ?bind_run; reflexivity.
Qed.

(** X8: [minimax] reads the clock once at every node it visits, and it
    visits at least the node it is called on and at most as many nodes as
    the tree of full minimax has at that depth, whatever the window, the
    clock and the tier: pruning and the deadline only ever save work. *)
Theorem minimax_work (depth : nat) (deadline : Z) (game : Chess)
    (isMaximizing : bool) (alpha beta : number) (s : World) :
  let s' :=
    snd (minimax env settings depth deadline game isMaximizing alpha beta s) in
  (clockReads s < clockReads s'
   /\ clockReads s' <= clockReads s + fullNodes depth game)%nat.
Proof.
  cbv zeta. revert game isMaximizing alpha beta s.
  induction depth as [|d IH]; intros game isMax alpha beta s.
  - rewrite minimax_O. cbn [snd fullNodes].
    rewrite evaluatePosition_clock. cbn. lia.
  - rewrite minimax_S. cbn [fullNodes].
    destruct (deadline <? clock env (clockReads s))%Z; cbn [orb].
    + cbn [snd]. rewrite evaluatePosition_clock. cbn.
      destruct (isGameOver game); lia.
    + destruct (isGameOver game).
      * cbn [snd]. rewrite evaluatePosition_clock. cbn. lia.
      * rewrite orderMoves_partition. destruct isMax.
        -- destruct (maxLoop_work (minimax env settings d deadline)
                       (fullNodes d) game IH beta
                       (capturesThenQuiets (moves game)) alpha NegInfinity
                       (tick s)) as [Hlo Hhi].
           cbn [tick clockReads] in *. lia.
        -- destruct (minLoop_work (minimax env settings d deadline)
                       (fullNodes d) game IH alpha
                       (capturesThenQuiets (moves game)) beta Infinity
                       (tick s)) as [Hlo Hhi].
           cbn [tick clockReads] in *. lia.
Qed.
End SearchWork.

(** * The soft deadline *)

Section RoundSteps.
Context {Chess : Type} {engine : RulesEngine Chess}.
Variable env : Environment.
Variable settings : AISettings.

Lemma rootScores_cons (depth : nat) (deadline : Z) (game : Chess)
    (mv : Move) (rest : list Move) (s : World) :
  rootScores env settings depth deadline game (mv :: rest) s
  = if (deadline <? clock env (clockReads s))%Z then ([], tick s)
    else
      let r := minimax env settings (depth - 1) deadline (move game mv)
                 (Color_eqb (turn (move game mv)) White)
                 NegInfinity Infinity (tick s) in
      let later := rootScores env settings depth deadline game rest (snd r) in
      ((mv, fst r) :: fst later, snd later).
Proof.
  cbn [rootScores]. rewrite bind_run, Date_now_run. cbn [fst snd].
  destruct (deadline <? clock env (clockReads s))%Z; [reflexivity|].
  rewrite bind_run. cbv zeta. now rewrite bind_run.
Qed.

Lemma searchRounds_cons (deadline : Z) (game : Chess) (ordered : list Move)
    (depth : nat) (rest : list nat) (s : World) :
  searchRounds env settings deadline game ordered (depth :: rest) s
  = let r := rootScores env settings depth deadline game ordered s in
    let round := mkRound (fst r) (clockReads (snd r)) in
    if (deadline <? clock env (clockReads (snd r)))%Z
    then ([round], tick (snd r))
    else
      let later := searchRounds env settings deadline game ordered rest
                     (tick (snd r)) in
      (round :: fst later, snd later).
Proof.
  cbn [searchRounds]. rewrite bind_run. unfold clockReadings at 1.
  rewrite bind_run. cbn [fst snd]. rewrite bind_run, Date_now_run.
  cbn [fst snd]. cbv zeta.
  destruct (deadline <? clock env _)%Z; [reflexivity|].
  now rewrite bind_run.
Qed.

(** The loop over the root moves keeps the best of what it scores. *)
Lemma rootLoop_scan (depth : nat) (deadline : Z) (game : Chess)
    (isWhite : bool) (l : list Move) :
  forall bestScore bestMove s,
    rootLoop env settings depth deadline game isWhite l bestScore bestMove s
    = (scan isWhite
         (fst (rootScores env settings depth deadline game l s))
         bestScore bestMove,
       snd (rootScores env settings depth deadline game l s)).
Proof.
  induction l as [|mv rest IH]; intros bestScore bestMove s.
  - reflexivity.
  - rewrite rootLoop_cons, rootScores_cons.
    destruct (deadline <? clock env (clockReads s))%Z; [reflexivity|].
    cbv zeta. cbn [fst snd scan].
    destruct (better isWhite _ bestScore); apply IH.
Qed.

(** The loop over the depths keeps the best move of the last round that
    found one. *)
Lemma deepen_rounds (deadline : Z) (game : Chess) (isWhite : bool)
    (ordered : list Move) (depths : list nat) :
  forall selected s,
    deepen env settings deadline game isWhite ordered depths selected s
    = (fold_left
         (fun sel round => keep (bestOf isWhite round) sel)
         (fst (searchRounds env settings deadline game ordered depths s))
         selected,
       snd (searchRounds env settings deadline game ordered depths s)).
Proof.
  induction depths as [|d rest IH]; intros selected s.
  - reflexivity.
  - rewrite deepen_cons, searchRounds_cons. cbv zeta.
    rewrite rootLoop_scan. cbn [fst snd].
    destruct (deadline <? clock env _)%Z; [reflexivity|].
    rewrite IH. reflexivity.
Qed.

(** Readings of the clock only grow. *)
Lemma maxLoop_grows (child : Chess -> bool -> number -> number -> M number)
    (game : Chess) (beta : number) (l : list Move) :
  (forall g b a c s,
      (clockReads s <= clockReads (snd (child g b a c s)))%nat) ->
  forall alpha maxEval s,
    (clockReads s
     <= clockReads (snd (maxLoop child game beta l alpha maxEval s)))%nat.
Proof.
  intros Hchild. induction l as [|mv rest IH]; intros alpha maxEval s.
  - cbn. lia.
  - rewrite maxLoop_cons. cbv zeta.
    pose proof (Hchild (move game mv) false alpha beta s) as H.
    destruct (num_le beta _); cbn [snd]; [exact H|].
    etransitivity; [exact H|apply IH].
Qed.

Lemma minLoop_grows (child : Chess -> bool -> number -> number -> M number)
    (game : Chess) (alpha : number) (l : list Move) :
  (forall g b a c s,
      (clockReads s <= clockReads (snd (child g b a c s)))%nat) ->
  forall beta minEval s,
    (clockReads s
     <= clockReads (snd (minLoop child game alpha l beta minEval s)))%nat.
Proof.
  intros Hchild. induction l as [|mv rest IH]; intros beta minEval s.
  - cbn. lia.
  - rewrite minLoop_cons. cbv zeta.
    pose proof (Hchild (move game mv) true alpha beta s) as H.
    destruct (num_le _ alpha); cbn [snd]; [exact H|].
    etransitivity; [exact H|apply IH].
Qed.

Lemma minimax_grows (depth : nat) (deadline : Z) :
  forall game isMax alpha beta s,
    (clockReads s
     < clockReads (snd (minimax env settings depth deadline game isMax
                          alpha beta s)))%nat.
Proof.
  induction depth as [|d IH]; intros game isMax alpha beta s.
  - rewrite minimax_O. cbn [snd]. rewrite evaluatePosition_clock. cbn. lia.
  - rewrite minimax_S.
    destruct ((deadline <? clock env (clockReads s))%Z || isGameOver game).
    + cbn [snd]. rewrite evaluatePosition_clock. cbn. lia.
    + assert (Hchild : forall g b a c w,
                (clockReads w
                 <= clockReads (snd (minimax env settings d deadline g b a c
                                       w)))%nat)
        by (intros; apply Nat.lt_le_incl, IH).
      destruct isMax.
      * pose proof (maxLoop_grows _ game beta (orderMoves (moves game))
                      Hchild alpha NegInfinity (tick s)) as H.
        cbn [tick clockReads] in H. lia.
      * pose proof (minLoop_grows _ game alpha (orderMoves (moves game))
                      Hchild beta Infinity (tick s)) as H.
        cbn [tick clockReads] in H. lia.
Qed.

Lemma rootScores_grows (depth : nat) (deadline : Z) (game : Chess)
    (l : list Move) :
  forall s,
    (clockReads s
     <= clockReads (snd (rootScores env settings depth deadline game l s)))%nat.
Proof.
  induction l as [|mv rest IH]; intros s.
  - cbn. lia.
  - rewrite rootScores_cons.
    destruct (deadline <? clock env (clockReads s))%Z; [cbn; lia|].
    cbv zeta. cbn [snd].
    pose proof (minimax_grows (depth - 1) deadline (move game mv)
                  (Color_eqb (turn (move game mv)) White)
                  NegInfinity Infinity (tick s)) as H1.
    cbn [tick clockReads] in H1.
    etransitivity; [|apply IH]. lia.
Qed.

(** A round scores the first root moves, each with the value of the
    search below it. *)
Lemma rootScores_prefix (depth : nat) (deadline : Z) (game : Chess)
    (l : list Move) :
  forall s,
    exists rest,
      l = map fst (fst (rootScores env settings depth deadline game l s))
          ++ rest.
Proof.
  induction l as [|mv tl IH]; intros s.
  - now exists [].
  - rewrite rootScores_cons.
    destruct (deadline <? clock env (clockReads s))%Z;
      [now exists (mv :: tl)|].
    cbv zeta. cbn [fst map].
    match goal with
    | |- context [rootScores _ _ _ _ _ tl ?w] =>
        destruct (IH w) as [rest Hrest]
    end.
    exists rest. cbn [app]. now rewrite <- Hrest.
Qed.

Lemma rootScores_values (depth : nat) (deadline : Z) (game : Chess)
    (l : list Move) :
  forall s p,
    In p (fst (rootScores env settings depth deadline game l s)) ->
    exists w,
      snd p
      = fst (minimax env settings (depth - 1) deadline (move game (fst p))
               (Color_eqb (turn (move game (fst p))) White)
               NegInfinity Infinity w).
Proof.
  induction l as [|mv tl IH]; intros s p.
  - intros [].
  - rewrite rootScores_cons.
    destruct (deadline <? clock env (clockReads s))%Z; [intros []|].
    cbv zeta. cbn [fst]. intros [<-|Hin].
    + now exists (tick s).
    + eapply IH, Hin.
Qed.

(** A round cut short found the deadline passed. *)
Lemma rootScores_cut (depth : nat) (deadline : Z) (game : Chess)
    (l : list Move) :
  forall s,
    map fst (fst (rootScores env settings depth deadline game l s)) <> l ->
    exists i,
      (clockReads s <= i
       < clockReads (snd (rootScores env settings depth deadline game l s)))%nat
      /\ (deadline < clock env i)%Z.
Proof.
  induction l as [|mv tl IH]; intros s.
  - intros H. now contradiction H.
  - rewrite rootScores_cons.
    destruct (Z.ltb_spec deadline (clock env (clockReads s))) as [Hlate|_].
    + intros _. exists (clockReads s). cbn. split; [lia|exact Hlate].
    + cbv zeta. cbn [fst snd map]. intros Hne.
      pose proof (minimax_grows (depth - 1) deadline (move game mv)
                    (Color_eqb (turn (move game mv)) White)
                    NegInfinity Infinity (tick s)) as Hgrow.
      cbn [tick clockReads] in Hgrow.
      match goal with
      | |- context [rootScores _ _ _ _ _ tl ?w] =>
          destruct (IH w) as (i & Hi & Hlate)
      end.
      * intros Heq. apply Hne. now rewrite Heq.
      * exists i. split; [lia|exact Hlate].
Qed.
End RoundSteps.

(** ** Rounds that stay within the deadline *)

Section Calmed.
Context {Chess : Type} {engine : RulesEngine Chess}.
Variable env : Environment.
Variable settings : AISettings.
Variable deadline : Z.

Lemma inTime_sub (lo hi lo' hi' : nat) :
  (lo <= lo')%nat -> (hi' <= hi)%nat ->
  inTime env deadline lo hi -> inTime env deadline lo' hi'.
Proof. intros H1 H2 H i Hi. apply H. lia. Qed.

Lemma calmed_inTime (k : nat) : (clock (calmed env deadline) k <= deadline)%Z.
Proof. cbn. apply Z.le_min_r. Qed.

Lemma calmed_check (i : nat) :
  (clock env i <= deadline)%Z ->
  (deadline <? clock (calmed env deadline) i)%Z = false
  /\ (deadline <? clock env i)%Z = false.
Proof. intros H. cbn. split; apply Z.ltb_ge; lia. Qed.

Lemma maxLoop_calmed
    (child1 child2 : Chess -> bool -> number -> number -> M number)
    (game : Chess) (beta : number) (l : list Move) :
  (forall g b a c s,
      inTime env deadline (clockReads s)
        (clockReads (snd (child1 g b a c s))) ->
      child2 g b a c s = child1 g b a c s) ->
  (forall g b a c s,
      (clockReads s <= clockReads (snd (child1 g b a c s)))%nat) ->
  forall alpha maxEval s,
    inTime env deadline (clockReads s)
      (clockReads (snd (maxLoop child1 game beta l alpha maxEval s))) ->
    maxLoop child2 game beta l alpha maxEval s
    = maxLoop child1 game beta l alpha maxEval s.
Proof.
  intros Hsame Hgrow.
  induction l as [|mv rest IH]; intros alpha maxEval s; [reflexivity|].
  rewrite !maxLoop_cons. cbv zeta. intros Htime.
  pose proof (Hgrow (move game mv) false alpha beta s) as Hg.
  set (r := child1 (move game mv) false alpha beta s) in *.
  assert (Hr : child2 (move game mv) false alpha beta s = r).
  { apply Hsame. fold r.
    destruct (num_le beta (Math_max alpha (fst r))).
    - exact Htime.
    - eapply inTime_sub; [| |exact Htime]; [lia|].
      apply maxLoop_grows, Hgrow. }
  rewrite Hr.
  destruct (num_le beta (Math_max alpha (fst r))); [reflexivity|].
  apply IH. eapply inTime_sub; [| |exact Htime]; [exact Hg|lia].
Qed.

Lemma minLoop_calmed
    (child1 child2 : Chess -> bool -> number -> number -> M number)
    (game : Chess) (alpha : number) (l : list Move) :
  (forall g b a c s,
      inTime env deadline (clockReads s)
        (clockReads (snd (child1 g b a c s))) ->
      child2 g b a c s = child1 g b a c s) ->
  (forall g b a c s,
      (clockReads s <= clockReads (snd (child1 g b a c s)))%nat) ->
  forall beta minEval s,
    inTime env deadline (clockReads s)
      (clockReads (snd (minLoop child1 game alpha l beta minEval s))) ->
    minLoop child2 game alpha l beta minEval s
    = minLoop child1 game alpha l beta minEval s.
Proof.
  intros Hsame Hgrow.
  induction l as [|mv rest IH]; intros beta minEval s; [reflexivity|].
  rewrite !minLoop_cons. cbv zeta. intros Htime.
  pose proof (Hgrow (move game mv) true alpha beta s) as Hg.
  set (r := child1 (move game mv) true alpha beta s) in *.
  assert (Hr : child2 (move game mv) true alpha beta s = r).
  { apply Hsame. fold r.
    destruct (num_le (Math_min beta (fst r)) alpha).
    - exact Htime.
    - eapply inTime_sub; [| |exact Htime]; [lia|].
      apply minLoop_grows, Hgrow. }
  rewrite Hr.
  destruct (num_le (Math_min beta (fst r)) alpha); [reflexivity|].
  apply IH. eapply inTime_sub; [| |exact Htime]; [exact Hg|lia].
Qed.

(** While its readings are within the deadline, the search runs as under
    a clock that never passes it. *)
Lemma minimax_calmed (depth : nat) :
  forall game isMax alpha beta s,
    inTime env deadline (clockReads s)
      (clockReads (snd (minimax env settings depth deadline game isMax
                          alpha beta s))) ->
    minimax (calmed env deadline) settings depth deadline game isMax
      alpha beta s
    = minimax env settings depth deadline game isMax alpha beta s.
Proof.
  induction depth as [|d IH]; intros game isMax alpha beta s Htime.
  - rewrite !minimax_O. reflexivity.
  - pose proof (minimax_grows env settings (S d) deadline game isMax
                  alpha beta s) as Hgrow.
    destruct (@calmed_check (clockReads s)) as [Hc1 Hc2];
      [apply Htime; lia|].
    rewrite minimax_S in Htime. rewrite !minimax_S, Hc1.
    rewrite Hc2 in Htime |- *. cbn [orb] in *.
    destruct (isGameOver game); [reflexivity|].
    assert (Hg : forall g b a c w,
              (clockReads w
               <= clockReads (snd (minimax env settings d deadline g b a c
                                     w)))%nat)
      by (intros; apply Nat.lt_le_incl, minimax_grows).
    assert (Hsub : forall hi,
              inTime env deadline (clockReads s) hi ->
              inTime env deadline (clockReads (tick s)) hi).
    { intros hi H. eapply inTime_sub; [| |exact H]; cbn; lia. }
    destruct isMax.
    + apply maxLoop_calmed; [exact IH|exact Hg|now apply Hsub].
    + apply minLoop_calmed; [exact IH|exact Hg|now apply Hsub].
Qed.

Hypothesis isHard : difficulty settings = hard.

Lemma minimax_inTime (depth : nat) (game : Chess) (isMax : bool) (s : World) :
  inTime env deadline (clockReads s)
    (clockReads (snd (minimax env settings depth deadline game isMax
                        NegInfinity Infinity s))) ->
  num_eq (fst (minimax env settings depth deadline game isMax
                 NegInfinity Infinity s))
         (fullMinimax depth game isMax).
Proof.
  intros Htime. rewrite <- minimax_calmed by exact Htime.
  apply (@minimax_full _ _ (calmed env deadline) settings deadline isHard
           calmed_inTime).
Qed.

(** A round whose readings are within the deadline scores every root move
    with its full minimax value. *)
Lemma rootScores_inTime (depth : nat) (game : Chess) (l : list Move) :
  forall s,
    inTime env deadline (clockReads s)
      (clockReads (snd (rootScores env settings depth deadline game l s))) ->
    map fst (fst (rootScores env settings depth deadline game l s)) = l
    /\ Forall (fun p => num_eq (snd p) (rootScore depth game (fst p)))
         (fst (rootScores env settings depth deadline game l s)).
Proof.
  induction l as [|mv rest IH]; intros s Htime.
  - split; [reflexivity|constructor].
  - rewrite rootScores_cons in Htime |- *.
    destruct (Z.ltb_spec deadline (clock env (clockReads s))) as [Hlate|_].
    { exfalso. specialize (Htime (clockReads s)). cbn in Htime. lia. }
    cbv zeta in Htime |- *. cbn [fst snd] in Htime |- *.
    pose proof (minimax_grows env settings (depth - 1) deadline
                  (move game mv) (Color_eqb (turn (move game mv)) White)
                  NegInfinity Infinity (tick s)) as Hg1.
    set (r := minimax env settings (depth - 1) deadline (move game mv) _
                NegInfinity Infinity (tick s)) in *.
    pose proof (rootScores_grows env settings depth deadline game rest
                  (snd r)) as Hg2.
    cbn [tick clockReads] in Hg1.
    destruct (IH (snd r)) as [Hmoves Hscores].
    { eapply inTime_sub; [| |exact Htime]; lia. }
    split; [cbn [map fst]; now rewrite Hmoves|].
    constructor; [|exact Hscores].
    cbn [fst snd]. unfold rootScore. subst r. apply minimax_inTime.
    eapply inTime_sub; [| |exact Htime]; cbn [tick clockReads]; lia.
Qed.
End Calmed.

Lemma scan_compat (isWhite : bool) (f : Move -> number)
    (l : list (Move * number)) :
  Forall (fun p => num_eq (snd p) (f (fst p))) l ->
  forall bestScore bestScore' bestMove,
    num_eq bestScore bestScore' ->
    scan isWhite l bestScore bestMove
    = scan isWhite (map (fun mv => (mv, f mv)) (map fst l)) bestScore'
        bestMove.
Proof.
  induction 1 as [|[mv x] rest Hx _ IH]; intros bestScore bestScore' bestMove
    Hbs; [reflexivity|].
  cbn [map fst scan]. cbn [fst snd] in Hx.
  rewrite (better_compat isWhite _ _ _ _ Hx Hbs).
  destruct (better isWhite (f mv) bestScore'); now apply IH.
Qed.

(** ** The rounds of a search *)

Section SearchRounds.
Context {Chess : Type} {engine : RulesEngine Chess}.
Variable env : Environment.
Variable settings : AISettings.
Variable deadline : Z.
Variable game : Chess.

Lemma rootScores_nil (depth : nat) (mv : Move) (rest : list Move)
    (s : World) :
  fst (rootScores env settings depth deadline game (mv :: rest) s) = [] ->
  (deadline < clock env (clockReads s))%Z.
Proof.
  rewrite rootScores_cons.
  destruct (Z.ltb_spec deadline (clock env (clockReads s))) as [H|_];
    [intros _; exact H|discriminate].
Qed.

Lemma searchRounds_length (ordered : list Move) (depths : list nat) :
  forall s,
    (length (fst (searchRounds env settings deadline game ordered depths s))
     <= length depths)%nat
    /\ (depths <> [] ->
        fst (searchRounds env settings deadline game ordered depths s) <> []).
Proof.
  induction depths as [|d rest IH]; intros s.
  - split; [reflexivity|intros H; now contradiction H].
  - rewrite searchRounds_cons. cbv zeta.
    destruct (deadline <? clock env _)%Z; cbn [fst length].
    + split; [lia|discriminate].
    + match goal with
      | |- context [searchRounds _ _ _ _ _ rest ?w] =>
          destruct (IH w) as [Hlen _]
      end.
      split; [lia|discriminate].
Qed.

(** What holds of the round of index [k] in a search over the depths
    [a], [a + 1], ... started at the world [s]. *)
Lemma searchRounds_round (n : nat) :
  forall (a : nat) (s : World) (k : nat) (round : Round),
    let ordered := orderMoves (moves game) in
    let isWhite := Color_eqb (turn game) White in
    let rounds :=
      fst (searchRounds env settings deadline game ordered (seq a n) s) in
    nth_error rounds k = Some round ->
    (exists rest, ordered = map fst (scored round) ++ rest)
    /\ (map fst (scored round) <> ordered ->
        exists i, (clockReads s <= i < readings round)%nat
                  /\ (deadline < clock env i)%Z)
    /\ (forall p, In p (scored round) ->
        exists w,
          snd p
          = fst (minimax env settings (a + k - 1) deadline
                   (move game (fst p))
                   (Color_eqb (turn (move game (fst p))) White)
                   NegInfinity Infinity w))
    /\ ((deadline < clock env (readings round))%Z -> length rounds = S k)
    /\ ((clock env (readings round) <= deadline)%Z -> (S k < n)%nat ->
        (S k < length rounds)%nat)
    /\ (difficulty settings = hard ->
        inTime env deadline (clockReads s) (readings round) ->
        map fst (scored round) = ordered
        /\ Forall (fun p => num_eq (snd p) (rootScore (a + k) game (fst p)))
             (scored round)
        /\ bestOf isWhite round = fullBestAtDepth (a + k) game).
Proof.
  induction n as [|n IH]; intros a s k round; cbv zeta.
  - cbn. now destruct k.
  - cbn [seq]. rewrite searchRounds_cons. cbv zeta.
    set (ordered := orderMoves (moves game)).
    set (r := rootScores env settings a deadline game ordered s).
    pose proof (rootScores_grows env settings a deadline game ordered s)
      as Hgrow. fold r in Hgrow.
    destruct k as [|k].
    + (* the first round *)
      assert (Hround : forall later,
                nth_error (mkRound (fst r) (clockReads (snd r)) :: later) 0
                = Some round ->
                round = mkRound (fst r) (clockReads (snd r)))
        by (intros later [= <-]; reflexivity).
      assert (Hfirst :
        (exists rest, ordered = map fst (fst r) ++ rest)
        /\ (map fst (fst r) <> ordered ->
            exists i, (clockReads s <= i < clockReads (snd r))%nat
                      /\ (deadline < clock env i)%Z)
        /\ (forall p, In p (fst r) ->
            exists w,
              snd p
              = fst (minimax env settings (a + 0 - 1) deadline
                       (move game (fst p))
                       (Color_eqb (turn (move game (fst p))) White)
                       NegInfinity Infinity w))
        /\ (difficulty settings = hard ->
            inTime env deadline (clockReads s) (clockReads (snd r)) ->
            map fst (fst r) = ordered
            /\ Forall (fun p => num_eq (snd p)
                                  (rootScore (a + 0) game (fst p))) (fst r)
            /\ scan (Color_eqb (turn game) White) (fst r)
                 (worst (Color_eqb (turn game) White)) None
               = fullBestAtDepth (a + 0) game)).
      { rewrite Nat.add_0_r. split; [apply rootScores_prefix|].
        split; [apply rootScores_cut|].
        split; [apply rootScores_values|].
        intros Hhard Htime.
        destruct (@rootScores_inTime _ _ env settings deadline Hhard a game
                    ordered s Htime)
          as [Hmoves Hscores].
        fold r in Hmoves, Hscores. split; [exact Hmoves|].
        split; [exact Hscores|].
        rewrite (@scan_compat _ (rootScore a game) (fst r) Hscores
                   (worst (Color_eqb (turn game) White))
                   (worst (Color_eqb (turn game) White)) None).
        - rewrite Hmoves. unfold fullBestAtDepth.
          rewrite fullBest_scan. subst ordered.
          now rewrite orderMoves_partition.
        - destruct (Color_eqb (turn game) White); exact I. }
      destruct Hfirst as (H1 & H2 & H3 & H6).
      destruct (Z.ltb_spec deadline (clock env (clockReads (snd r))))
        as [Hlate|Hok]; cbn [fst]; intros Hnth;
        apply Hround in Hnth; subst round; cbn [scored readings bestOf];
        (split; [exact H1|]); (split; [exact H2|]);
        (split; [exact H3|]).
      * split; [reflexivity|]. split; [lia|exact H6].
      * split; [lia|]. split; [|exact H6].
        intros _ Hn. cbn [length].
        match goal with
        | |- context [searchRounds _ _ _ _ _ (seq (S a) n) ?w] =>
            destruct (searchRounds_length ordered (seq (S a) n) w)
              as [_ Hne]
        end.
        destruct (fst (searchRounds env settings deadline game ordered
                         (seq (S a) n) (tick (snd r)))) as [|x xs];
          [|cbn; lia].
        exfalso. apply Hne; [|reflexivity].
        destruct n; [lia|discriminate].
    + (* a later round *)
      destruct (Z.ltb_spec deadline (clock env (clockReads (snd r))))
        as [Hlate|Hok]; cbn [fst nth_error]; [now destruct k|].
      intros Hnth.
      destruct (IH (S a) (tick (snd r)) k round Hnth)
        as (H1 & H2 & H3 & H4 & H5 & H6).
      fold ordered in H1, H2, H4, H5, H6 |- *.
      replace (a + S k)%nat with (S a + k)%nat by lia.
      split; [exact H1|]. split.
      { intros Hne. destruct (H2 Hne) as (i & Hi & Hl).
        exists i. cbn [tick clockReads] in Hi. split; [lia|exact Hl]. }
      split; [exact H3|]. split.
      { intros Hl. cbn [length]. now rewrite (H4 Hl). }
      split.
      { intros Hc Hn. cbn [length]. apply -> Nat.succ_lt_mono.
        apply H5; [exact Hc|lia]. }
      intros Hhard Htime. apply H6; [exact Hhard|].
      eapply inTime_sub; [| |exact Htime]; cbn [tick clockReads]; lia.
Qed.
End SearchRounds.

(** ** The selection *)

Lemma bestOf_found (isWhite : bool) (round : Round) (mv : Move) :
  bestOf isWhite round = Some mv ->
  exists x,
    In (mv, x) (scored round)
    /\ forall p, In p (scored round) -> better isWhite (snd p) x = false.
Proof.
  unfold bestOf. intros Hbest.
  destruct (scan_best isWhite (scored round) (worst isWhite) None)
    as (_ & Hall & [[Hnone _]|(mv' & Hs & Hin)]).
  - rewrite Hnone in Hbest. discriminate Hbest.
  - rewrite Hs in Hbest. injection Hbest as <-.
    now exists (scanScore isWhite (scored round) (worst isWhite)).
Qed.

Lemma bestOf_finite (isWhite : bool) (round : Round) (p : Move * number)
    (x : Q) :
  In p (scored round) -> snd p = Num x -> bestOf isWhite round <> None.
Proof.
  intros Hin Hx. unfold bestOf.
  destruct (scan_optimal isWhite (scored round) p Hin Hx) as (mv & Hs & _).
  rewrite Hs. discriminate.
Qed.

Lemma selection_found (isWhite : bool) (rounds : list Round) :
  forall (selected : option Move) (mv : Move),
    fold_left (fun sel round => keep (bestOf isWhite round) sel) rounds
      selected = Some mv ->
    (selected = Some mv
     /\ forall round, In round rounds -> bestOf isWhite round = None)
    \/ exists k round x,
         nth_error rounds k = Some round
         /\ In (mv, x) (scored round)
         /\ (forall p, In p (scored round) ->
             better isWhite (snd p) x = false)
         /\ forall j later, (k < j)%nat -> nth_error rounds j = Some later ->
              bestOf isWhite later = None.
Proof.
  induction rounds as [|round later IH]; intros selected mv; cbn [fold_left].
  - intros ->. left. split; [reflexivity|intros ? []].
  - intros Hsel. destruct (IH _ _ Hsel) as [[Hkeep Hnone]|Hlater].
    + destruct (bestOf isWhite round) as [best|] eqn:Hbest;
        cbn [keep] in Hkeep.
      * injection Hkeep as ->. right.
        destruct (bestOf_found isWhite round Hbest) as (x & Hin & Hall).
        exists 0%nat, round, x. split; [reflexivity|].
        split; [exact Hin|]. split; [exact Hall|].
        intros j r Hj Hr. destruct j as [|j]; [lia|].
        apply Hnone. eapply nth_error_In. exact Hr.
      * left. split; [exact Hkeep|].
        intros r [<-|Hr]; [exact Hbest|now apply Hnone].
    + right. destruct Hlater as (k & r & x & Hk & Hin & Hall & Hafter).
      exists (S k), r, x. split; [exact Hk|]. split; [exact Hin|].
      split; [exact Hall|].
      intros j r' Hj Hr'. destruct j as [|j]; [lia|].
      apply (Hafter j r'); [lia|exact Hr'].
Qed.

Lemma selection_none (isWhite : bool) (rounds : list Round) :
  forall selected,
    fold_left (fun sel round => keep (bestOf isWhite round) sel) rounds
      selected = None ->
    selected = None
    /\ forall round, In round rounds -> bestOf isWhite round = None.
Proof.
  induction rounds as [|round later IH]; intros selected; cbn [fold_left].
  - intros ->. split; [reflexivity|intros ? []].
  - intros Hsel. destruct (IH _ Hsel) as [Hkeep Hnone].
    destruct (bestOf isWhite round) as [best|] eqn:Hbest;
      cbn [keep] in Hkeep; [discriminate Hkeep|].
    split; [exact Hkeep|]. intros r [<-|Hr]; [exact Hbest|now apply Hnone].
Qed.

Lemma selection_of_none (isWhite : bool) (rounds : list Round) :
  (forall round, In round rounds -> bestOf isWhite round = None) ->
  selectionOf isWhite rounds = None.
Proof.
  unfold selectionOf. intros Hnone.
  induction rounds as [|round later IH]; cbn [fold_left]; [reflexivity|].
  rewrite (Hnone round) by now left. cbn [keep].
  apply IH. intros r Hr. apply Hnone. now right.
Qed.

Lemma orderMoves_nil (l : list Move) : orderMoves l = [] -> l = [].
Proof.
  destruct l as [|m l]; [reflexivity|]. intros H.
  assert (Hin : In m (orderMoves (m :: l))) by (apply orderMoves_In; now left).
  rewrite H in Hin. contradiction.
Qed.

Section Deadline.
Context {Chess : Type} {engine : RulesEngine Chess}.
Variable env : Environment.
Variable settings : AISettings.

(** C6: at the hard tier a passed deadline is no error: the call completes
    and returns the selection of its rounds, the best move of the last
    depth that found one.  Each depth scores the root moves in order, each
    with the value of the search below it, and leaves the remaining ones
    out only when it has found the deadline passed; a depth that ends with
    the deadline passed is the last, and while the deadline has not passed
    the next depth is run.  A depth whose readings of the clock are all
    within the deadline scores every root move with its full minimax value
    and finds the move full minimax chooses at that depth; under a clock
    that never runs backwards this is so of every depth but the last.  The
    move returned is unbeaten among the moves its depth scored, and no
    later depth found a move.  None is returned only if there is no legal move,
    no depth to search, or the deadline had passed before the first root
    move at depth 1. *)
Theorem hard_deadline_is_soft (game : Chess) (s : World) :
  difficulty settings = hard ->
  let deadline := (clock env (clockReads s) + limitOf settings)%Z in
  let isWhite := Color_eqb (turn game) White in
  let ordered := orderMoves (moves game) in
  let maxDepth := Z.to_nat (depth settings) in
  let rounds :=
    fst (searchRounds env settings deadline game ordered (seq 1 maxDepth)
           (tick s)) in
  fst (getBestMove env settings game s)
  = Normal (option_map toAIMove (selectionOf isWhite rounds))
  /\ (length rounds <= maxDepth)%nat
  /\ (forall k round,
        nth_error rounds k = Some round ->
        (exists rest, ordered = map fst (scored round) ++ rest)
        /\ (map fst (scored round) <> ordered ->
            exists i, (clockReads s < i < readings round)%nat
                      /\ (deadline < clock env i)%Z)
        /\ (forall p, In p (scored round) ->
            exists w,
              snd p
              = fst (minimax env settings k deadline (move game (fst p))
                       (Color_eqb (turn (move game (fst p))) White)
                       NegInfinity Infinity w))
        /\ ((deadline < clock env (readings round))%Z ->
            length rounds = S k)
        /\ ((clock env (readings round) <= deadline)%Z ->
            (S k < maxDepth)%nat -> (S k < length rounds)%nat)
        /\ ((forall i, (clockReads s < i < readings round)%nat ->
                       (clock env i <= deadline)%Z) ->
            map fst (scored round) = ordered
            /\ Forall (fun p => num_eq (snd p)
                                  (rootScore (S k) game (fst p)))
                 (scored round)
            /\ bestOf isWhite round = fullBestAtDepth (S k) game))
  /\ ((forall i j, (i <= j)%nat -> (clock env i <= clock env j)%Z) ->
      forall k round,
        nth_error rounds k = Some round -> (S k < length rounds)%nat ->
        map fst (scored round) = ordered
        /\ bestOf isWhite round = fullBestAtDepth (S k) game)
  /\ (forall mv,
        selectionOf isWhite rounds = Some mv ->
        exists k round x,
          nth_error rounds k = Some round
          /\ In (mv, x) (scored round)
          /\ (forall p, In p (scored round) ->
              better isWhite (snd p) x = false)
          /\ forall j later,
               (k < j)%nat -> nth_error rounds j = Some later ->
               bestOf isWhite later = None)
  /\ (selectionOf isWhite rounds = None ->
      moves game = [] \/ (depth settings < 1)%Z
      \/ (deadline < clock env (S (clockReads s)))%Z).
Proof.
  intros Hhard. cbv zeta.
  set (deadline := (clock env (clockReads s) + limitOf settings)%Z).
  set (isWhite := Color_eqb (turn game) White).
  set (ordered := orderMoves (moves game)).
  set (maxDepth := Z.to_nat (depth settings)).
  set (rounds := fst (searchRounds env settings deadline game ordered
                        (seq 1 maxDepth) (tick s))).
  assert (Hround : forall k round,
            nth_error rounds k = Some round ->
            (exists rest, ordered = map fst (scored round) ++ rest)
            /\ (map fst (scored round) <> ordered ->
                exists i, (clockReads s < i < readings round)%nat
                          /\ (deadline < clock env i)%Z)
            /\ (forall p, In p (scored round) ->
                exists w,
                  snd p
                  = fst (minimax env settings k deadline (move game (fst p))
                           (Color_eqb (turn (move game (fst p))) White)
                           NegInfinity Infinity w))
            /\ ((deadline < clock env (readings round))%Z ->
                length rounds = S k)
            /\ ((clock env (readings round) <= deadline)%Z ->
                (S k < maxDepth)%nat -> (S k < length rounds)%nat)
            /\ ((forall i, (clockReads s < i < readings round)%nat ->
                           (clock env i <= deadline)%Z) ->
                map fst (scored round) = ordered
                /\ Forall (fun p => num_eq (snd p)
                                      (rootScore (S k) game (fst p)))
                     (scored round)
                /\ bestOf isWhite round = fullBestAtDepth (S k) game)).
  { intros k round Hnth.
    destruct (@searchRounds_round _ _ env settings deadline game maxDepth 1
                (tick s) k round Hnth) as (H1 & H2 & H3 & H4 & H5 & H6).
    replace (1 + k - 1)%nat with k in H3 by lia.
    cbn [tick clockReads] in H2, H6.
    split; [exact H1|]. split.
    { intros Hne. destruct (H2 Hne) as (i & Hi & Hl). exists i.
      split; [lia|exact Hl]. }
    split; [exact H3|]. split; [exact H4|]. split; [exact H5|].
    intros Htime. apply H6; [exact Hhard|].
    intros i Hi. apply Htime. lia. }
  assert (Hlen : (length rounds <= maxDepth)%nat).
  { destruct (searchRounds_length env settings deadline game ordered
                (seq 1 maxDepth) (tick s)) as [H _].
    now rewrite length_seq in H. }
  split; [|split; [exact Hlen|split; [exact Hround|split; [|split]]]].
  - rewrite getBestMove_hard_run by exact Hhard.
    destruct (moves game) as [|m0 l] eqn:Hmoves.
    + cbn [fst]. rewrite selection_of_none; [reflexivity|].
      intros round Hin. apply In_nth_error in Hin. destruct Hin as [k Hk].
      destruct (Hround k round Hk) as ((rest & Hrest) & _).
      subst ordered. rewrite ?Hmoves in Hrest. cbn in Hrest.
      unfold bestOf. destruct (scored round); [reflexivity|].
      discriminate Hrest.
    + cbv zeta. cbn [fst]. rewrite deepen_rounds. reflexivity.
  - intros Hmono k round Hnth Hmore.
    destruct (Hround k round Hnth) as (_ & _ & _ & Hlast & _ & Hfull).
    destruct (Z.lt_ge_cases deadline (clock env (readings round)))
      as [Hlate|Hok]; [specialize (Hlast Hlate); lia|].
    destruct Hfull as (Hall & _ & Hbest); [|now split].
    intros i Hi. specialize (Hmono i (readings round)). lia.
  - intros mv Hsel.
    destruct (@selection_found isWhite rounds None mv Hsel)
      as [[Hnone _]|Hfound]; [discriminate Hnone|exact Hfound].
  - intros Hsel.
    destruct (@selection_none isWhite rounds None Hsel) as [_ Hnone].
    assert (Hcase : moves game = [] \/ moves game <> [])
      by (destruct (moves game); [left|right]; congruence).
    destruct Hcase as [Hnil|Hne]; [now left|right].
    destruct (Z.ltb_spec (depth settings) 1) as [Hlt|Hge]; [now left|right].
    assert (Hord : exists o os, ordered = o :: os).
    { destruct ordered as [|o os] eqn:Ho; [|now exists o, os].
      exfalso. apply Hne. now apply orderMoves_nil. }
    destruct Hord as (o & os & Hord).
    subst rounds. destruct maxDepth as [|n] eqn:Hn; [lia|].
    cbn [seq] in Hnone. rewrite searchRounds_cons in Hnone.
    cbv zeta in Hnone.
    set (r := rootScores env settings 1 deadline game ordered (tick s)) in *.
    assert (Hfirst : bestOf isWhite (mkRound (fst r) (clockReads (snd r)))
                     = None).
    { apply Hnone. destruct (deadline <? clock env _)%Z; now left. }
    destruct (fst r) as [|p ps] eqn:Hr.
    + subst r. rewrite Hord in Hr. now apply rootScores_nil in Hr.
    + exfalso. subst r. rewrite Hord, rootScores_cons in Hr.
      destruct (deadline <? clock env (clockReads (tick s)))%Z;
        [discriminate Hr|].
      change (1 - 1)%nat with 0%nat in Hr. rewrite minimax_O in Hr.
      cbv zeta in Hr. cbn [fst] in Hr. injection Hr as Hp _.
      eapply (@bestOf_finite isWhite (mkRound (p :: ps) _) p);
        [now left| |exact Hfirst].
      rewrite <- Hp. reflexivity.
Qed.
End Deadline.

(** C6 on [mateInOne] under the clock that passes the deadline during the
    second depth: the first depth scored both root moves and found the
    mate Qb8, the choice of full minimax; the second depth scored Qxa2
    alone before it was cut, and Qxa2 is returned. *)
Lemma hard_deadline_is_soft_witness :
  fst (getBestMove hurriedEnv (createChessAI hard) mateInOne world0)
  = Normal (Some (toAIMove Qxa2))
  /\ fullBestAtDepth 1 mateInOne = Some Qb8.
Proof.
  destruct (@hard_deadline_is_soft Tree treeEngine hurriedEnv
              (createChessAI hard) mateInOne world0 eq_refl)
    as (Hcall & _ & Hround & _).
  split; [exact Hcall|].
  destruct (Hround 0%nat (mkRound [(Qxa2, Num 3); (Qb8, Num 1000)] 5)
              eq_refl) as (_ & _ & _ & _ & _ & Hfull).
  destruct Hfull as (_ & _ & Hbest).
  - intros i Hi. cbn [readings] in Hi. cbn [clock hurriedEnv].
    unfold hurriedClock at 1.
    destruct (Nat.ltb_spec i 10) as [_|Hlate]; [|lia].
    apply Z.leb_le. reflexivity.
  - rewrite <- Hbest. reflexivity.
Defined.

(** * The board component *)

Lemma index_cases (i : Z) :
  (0 <= i <= 7)%Z -> In i [0; 1; 2; 3; 4; 5; 6; 7]%Z.
Proof. intros H. simpl. lia. Qed.

Lemma toSquare_decoded (fileIndex rankIndexFromTop : Z) :
  (0 <= fileIndex <= 7)%Z -> (0 <= rankIndexFromTop <= 7)%Z ->
  fileIndexOf (toSquare fileIndex rankIndexFromTop) = fileIndex
  /\ rankIndexFromTopOf (toSquare fileIndex rankIndexFromTop)
     = Some rankIndexFromTop
  /\ String.length (toSquare fileIndex rankIndexFromTop) = 2%nat.
Proof.
  intros Hf Hr. apply index_cases in Hf, Hr. simpl in Hf, Hr.
  repeat (destruct Hf as [<-|Hf]; [|]); try contradiction;
    repeat (destruct Hr as [<-|Hr]; [|]); try contradiction;
    vm_compute; auto.
Qed.

(** X9: on the 64 squares, the name [toSquare] gives to a file and a row
    of the board is two characters long and is read back to the same file
    and row by the code that places the legal-move dots; two different
    cells never get the same name. *)
Theorem toSquare_roundtrip (fileIndex rankIndexFromTop : Z) :
  (0 <= fileIndex <= 7)%Z -> (0 <= rankIndexFromTop <= 7)%Z ->
  fileIndexOf (toSquare fileIndex rankIndexFromTop) = fileIndex
  /\ rankIndexFromTopOf (toSquare fileIndex rankIndexFromTop)
     = Some rankIndexFromTop
  /\ String.length (toSquare fileIndex rankIndexFromTop) = 2%nat
  /\ forall fileIndex' rankIndexFromTop',
       (0 <= fileIndex' <= 7)%Z -> (0 <= rankIndexFromTop' <= 7)%Z ->
       toSquare fileIndex rankIndexFromTop
       = toSquare fileIndex' rankIndexFromTop' ->
       fileIndex = fileIndex' /\ rankIndexFromTop = rankIndexFromTop'.
Proof.
  intros Hf Hr.
  destruct (toSquare_decoded Hf Hr)
    as (Hfile & Hrank & Hlen).
  repeat split; try assumption.
  - destruct (toSquare_decoded H H0)
      as (Hfile' & _). congruence.
  - destruct (toSquare_decoded H H0)
      as (_ & Hrank' & _). congruence.
Qed.

(** X9 at e2: file 4, row 6 of the board. *)
Lemma toSquare_roundtrip_witness :
  toSquare 4 6 = "e2"%string
  /\ fileIndexOf (toSquare 4 6) = 4%Z
  /\ rankIndexFromTopOf (toSquare 4 6) = Some 6%Z.
Proof.
  split; [reflexivity|].
  destruct (@toSquare_roundtrip 4 6) as (Hf & Hr & _); [lia|lia|].
  now split.
Defined.

(** X10: squares that share an edge have different colours, and the
    colours are those of a chess board: a square is dark exactly when its
    file (a = 1) and its rank add up to an even number, so a1 is dark and
    h1 is light. *)
Theorem isDark_chessboard (fileIndex rankIndexFromTop : Z) :
  (0 <= fileIndex)%Z -> (0 <= rankIndexFromTop)%Z ->
  isDark (fileIndex + 1) rankIndexFromTop
  = negb (isDark fileIndex rankIndexFromTop)
  /\ isDark fileIndex (rankIndexFromTop + 1)
     = negb (isDark fileIndex rankIndexFromTop)
  /\ isDark fileIndex rankIndexFromTop
     = Z.even ((fileIndex + 1) + (8 - rankIndexFromTop)).
Proof.
  intros Hf Hr. unfold isDark.
  rewrite !Z.rem_mod_nonneg by lia.
  assert (Hodd : forall n, (0 <= n)%Z -> (n mod 2 =? 1)%Z = Z.odd n).
  { intros n Hn. rewrite Zmod_odd. now destruct (Z.odd n). }
  rewrite !Hodd by lia.
  replace (fileIndex + 1 + rankIndexFromTop)%Z
    with (Z.succ (fileIndex + rankIndexFromTop)) by lia.
  replace (fileIndex + (rankIndexFromTop + 1))%Z
    with (Z.succ (fileIndex + rankIndexFromTop)) by lia.
  rewrite Z.odd_succ, <- Z.negb_odd. repeat split.
  replace (fileIndex + 1 + (8 - rankIndexFromTop))%Z
    with (Z.succ (fileIndex + rankIndexFromTop + 2 * (4 - rankIndexFromTop)))
    by lia.
  rewrite Z.even_succ, Z.odd_add_mul_2. reflexivity.
Qed.

(** X10 at a1, file 0 and row 7, and its neighbours. *)
Lemma isDark_chessboard_witness :
  isDark 0 7 = true /\ isDark 1 7 = false /\ isDark 7 7 = false.
Proof.
  destruct (@isDark_chessboard 0 7) as (Hright & _ & Hrule); [lia|lia|].
  split; [rewrite Hrule; reflexivity|].
  split; [exact Hright|reflexivity].
Defined.

(** ** Taps *)


Section Taps.
Context {Chess : Type} {engine : RulesEngine Chess}
        {squares : SquareEngine Chess}.
Variable game : Chess.
Variable size : Q.
Variable isPlayerTurn : bool.
Variable playerColor : option Color.
Variable onMove : string -> string -> bool.


Lemma computeLegalTargets_moves (square target : string) :
  In target (computeLegalTargets game isPlayerTurn playerColor square) ->
  isPlayerTurn = true
  /\ exists piece mv,
       get game square = Some piece
       /\ pcolor piece = turn game
       /\ (forall c, playerColor = Some c -> pcolor piece = c)
       /\ In mv (movesFrom game square) /\ to mv = target.
Proof.
  unfold computeLegalTargets. intros Hin.
  destruct (get game square) as [piece|]; [|contradiction].
  destruct (Color_eqb (pcolor piece) (turn game)) eqn:Hturn;
    [|contradiction].
  destruct isPlayerTurn; [|contradiction]. cbn [negb] in Hin.
  assert (Hmv : In target (map to (movesFrom game square))
                /\ forall c, playerColor = Some c -> pcolor piece = c).
  { destruct playerColor as [c|].
    - destruct (Color_eqb (pcolor piece) c) eqn:Hc; [|contradiction].
      split; [exact Hin|]. intros c' [= <-].
      destruct (pcolor piece), c; (reflexivity || discriminate).
    - split; [exact Hin|]. intros c [=]. }
  destruct Hmv as [Hmv Hcolor]. apply in_map_iff in Hmv.
  destruct Hmv as (mv & Hto & Hmv).
  split; [reflexivity|]. exists piece, mv. repeat split; auto.
  destruct (pcolor piece), (turn game); (reflexivity || discriminate).
Qed.

Lemma toSquare_not_empty (fileIndex rankIndexFromTop : Z) :
  ((fileIndex <? 0) || (7 <? fileIndex)
   || (rankIndexFromTop <? 0) || (7 <? rankIndexFromTop))%Z = false ->
  toSquare fileIndex rankIndexFromTop <> ""%string.
Proof.
  intros E. rewrite !orb_false_iff, !Z.ltb_ge in E.
  destruct (@toSquare_decoded fileIndex rankIndexFromTop) as (_ & _ & Hlen);
    [lia|lia|].
  intros Heq. rewrite Heq in Hlen. discriminate Hlen.
Qed.

Lemma selectOrClear_ok (tappedSquare : string) :
  tappedSquare <> ""%string ->
  selectionOk game isPlayerTurn playerColor
    (selection (selectOrClear game isPlayerTurn playerColor tappedSquare))
  /\ attempted (selectOrClear game isPlayerTurn playerColor tappedSquare)
     = None.
Proof.
  intros Hne. unfold selectOrClear.
  destruct (computeLegalTargets game isPlayerTurn playerColor tappedSquare)
    as [|t ts] eqn:Ht; cbn.
  - split; reflexivity.
  - split; [|reflexivity]. unfold selectionOk. cbn.
    rewrite Ht. repeat split; [exact Hne|discriminate].
Qed.

Lemma includes_In (l : list string) (x : string) :
  includes l x = true -> In x l.
Proof.
  unfold includes. intros H. apply existsb_exists in H.
  destruct H as (y & Hy & Heq). apply String.eqb_eq in Heq. now subst.
Qed.

(** X12: the selection stays sound from tap to tap, and the board hands
    [onMove] legal moves only.  From a state where the targets shown are
    the moves of the selected piece, every tap leads to such a state; and
    when a tap hands a move to [onMove], it goes from the selected square,
    which holds a piece of the side to move and of the player, on the
    player's turn, to the destination of one of that piece's legal moves,
    and the selection is cleared. *)
Theorem handleTap_selection (st : Selection) (x y : Q) :
  selectionOk game isPlayerTurn playerColor st ->
  selectionOk game isPlayerTurn playerColor
    (selection (handleTap game size isPlayerTurn playerColor onMove st x y))
  /\ forall from target,
       attempted (handleTap game size isPlayerTurn playerColor onMove st x y)
       = Some (from, target) ->
       selectedSquare st = Some from
       /\ selection (handleTap game size isPlayerTurn playerColor onMove st x y)
          = noSelection
       /\ isPlayerTurn = true
       /\ exists piece mv,
            get game from = Some piece
            /\ pcolor piece = turn game
            /\ (forall c, playerColor = Some c -> pcolor piece = c)
            /\ In mv (movesFrom game from) /\ to mv = target.
Proof.
  intros Hok. unfold handleTap, handleTapAt.
  set (i := Qfloor (x / squareSize size)).
  set (j := Qfloor (y / squareSize size)).
  destruct ((i <? 0) || (7 <? i) || (j <? 0) || (7 <? j))%Z eqn:E.
  - cbn. split; [exact Hok|discriminate].
  - pose proof (toSquare_not_empty i j E) as Hne.
    destruct (selectOrClear_ok Hne) as [Hsel Hnone].
    destruct (falsy (selectedSquare st));
      [split; [exact Hsel|intros ? ?; rewrite Hnone; discriminate]|].
    destruct (selectedSquare st) as [selected|] eqn:Hs;
      [|split; [exact Hsel|intros ? ?; rewrite Hnone; discriminate]].
    destruct (String.eqb (toSquare i j) selected).
    { cbn. split; [reflexivity|discriminate]. }
    destruct (includes (legalTargets st) (toSquare i j)) eqn:Hinc;
      [|split; [exact Hsel|intros ? ?; rewrite Hnone; discriminate]].
    cbn. split; [reflexivity|].
    intros from target [= <- <-]. split; [reflexivity|].
    split; [reflexivity|].
    unfold selectionOk in Hok. rewrite Hs in Hok.
    destruct Hok as (_ & _ & Htargets).
    apply includes_In in Hinc. rewrite Htargets in Hinc.
    now apply computeLegalTargets_moves.
Qed.

(** X13: while it is not the player's turn and nothing is selected, no
    tap selects a square or hands a move to [onMove]. *)
Theorem handleTap_off_turn (x y : Q) :
  isPlayerTurn = false ->
  handleTap game size isPlayerTurn playerColor onMove noSelection x y
  = mkTap noSelection None None.
Proof.
  intros Hturn. unfold handleTap, handleTapAt.
  destruct (_ || _)%bool; [reflexivity|].
  cbn [noSelection selectedSquare falsy].
  unfold selectOrClear, computeLegalTargets. rewrite Hturn.
  destruct (get game _) as [piece|]; [|reflexivity].
  destruct (Color_eqb (pcolor piece) (turn game)); reflexivity.
Qed.
End Taps.

(** * The game screen *)

Section ScreenHandlers.
Context {Chess : Type} {engine : RulesEngine Chess}
        {entry : MoveEntry Chess}.
Variable gameMode : GameMode.

(** X14: while the AI is thinking in a game against it, [onMove] refuses
    every move and leaves the state as it is.  [onMove] returns true
    exactly when it is not so blocked and chess.js accepts the move with
    promotion to a queen; the game is then the position after the move,
    and the AI is on afterwards exactly if it was on before or the game is
    against the AI with Black to move and not over.  When [onMove] does
    not return true the state is left as it is. *)
Theorem onMove_guarded (st : Screen Chess) (from to : string) :
  (gameMode = HumanVsAI -> isAITurn st = true ->
   onMove gameMode st from to = mkHandled (Some false) st)
  /\ (returned (onMove gameMode st from to) = Some true <->
      (gameMode = HumanVsAI -> isAITurn st = false)
      /\ exists next, tryMove (screenGame st) from to "q" = Moved next)
  /\ (forall next,
        returned (onMove gameMode st from to) = Some true ->
        tryMove (screenGame st) from to "q" = Moved next ->
        screenGame (after (onMove gameMode st from to)) = next
        /\ (isAITurn (after (onMove gameMode st from to)) = true <->
            isAITurn st = true
            \/ (gameMode = HumanVsAI /\ turn next = Black
                /\ isGameOver next = false)))
  /\ (returned (onMove gameMode st from to) <> Some true ->
      after (onMove gameMode st from to) = st).
Proof.
  unfold onMove. split; [|split; [|split]].
  - intros -> ->. reflexivity.
  - destruct gameMode, (isAITurn st); cbn [GameMode_eqb andb];
      destruct (tryMove (screenGame st) from to "q") as [next| |];
      cbn [returned]; split;
      try (intros [_ [n Hn]]; discriminate Hn);
      try discriminate;
      try (intros [H _]; now specialize (H eq_refl));
      try (intros _; split; [discriminate || reflexivity|now exists next]);
      try (intros _; reflexivity).
  - intros next.
    destruct (GameMode_eqb gameMode HumanVsAI && isAITurn st) eqn:Hblock;
      [discriminate|].
    destruct (tryMove (screenGame st) from to "q") as [next'| |];
      try discriminate.
    intros _ [= ->]. cbn [after].
    destruct (GameMode_eqb gameMode HumanVsAI
              && Color_eqb (turn next) Black && negb (isGameOver next))
      eqn:Hnext; cbn [screenGame isAITurn]; (split; [reflexivity|]).
    + apply andb_true_iff in Hnext. destruct Hnext as [Hnext Hover].
      apply andb_true_iff in Hnext. destruct Hnext as [Hmode Hturn].
      apply negb_true_iff in Hover.
      split; [intros _; right|reflexivity].
      split; [now destruct gameMode|].
      split; [|exact Hover].
      destruct (turn next); [discriminate Hturn|reflexivity].
    + split; [now left|]. intros [H|(Hmode & Hturn & Hover)]; [exact H|].
      rewrite Hmode, Hturn, Hover in Hnext. discriminate Hnext.
  - destruct (GameMode_eqb gameMode HumanVsAI && isAITurn st);
      [reflexivity|].
    destruct (tryMove (screenGame st) from to "q") as [next| |];
      try reflexivity.
    intros H. now contradiction H.
Qed.

Lemma Color_eqb_eq (c d : Color) : Color_eqb c d = true -> c = d.
Proof. destruct c, d; (reflexivity || discriminate). Qed.

(** X15: every handler of the screen keeps this true: while the AI is on,
    it is Black's turn in a game that is not over, and in a game between
    two humans the AI is never on.  It is true of a new game. *)
Theorem screen_invariant (st : Screen Chess) (from to promotion : string) :
  screenOk gameMode resetGame
  /\ (screenOk gameMode st ->
      screenOk gameMode (after (onMove gameMode st from to))
      /\ screenOk gameMode (checkAITurn gameMode st)
      /\ screenOk gameMode (applyEngineMove st from to promotion)
      /\ screenOk gameMode (searchFailed st)).
Proof.
  split; [split; [reflexivity|discriminate]|].
  intros [Hhuman Hblack]. split; [|split; [|split]].
  - unfold onMove.
    destruct (GameMode_eqb gameMode HumanVsAI && isAITurn st) eqn:Hblock;
      [now split|].
    destruct (tryMove (screenGame st) from to "q") as [next| |];
      try now split.
    cbn [after].
    destruct (GameMode_eqb gameMode HumanVsAI
              && Color_eqb (turn next) Black && negb (isGameOver next))
      eqn:Hnext.
    + apply andb_true_iff in Hnext. destruct Hnext as [Hnext Hover].
      apply andb_true_iff in Hnext. destruct Hnext as [Hmode Hturn].
      split; cbn.
      * intros ->. discriminate Hmode.
      * intros _. split; [now apply Color_eqb_eq|].
        now apply negb_true_iff.
    + split; cbn; [exact Hhuman|]. intros Hai. exfalso.
      rewrite Hai, andb_true_r in Hblock.
      destruct gameMode; [discriminate Hblock|].
      specialize (Hhuman eq_refl). congruence.
  - unfold checkAITurn.
    destruct (GameMode_eqb gameMode HumanVsAI
              && Color_eqb (turn (screenGame st)) Black
              && negb (isAITurn st) && negb (isGameOver (screenGame st)))
      eqn:Hstart; [|now split].
    rewrite !andb_true_iff in Hstart.
    destruct Hstart as [[[Hmode Hturn] _] Hover]. split; cbn.
    + intros ->. discriminate Hmode.
    + intros _. split; [now apply Color_eqb_eq|now apply negb_true_iff].
  - unfold applyEngineMove.
    destruct (tryMove (screenGame st) from to promotion) as [next| |];
      now split.
  - now split.
Qed.
End ScreenHandlers.

(** ** The watchdog *)

(** X16: when the engine has not answered in time and there is a legal
    move, the watchdog picks a legal move: the first capture in the order
    of the legal moves if some legal move captures, the first move
    otherwise; it promotes to the piece of the move when the move
    promotes and to a queen otherwise. *)
Theorem fallbackPick_first (legal : list Move) :
  legal <> [] ->
  exists pick before rest,
    fallbackPick legal = Some pick
    /\ legal = before ++ pick :: rest
    /\ Forall (fun m => isCapture m = false) before
    /\ ((exists m, In m legal /\ isCapture m = true) ->
        isCapture pick = true)
    /\ (isCapture pick = false -> before = [])
    /\ fallbackMove legal
       = Some (from pick, to pick,
               match promotion pick with
               | Some t => symbolText t
               | None => "q"%string
               end).
Proof.
  intros Hne. unfold fallbackMove, fallbackPick.
  destruct (filter (fun x => truthy (captured x)) legal) as [|c cs] eqn:Hf.
  - destruct legal as [|m l]; [contradiction|].
    exists m, [], l. cbn [hd_error app].
    split; [reflexivity|]. split; [reflexivity|].
    split; [constructor|]. split; [|split; reflexivity].
    intros (x & Hin & Hx). exfalso.
    assert (H : In x (filter (fun x => truthy (captured x)) (m :: l)))
      by (apply filter_In; split; assumption).
    rewrite Hf in H. contradiction.
  - clear Hne. revert c cs Hf.
    induction legal as [|m l IH]; intros c cs Hf; [discriminate Hf|].
    cbn [filter] in Hf. destruct (truthy (captured m)) eqn:Hm.
    + injection Hf as -> _. exists c, [], l.
      split; [reflexivity|]. split; [reflexivity|].
      split; [constructor|]. split; [intros _; exact Hm|].
      split; reflexivity.
    + destruct (IH c cs Hf) as (pick & before & rest & Hpick & Hsplit
                                & Hbefore & Hcap & _ & _).
      injection Hpick as <-.
      assert (Hc : isCapture c = true).
      { assert (H : In c (filter (fun x => truthy (captured x)) l))
          by (rewrite Hf; now left).
        now apply filter_In in H. }
      exists c, (m :: before), rest.
      split; [reflexivity|]. split; [cbn; now rewrite <- Hsplit|].
      split; [now constructor|]. split; [intros _; exact Hc|].
      split; [|reflexivity]. intros Hq. congruence.
Qed.

(** X16 on the legal moves of [mateInOne]: the capture Qxa2 is picked,
    after the quiet move Qb8. *)
Lemma fallbackPick_first_witness :
  exists pick before rest,
    fallbackPick (moves mateInOne) = Some pick
    /\ moves mateInOne = before ++ pick :: rest
    /\ Forall (fun m => isCapture m = false) before
    /\ ((exists m, In m (moves mateInOne) /\ isCapture m = true) ->
        isCapture pick = true)
    /\ (isCapture pick = false -> before = [])
    /\ fallbackMove (moves mateInOne)
       = Some (from pick, to pick,
               match promotion pick with
               | Some t => symbolText t
               | None => "q"%string
               end).
Proof. apply fallbackPick_first. discriminate. Defined.

(** ** The answer of the engine *)

Lemma splitWhiteSpace_not_empty (data : string) (inGap : bool) :
  splitWhiteSpace data inGap <> [].
Proof.
  revert inGap. induction data as [|c rest IH]; intros inGap; cbn.
  - discriminate.
  - destruct (isWhiteSpace c).
    + destruct inGap; [apply IH|discriminate].
    + destruct (splitWhiteSpace rest false); discriminate.
Qed.

Lemma splitWhiteSpace_word (word rest : string) (inGap : bool) :
  word <> EmptyString -> noWhiteSpace word = true ->
  exists piece pieces,
    splitWhiteSpace rest false = piece :: pieces
    /\ splitWhiteSpace (String.append word rest) inGap
       = String.append word piece :: pieces.
Proof.
  intros Hne Hword.
  induction word as [|c word IH]; [contradiction|].
  cbn [noWhiteSpace] in Hword. apply andb_true_iff in Hword.
  destruct Hword as [Hc Hword]. apply negb_true_iff in Hc.
  cbn [String.append splitWhiteSpace]. rewrite Hc.
  destruct word as [|c' word'].
  - cbn [String.append].
    destruct (splitWhiteSpace rest false) as [|piece pieces] eqn:Hrest;
      [now apply splitWhiteSpace_not_empty in Hrest|].
    now exists piece, pieces.
  - destruct IH as (piece & pieces & Hrest & Hsplit);
      [discriminate|exact Hword|].
    exists piece, pieces. split; [exact Hrest|].
    cbn [String.append] in Hsplit |- *.
    cbn [splitWhiteSpace] in Hsplit.
    cbn [noWhiteSpace] in Hword. apply andb_true_iff in Hword.
    destruct Hword as [Hc' _]. apply negb_true_iff in Hc'.
    rewrite Hc' in Hsplit. cbn [splitWhiteSpace]. rewrite Hc'.
    destruct (splitWhiteSpace (String.append word' rest) false)
      as [|p ps]; inversion Hsplit; reflexivity.
Qed.

Lemma splitWhiteSpace_end (rest : string) :
  endsWord rest = true ->
  exists pieces, splitWhiteSpace rest false = EmptyString :: pieces.
Proof.
  destruct rest as [|c rest]; cbn; [now exists []|].
  intros ->. now eexists.
Qed.

Lemma prefix_append (word rest : string) :
  String.prefix word (String.append word rest) = true.
Proof. induction word as [|c word IH]; [now destruct rest|]. cbn.
  destruct (ascii_dec c c); [exact IH|contradiction]. Qed.

Lemma append_empty (s : string) : String.append s EmptyString = s.
Proof. induction s as [|c s IH]; cbn; congruence. Qed.

(** X17: a line of the engine in ASCII that is [bestmove], one space, a
    word of four characters or more, and then nothing or white space, is
    read as a move from the first two characters of the word to the next
    two, promoting to the fifth character when there is one and to a queen
    otherwise; when the word is shorter no move is read. *)
Theorem parseBestMove_word (word rest : string) :
  isAscii word = true -> isAscii rest = true ->
  word <> EmptyString ->
  noWhiteSpace word = true -> endsWord rest = true ->
  parseBestMove
    (String.append "bestmove " (String.append word rest))
  = if (4 <=? String.length word)%nat then
      Some (String.substring 0 2 word, String.substring 2 2 word,
            if (4 <? String.length word)%nat
            then String.substring 4 1 word
            else "q"%string)
    else None.
Proof.
  intros _ _ Hne Hword Hend. unfold parseBestMove.
  change (String.append "bestmove " (String.append word rest))
    with (String.append "bestmove"
            (String " " (String.append word rest))).
  rewrite prefix_append.
  destruct (@splitWhiteSpace_word "bestmove"
              (String " " (String.append word rest)) false)
    as (piece & pieces & Hgap & ->); [discriminate|reflexivity|].
  cbn [splitWhiteSpace isWhiteSpace] in Hgap.
  change (isWhiteSpace " ") with true in Hgap. cbv iota in Hgap.
  destruct (splitWhiteSpace_word rest true Hne Hword)
    as (p & ps & Hrest & Hsplit).
  rewrite Hsplit in Hgap. inversion Hgap; subst piece pieces.
  destruct (splitWhiteSpace_end rest Hend) as (ps' & Hrest').
  rewrite Hrest' in Hrest. inversion Hrest; subst p ps.
  cbn [nth]. rewrite append_empty. reflexivity.
Qed.

(** X17 on an under-promotion followed by a ponder move, and on a word
    that is too short. *)
Lemma parseBestMove_word_witness :
  parseBestMove "bestmove e7e8n ponder a7a6"
  = Some ("e7", "e8", "n")%string
  /\ parseBestMove "bestmove e2" = None.
Proof.
  split.
  - apply (@parseBestMove_word "e7e8n" " ponder a7a6");
      (reflexivity || discriminate).
  - apply (@parseBestMove_word "e2" "");
      (reflexivity || discriminate).
Defined.


(** X12 on [mateInOne] with the queen selected: a tap on b8 hands the move
    b1-b8 to [onMove] and clears the selection. *)
Lemma handleTap_selection_witness :
  selectionOk mateInOne true (Some White)
    (selection (handleTap mateInOne (320 # 1) true (Some White) accept
                  queenSelected (60 # 1) (10 # 1)))
  /\ attempted (handleTap mateInOne (320 # 1) true (Some White) accept
                  queenSelected (60 # 1) (10 # 1))
     = Some ("b1", "b8")%string.
Proof.
  split; [|reflexivity].
  apply (@handleTap_selection Tree treeEngine treeSquares mateInOne
           (320 # 1) true (Some White) accept queenSelected
           (60 # 1) (10 # 1)).
  repeat split; (discriminate || reflexivity).
Defined.

(** X13 on [mateInOne] while the AI is on: a tap on the queen selects
    nothing. *)
Lemma handleTap_off_turn_witness :
  handleTap mateInOne (320 # 1) false (Some White) accept noSelection
    (60 # 1) (290 # 1)
  = mkTap noSelection None None.
Proof. apply handleTap_off_turn. reflexivity. Defined.

(** X14 on [mateInOne]: Qb8 is refused while the AI is on and accepted
    when it is not. *)
Lemma onMove_guarded_witness :
  onMove HumanVsAI (mkScreen mateInOne true) "b1" "b8"
  = mkHandled (Some false) (mkScreen mateInOne true)
  /\ returned (onMove HumanVsAI (mkScreen mateInOne false) "b1" "b8")
     = Some true.
Proof.
  split.
  - apply (proj1 (onMove_guarded HumanVsAI (mkScreen mateInOne true)
                    "b1" "b8")); reflexivity.
  - apply (proj1 (proj2 (onMove_guarded HumanVsAI
                           (mkScreen mateInOne false) "b1" "b8"))).
    split; [reflexivity|]. now exists matedByQb8.
Defined.

(** X15 on the new game: after Qxa2 the AI is on, Black to move. *)
Lemma screen_invariant_witness :
  screenOk HumanVsAI (after (onMove HumanVsAI resetGame "b1" "a2"))
  /\ isAITurn (after (onMove HumanVsAI resetGame "b1" "a2")) = true.
Proof.
  split; [|reflexivity].
  destruct (@screen_invariant Tree treeEngine puzzleEntry HumanVsAI
              resetGame "b1" "a2" "q") as [Hnew Hkept].
  exact (proj1 (Hkept Hnew)).
Defined.

(** * Sounds *)

Section SoundProperties.
Variable rejects : nat -> bool.

(** X18: once the audio mode is set and both sounds are loaded, playing a
    sound loads nothing and sets no mode again: it rewinds the sound and,
    if that is fulfilled, plays it; the module keeps its sounds. *)
Theorem play_loaded (st : Audio) (m c : nat) :
  moveSound st = Some m -> captureSound st = Some c ->
  audioInitialized st = true ->
  playMoveSound rejects st
  = (Some tt,
     mkAudio (Some m) (Some c) true
       (trace st ++ setPositionAsync m
          :: if rejects (length (trace st)) then [] else [playAsync m]))
  /\ playCaptureSound rejects st
     = (Some tt,
        mkAudio (Some m) (Some c) true
          (trace st ++ setPositionAsync c
             :: if rejects (length (trace st)) then [] else [playAsync c])).
Proof.
  destruct st as [ms cs init tr]. cbn. intros -> -> ->.
  unfold playMoveSound, playCaptureSound, initializeSounds, initializeAudio,
    catch, await, expoAv, fulfil. cbn.
  destruct (rejects (length tr)); cbn; [split; reflexivity|].
  rewrite <- !app_assoc. cbn.
  destruct (rejects (length (tr ++ [_]))), (rejects (length (tr ++ [_])));
    split; reflexivity.
Qed.

(** X19: when no sound is loaded and loading the move sound is rejected,
    [playCaptureSound] stops there: it does not try to load the capture
    sound and plays nothing. *)
Theorem capture_silenced_by_move_sound (st : Audio) :
  moveSound st = None -> captureSound st = None ->
  rejects (length (trace st) + if audioInitialized st then 0 else 1)
  = true ->
  playCaptureSound rejects st
  = (Some tt,
     mkAudio None None
       (audioInitialized st || negb (rejects (length (trace st))))
       (trace st ++ (if audioInitialized st then [] else [setAudioModeAsync])
          ++ [createAsync MoveSelfMp3])).
Proof.
  destruct st as [ms cs init tr]. cbn. intros -> -> Hrej.
  unfold playCaptureSound, initializeSounds, initializeAudio,
    catch, await, expoAv, fulfil. cbn.
  destruct init; cbn.
  - rewrite Nat.add_0_r in Hrej. rewrite Hrej. reflexivity.
  - destruct (rejects (length tr)); cbn;
      rewrite length_app; cbn [length]; rewrite Hrej, <- app_assoc;
      reflexivity.
Qed.

(** X20: [cleanupSounds] leaves the audio mode set.  When every unload is
    fulfilled, no sound is left; when the move sound's unload is rejected,
    the module keeps both sounds and does not try to unload the capture
    sound. *)
Theorem cleanupSounds_effect (st : Audio) :
  fst (cleanupSounds rejects st) = Some tt
  /\ audioInitialized (snd (cleanupSounds rejects st)) = audioInitialized st
  /\ (rejects (length (trace st)) = false ->
      rejects (S (length (trace st))) = false ->
      moveSound (snd (cleanupSounds rejects st)) = None
      /\ captureSound (snd (cleanupSounds rejects st)) = None)
  /\ (forall m,
        moveSound st = Some m -> rejects (length (trace st)) = true ->
        snd (cleanupSounds rejects st)
        = mkAudio (Some m) (captureSound st) (audioInitialized st)
            (trace st ++ [unloadAsync m])).
Proof.
  destruct st as [ms cs init tr].
  unfold cleanupSounds, catch, await, expoAv, fulfil. cbn.
  destruct ms as [m|], cs as [c|]; cbn;
    destruct (rejects (length tr)) eqn:H0; cbn;
    rewrite ?length_app, ?Nat.add_1_r; cbn;
    try destruct (rejects (S (length tr))) eqn:H1; cbn;
    repeat split; try discriminate; try reflexivity;
    try (intros ? [=]; subst; try reflexivity; discriminate);
    try (intros; discriminate).
Qed.
End SoundProperties.

Section SoundInvariant.
Variable rejects : nat -> bool.

Lemma keeps_await {A B} (c : Async A) (k : A -> Async B) :
  keeps rejects c -> (forall a, keeps rejects (k a)) ->
  keeps rejects (await c k).
Proof.
  intros Hc Hk st Hst. unfold await. specialize (Hc st Hst).
  destruct (c st) as [[a|] st']; [now apply Hk|exact Hc].
Qed.

Lemma keeps_catch (c : Async unit) :
  keeps rejects c -> keeps rejects (catch c).
Proof.
  intros Hc st Hst. unfold catch. specialize (Hc st Hst).
  now destruct (c st) as [[a|] st'].
Qed.

Lemma keeps_fulfil {A} (a : A) : keeps rejects (fulfil a).
Proof. intros st Hst. exact Hst. Qed.

Lemma nth_error_last {A} (l : list A) (x y : A) (k : nat) :
  nth_error (l ++ [x]) k = Some y ->
  nth_error l k = Some y \/ (k = length l /\ x = y).
Proof.
  intros H. destruct (Nat.lt_ge_cases k (length l)) as [Hlt|Hge].
  - left. now rewrite nth_error_app1 in H.
  - right. rewrite nth_error_app2 in H by exact Hge.
    destruct (k - length l)%nat as [|d] eqn:Hd.
    + cbn in H. split; [lia|congruence].
    + cbn in H. now destruct d.
Qed.

Lemma nth_error_keep {A} (l : list A) (x y : A) (k : nat) :
  nth_error l k = Some y -> nth_error (l ++ [x]) k = Some y.
Proof.
  intros H. rewrite nth_error_app1; [exact H|].
  apply nth_error_Some. congruence.
Qed.

Lemma nth_error_bound {A} (l : list A) (y : A) (k : nat) :
  nth_error l k = Some y -> (k < length l)%nat.
Proof. intros H. apply nth_error_Some. congruence. Qed.

Lemma audioOk_call (st : Audio) (c : AudioCall) (ms cs : option nat)
    (init : bool) :
  audioOk rejects st -> harmless rejects st c ->
  (forall s, ms = Some s ->
     moveSound st = Some s
     \/ (s = length (trace st) /\ c = createAsync MoveSelfMp3
         /\ rejects s = false)) ->
  (forall s, cs = Some s ->
     captureSound st = Some s
     \/ (s = length (trace st) /\ c = createAsync CaptureMp3
         /\ rejects s = false)) ->
  audioOk rejects (mkAudio ms cs init (trace st ++ [c])).
Proof.
  intros [Hm Hc Hlater Hused] Hc0 Hms Hcs.
  assert (Hkeep : forall s file,
    created rejects st s file ->
    created rejects (mkAudio ms cs init (trace st ++ [c])) s file).
  { intros s file [Hn Hr]. split; [|exact Hr]. cbn.
    now apply nth_error_keep. }
  assert (Hun : forall s,
    ~ unloaded rejects st s -> (s < length (trace st))%nat ->
    ~ unloaded rejects (mkAudio ms cs init (trace st ++ [c])) s).
  { intros s Hno Hlt (k & Hk & Hr). cbn in Hk.
    apply nth_error_last in Hk. destruct Hk as [Hk|[-> ->]].
    - apply Hno. now exists k.
    - cbn in Hc0. destruct Hc0 as [Hrej _]. congruence. }
  assert (Hfresh :
    ~ unloaded rejects (mkAudio ms cs init (trace st ++ [c]))
        (length (trace st))).
  { intros (k & Hk & Hr). cbn in Hk.
    apply nth_error_last in Hk. destruct Hk as [Hk|[-> ->]].
    - pose proof (Hlater _ _ Hk). pose proof (nth_error_bound _ _ Hk). lia.
    - cbn in Hc0. destruct Hc0 as [Hrej _]. congruence. }
  assert (Hnew : forall file, c = createAsync file ->
    rejects (length (trace st)) = false ->
    created rejects (mkAudio ms cs init (trace st ++ [c]))
      (length (trace st)) file).
  { intros file -> Hr. split; [|exact Hr]. cbn.
    rewrite nth_error_app2 by lia. now rewrite Nat.sub_diag. }
  split; cbn [moveSound captureSound trace].
  - intros s Hs. destruct (Hms s Hs) as [Hold|(-> & Hcr & Hr)].
    + destruct (Hm s Hold) as [Hcr Hno]. split; [now apply Hkeep|].
      apply Hun; [exact Hno|]. destruct Hcr as [Hn _].
      exact (nth_error_bound _ _ Hn).
    + split; [now apply Hnew|exact Hfresh].
  - intros s Hs. destruct (Hcs s Hs) as [Hold|(-> & Hcr & Hr)].
    + destruct (Hc s Hold) as [Hcr Hno]. split; [now apply Hkeep|].
      apply Hun; [exact Hno|]. destruct Hcr as [Hn _].
      exact (nth_error_bound _ _ Hn).
    + split; [now apply Hnew|exact Hfresh].
  - intros k s Hk. apply nth_error_last in Hk.
    destruct Hk as [Hk|[-> ->]]; [now apply Hlater with (1 := Hk)|].
    cbn in Hc0. tauto.
  - intros j s Hj.
    assert (Hcase :
      (nth_error (trace st) j = Some (playAsync s)
       \/ nth_error (trace st) j = Some (setPositionAsync s))
      \/ (j = length (trace st)
          /\ (c = playAsync s \/ c = setPositionAsync s))).
    { destruct Hj as [Hj|Hj]; apply nth_error_last in Hj;
        destruct Hj as [Hj|[-> ->]]; auto. }
    destruct Hcase as [Hold|[-> Hnow]].
    + destruct (Hused j s Hold) as (Hlt & [file Hcr] & Hbefore).
      split; [exact Hlt|]. split; [exists file; now apply Hkeep|].
      intros k Hk Hr. apply nth_error_last in Hk.
      destruct Hk as [Hk|[-> ->]]; [now apply Hbefore|].
      destruct Hold as [Hold|Hold];
        exact (nth_error_bound _ _ Hold).
    + assert (Hlive : (exists file, created rejects st s file)
                      /\ ~ unloaded rejects st s)
        by (destruct Hnow as [-> | ->]; exact Hc0).
      destruct Hlive as [[file Hcr] Hno].
      split; [destruct Hcr as [Hn _]; exact (nth_error_bound _ _ Hn)|].
      split; [exists file; now apply Hkeep|].
      intros k Hk Hr. apply nth_error_last in Hk.
      destruct Hk as [Hk|[-> Heq]].
      * exfalso. apply Hno. now exists k.
      * destruct Hnow as [-> | ->]; discriminate Heq.
Qed.

(** A fulfilled unload of a sound the module then forgets. *)
Lemma audioOk_unload (st : Audio) (s : nat) (ms cs : option nat)
    (init : bool) :
  audioOk rejects st ->
  (moveSound st = Some s \/ captureSound st = Some s) ->
  (forall s', ms = Some s' -> moveSound st = Some s' /\ s' <> s) ->
  (forall s', cs = Some s' -> captureSound st = Some s' /\ s' <> s) ->
  audioOk rejects (mkAudio ms cs init (trace st ++ [unloadAsync s])).
Proof.
  intros [Hm Hc Hlater Hused] Hheld Hms Hcs.
  assert (Hs : (exists file, created rejects st s file)
               /\ ~ unloaded rejects st s).
  { destruct Hheld as [H|H]; [destruct (Hm s H)|destruct (Hc s H)];
      split; eauto. }
  destruct Hs as [[file [Hsn Hsr]] Hsno].
  pose proof (nth_error_bound _ _ Hsn) as Hslt.
  assert (Hkeep : forall s' f,
    created rejects st s' f ->
    created rejects (mkAudio ms cs init (trace st ++ [unloadAsync s])) s' f).
  { intros s' f [Hn Hr]. split; [|exact Hr]. cbn.
    now apply nth_error_keep. }
  assert (Hun : forall s',
    ~ unloaded rejects st s' -> s' <> s ->
    ~ unloaded rejects
        (mkAudio ms cs init (trace st ++ [unloadAsync s])) s').
  { intros s' Hno Hne (k & Hk & Hr). cbn in Hk.
    apply nth_error_last in Hk. destruct Hk as [Hk|[-> Heq]].
    - apply Hno. now exists k.
    - congruence. }
  split; cbn [moveSound captureSound trace].
  - intros s' Hs'. destruct (Hms s' Hs') as [Hold Hne].
    destruct (Hm s' Hold) as [Hcr Hno]. split; [now apply Hkeep|].
    now apply Hun.
  - intros s' Hs'. destruct (Hcs s' Hs') as [Hold Hne].
    destruct (Hc s' Hold) as [Hcr Hno]. split; [now apply Hkeep|].
    now apply Hun.
  - intros k s' Hk. apply nth_error_last in Hk.
    destruct Hk as [Hk|[-> Heq]]; [now apply Hlater with (1 := Hk)|].
    inversion Heq; subst. exact Hslt.
  - intros j s' Hj.
    assert (Hold : nth_error (trace st) j = Some (playAsync s')
                   \/ nth_error (trace st) j = Some (setPositionAsync s')).
    { destruct Hj as [Hj|Hj]; apply nth_error_last in Hj;
        destruct Hj as [Hj|[_ Heq]]; auto; discriminate Heq. }
    destruct (Hused j s' Hold) as (Hlt & [f Hcr] & Hbefore).
    split; [exact Hlt|]. split; [exists f; now apply Hkeep|].
    intros k Hk Hr. apply nth_error_last in Hk.
    destruct Hk as [Hk|[-> _]]; [now apply Hbefore|].
    destruct Hold as [Hold|Hold]; exact (nth_error_bound _ _ Hold).
Qed.

Lemma audioOk_flag (st : Audio) (init : bool) :
  audioOk rejects st ->
  audioOk rejects (mkAudio (moveSound st) (captureSound st) init (trace st)).
Proof. intros [Hm Hc Hlater Hused]. now split. Qed.

Lemma audioOk_distinct (st : Audio) (m c : nat) :
  audioOk rejects st -> moveSound st = Some m -> captureSound st = Some c ->
  m <> c.
Proof.
  intros [Hm Hc _ _] Hms Hcs ->.
  destruct (Hm _ Hms) as [[H1 _] _], (Hc _ Hcs) as [[H2 _] _]. congruence.
Qed.

Lemma keeps_initializeAudio : keeps rejects (initializeAudio rejects).
Proof.
  apply keeps_catch. intros st Hst.
  destruct (audioInitialized st); cbn [negb]; [exact Hst|].
  unfold await, expoAv, setAudioInitialized.
  destruct (rejects (length (trace st))); cbn;
    apply audioOk_call; cbn; auto.
Qed.

Lemma keeps_load_move :
  keeps rejects (fun st =>
    match moveSound st with
    | None =>
        await (expoAv rejects (createAsync MoveSelfMp3))
          (fun sound => setMoveSound (Some sound)) st
    | Some _ => fulfil tt st
    end).
Proof.
  intros st Hst. destruct (moveSound st) as [m|] eqn:Hm; [exact Hst|].
  unfold await, expoAv, setMoveSound.
  destruct (rejects (length (trace st))) eqn:Hr; cbn;
    apply audioOk_call; cbn; auto.
  intros s [= <-]. auto.
Qed.

Lemma keeps_load_capture :
  keeps rejects (fun st =>
    match captureSound st with
    | None =>
        await (expoAv rejects (createAsync CaptureMp3))
          (fun sound => setCaptureSound (Some sound)) st
    | Some _ => fulfil tt st
    end).
Proof.
  intros st Hst. destruct (captureSound st) as [c|] eqn:Hc; [exact Hst|].
  unfold await, expoAv, setCaptureSound.
  destruct (rejects (length (trace st))) eqn:Hr; cbn;
    apply audioOk_call; cbn; auto.
  intros s [= <-]. auto.
Qed.

Lemma keeps_initializeSounds : keeps rejects (initializeSounds rejects).
Proof.
  apply keeps_catch, keeps_await; [apply keeps_initializeAudio|].
  intros _. apply keeps_await; [apply keeps_load_move|].
  intros _. apply keeps_load_capture.
Qed.

(** Rewinding and playing a sound the module holds. *)
Lemma keeps_play (sound : nat) (st : Audio) :
  audioOk rejects st ->
  (moveSound st = Some sound \/ captureSound st = Some sound) ->
  audioOk rejects
    (snd (await (expoAv rejects (setPositionAsync sound))
            (fun _ => await (expoAv rejects (playAsync sound))
                        (fun _ => fulfil tt)) st)).
Proof.
  intros Hst Hheld.
  assert (Hlive : (exists file, created rejects st sound file)
                  /\ ~ unloaded rejects st sound).
  { destruct Hst as [Hm Hc _ _].
    destruct Hheld as [H|H]; [destruct (Hm _ H)|destruct (Hc _ H)];
      split; eauto. }
  assert (H1 : audioOk rejects
                 (mkAudio (moveSound st) (captureSound st)
                    (audioInitialized st)
                    (trace st ++ [setPositionAsync sound])))
    by (apply audioOk_call; cbn; auto).
  unfold await at 1. unfold expoAv at 1.
  destruct (rejects (length (trace st))); [exact H1|].
  unfold await, expoAv, fulfil.
  set (st1 := mkAudio _ _ _ (trace st ++ [setPositionAsync sound])) in *.
  assert (H2 : audioOk rejects
                 (mkAudio (moveSound st1) (captureSound st1)
                    (audioInitialized st1)
                    (trace st1 ++ [playAsync sound]))).
  { apply audioOk_call; cbn; auto.
    destruct H1 as [Hm Hc _ _].
    destruct Hheld as [H|H]; [destruct (Hm _ H)|destruct (Hc _ H)];
      split; eauto. }
  now destruct (rejects (length (trace st1))).
Qed.

Lemma keeps_playMoveSound : keeps rejects (playMoveSound rejects).
Proof.
  apply keeps_catch, keeps_await; [apply keeps_initializeSounds|].
  intros _ st Hst. destruct (moveSound st) as [m|] eqn:Hm; [|exact Hst].
  apply keeps_play; auto.
Qed.

Lemma keeps_playCaptureSound : keeps rejects (playCaptureSound rejects).
Proof.
  apply keeps_catch, keeps_await; [apply keeps_initializeSounds|].
  intros _ st Hst. destruct (captureSound st) as [c|] eqn:Hc; [|exact Hst].
  apply keeps_play; auto.
Qed.

Lemma keeps_cleanupSounds : keeps rejects (cleanupSounds rejects).
Proof.
  apply keeps_catch, keeps_await.
  - intros st Hst. destruct (moveSound st) as [m|] eqn:Hm; [|exact Hst].
    unfold await, expoAv, setMoveSound.
    destruct (rejects (length (trace st))) eqn:Hr; cbn.
    + apply audioOk_call; cbn; auto. split; [exact Hr|].
      destruct Hst as [Hlive _ _ _].
      destruct (Hlive _ Hm) as [[Hn _] _].
      exact (nth_error_bound _ _ Hn).
    + apply audioOk_unload; auto; [discriminate|].
      intros c Hc. split; [exact Hc|].
      intros ->. now apply (audioOk_distinct Hst Hm Hc).
  - intros _ st Hst. destruct (captureSound st) as [c|] eqn:Hc; [|exact Hst].
    unfold await, expoAv, setCaptureSound.
    destruct (rejects (length (trace st))) eqn:Hr; cbn.
    + apply audioOk_call; cbn; auto. split; [exact Hr|].
      destruct Hst as [_ Hlive _ _].
      destruct (Hlive _ Hc) as [[Hn _] _].
      exact (nth_error_bound _ _ Hn).
    + apply audioOk_unload; auto; [|discriminate].
      intros m Hm. split; [exact Hm|].
      intros ->. now apply (audioOk_distinct Hst Hm Hc).
Qed.

Lemma audioOk_noAudio : audioOk rejects noAudio.
Proof.
  split; cbn; try discriminate.
  - intros k s H. now destruct k.
  - intros j s [H|H]; now destruct j.
Qed.

Lemma audioOk_runOps (ops : list SoundOp) :
  audioOk rejects (runOps rejects ops).
Proof.
  unfold runOps. generalize audioOk_noAudio. generalize noAudio.
  induction ops as [|op ops IH]; intros st Hst; [exact Hst|].
  cbn [fold_left]. apply IH.
  destruct op; cbn [runOp];
    [apply keeps_playMoveSound|apply keeps_playCaptureSound
    |apply keeps_cleanupSounds]; exact Hst.
Qed.

(** X21: however the app calls the three functions and whichever calls to
    expo-av are rejected, a sound that is rewound or played was created by
    a fulfilled [createAsync], and every fulfilled unload of it comes
    later: no sound is used before it is loaded or after it is
    unloaded. *)
Theorem no_use_after_unload (ops : list SoundOp) (j s : nat) :
  nth_error (trace (runOps rejects ops)) j = Some (playAsync s)
  \/ nth_error (trace (runOps rejects ops)) j = Some (setPositionAsync s) ->
  (s < j)%nat
  /\ (exists file,
        nth_error (trace (runOps rejects ops)) s = Some (createAsync file)
        /\ rejects s = false)
  /\ forall k,
       nth_error (trace (runOps rejects ops)) k = Some (unloadAsync s) ->
       rejects k = false -> (j < k)%nat.
Proof.
  intros Hj. destruct (audioOk_runOps ops) as [_ _ _ Hused].
  exact (Hused j s Hj).
Qed.
End SoundInvariant.

(** X18 on the module with both sounds loaded, when no call is rejected. *)
Lemma play_loaded_witness :
  playMoveSound neverRejects loadedAudio
  = (Some tt,
     mkAudio (Some 1%nat) (Some 2%nat) true
       (trace loadedAudio ++ [setPositionAsync 1; playAsync 1])).
Proof.
  exact (proj1 (@play_loaded neverRejects loadedAudio 1 2
                  eq_refl eq_refl eq_refl)).
Defined.

(** X19 on the first sound of the app, when the second call to expo-av is
    rejected. *)
Lemma capture_silenced_by_move_sound_witness :
  playCaptureSound (Nat.eqb 1) noAudio
  = (Some tt,
     mkAudio None None true [setAudioModeAsync; createAsync MoveSelfMp3]).
Proof.
  exact (@capture_silenced_by_move_sound (Nat.eqb 1) noAudio
           eq_refl eq_refl eq_refl).
Defined.

(** X20 on the module with both sounds loaded, when the unload of the move
    sound is rejected. *)
Lemma cleanupSounds_effect_witness :
  snd (cleanupSounds (Nat.eqb 3) loadedAudio)
  = mkAudio (Some 1%nat) (Some 2%nat) true
      (trace loadedAudio ++ [unloadAsync 1]).
Proof.
  exact (proj2 (proj2 (proj2 (cleanupSounds_effect (Nat.eqb 3) loadedAudio)))
           1%nat eq_refl eq_refl).
Defined.

(** X21 on a move sound played and then unloaded: the sound is the second
    call, played by the fifth and unloaded by the sixth. *)
Lemma no_use_after_unload_witness : (1 < 4)%nat /\ (4 < 5)%nat.
Proof.
  destruct (@no_use_after_unload neverRejects [PlayMove; Cleanup] 4%nat 1%nat
              (or_introl eq_refl)) as (Hcreated & _ & Hunloaded).
  split; [exact Hcreated|]. apply Hunloaded; reflexivity.
Defined.
